(** * An arithmetic-expression calculator (calc.py): lexer, recursive-descent
      parser and tree-walking evaluator, embedded and verified.

    Modelling conventions.
    - A Python [str] is a list of characters; characters are code points
      below 256 ([ascii]).  The regular-expression classes are the Python 3
      ones on that range.
    - A Python [int] is a [Z]; a Python [float] is an IEEE-754 binary64
      number ([PrimFloat.float]), with the operations of the processor.
    - A call that may raise returns an [outcome]: [Return v] or [Raise e].
      The recursive-descent functions are defined by recursion on a bound
      [fuel] on the depth of their calls; [OutOfFuel] is the result when the
      bound is too small, and [parse] is proved never to produce it.
    - The logging calls ([logger.debug], the [add_logger] decorator) have no
      effect on results and are left out.  The interpreter's recursion limit
      and its limit on the number of digits [int] converts are not modelled. *)

From Stdlib Require Import String Ascii ZArith List Floats Bool Arith Lia.
Import ListNotations.



(** ** Strings *)

Definition str := list ascii.

(** A string literal as a str. *)
Definition lit (text : string) : str := list_ascii_of_string text.

(** ** Tokens, exceptions and outcomes *)

Inductive TokenName :=
| FLOAT | INTEGER | PLUS | MINUS | WHITESPACE | LPAREN | RPAREN | MUL | DIV | EOF.

Definition TokenName_eqb (a b : TokenName) : bool :=
  match a, b with
  | FLOAT, FLOAT | INTEGER, INTEGER | PLUS, PLUS | MINUS, MINUS
  | WHITESPACE, WHITESPACE | LPAREN, LPAREN | RPAREN, RPAREN
  | MUL, MUL | DIV, DIV | EOF, EOF => true
  | _, _ => false
  end.

(** class Token: a name and the matched text ([None] for the synthetic EOF). *)
Record Token := mkToken { name : TokenName; value : option str }.

(** The two messages [SyntaxError] is raised with. *)
Inductive syntax_msg :=
| Expected_but_found (token_type found : TokenName)   (* raised by eat *)
| Unrecognized_token (token : Token).                 (* raised by parse_factor *)

Inductive exn :=
| StopIteration
| TokenizerException (pos len : nat) (text : str)
| SyntaxError (msg : syntax_msg)
| ZeroDivisionError
| OverflowError
| KeyError (key : TokenName)
| TypeError
| ValueError
| NameError (id : string).

Inductive outcome (A : Type) :=
| Return (a : A)
| Raise (e : exn)
| OutOfFuel.

Arguments Return {A} a.
Arguments Raise {A} e.
Arguments OutOfFuel {A}.

Definition bind {A B} (m : outcome A) (k : A -> outcome B) : outcome B :=
  match m with
  | Return a => k a
  | Raise e => Raise e
  | OutOfFuel => OutOfFuel
  end.

Notation "x <- m ;; k" := (bind m (fun x => k))
  (at level 61, m at next level, right associativity).
Notation "' pat <- m ;; k" := (bind m (fun x => match x with pat => k end))
  (at level 61, pat pattern, m at next level, right associativity).

(** ** The numeric tower: int and float *)

Inductive number :=
| PyInt (z : Z)
| PyFloat (f : float).

Definition prec : Z := 53.
Definition emax : Z := 1024.

(** An integer as an unrounded binary number (mantissa, exponent 0). *)
Definition exact_int (z : Z) : spec_float :=
  match z with
  | Z0 => S754_zero false
  | Zpos p => S754_finite false p 0
  | Zneg p => S754_finite true p 0
  end.

Definition finite_or_overflow (x : spec_float) : outcome float :=
  match x with
  | S754_infinity _ => Raise OverflowError
  | _ => Return (SF2Prim x)
  end.

(** int -> float, rounding to nearest even; "int too large to convert to
    float" when the rounded value does not fit. *)
Definition float_of_int (z : Z) : outcome float :=
  finite_or_overflow (binary_normalize prec emax z 0 false).

Definition to_float (v : number) : outcome float :=
  match v with
  | PyInt z => float_of_int z
  | PyFloat f => Return f
  end.

(** int / int: the correctly rounded quotient; "division by zero" for a
    zero divisor, "integer division result too large for a float". *)
Definition int_true_divide (a b : Z) : outcome float :=
  if (b =? 0)%Z then Raise ZeroDivisionError
  else finite_or_overflow (SFdiv prec emax (exact_int a) (exact_int b)).

(** float / float, after both operands are converted: "float division by
    zero" when the divisor compares equal to 0.0. *)
Definition float_div (a b : float) : outcome float :=
  if (b =? 0)%float then Raise ZeroDivisionError else Return (a / b)%float.

Definition py_add (x y : number) : outcome number :=
  match x, y with
  | PyInt a, PyInt b => Return (PyInt (a + b))
  | _, _ => a <- to_float x;; b <- to_float y;; Return (PyFloat (a + b))
  end.

Definition py_sub (x y : number) : outcome number :=
  match x, y with
  | PyInt a, PyInt b => Return (PyInt (a - b))
  | _, _ => a <- to_float x;; b <- to_float y;; Return (PyFloat (a - b))
  end.

Definition py_mul (x y : number) : outcome number :=
  match x, y with
  | PyInt a, PyInt b => Return (PyInt (a * b))
  | _, _ => a <- to_float x;; b <- to_float y;; Return (PyFloat (a * b))
  end.

Definition py_truediv (x y : number) : outcome number :=
  match x, y with
  | PyInt a, PyInt b => q <- int_true_divide a b;; Return (PyFloat q)
  | _, _ => a <- to_float x;; b <- to_float y;;
            q <- float_div a b;; Return (PyFloat q)
  end.

Definition py_neg (x : number) : number :=
  match x with
  | PyInt a => PyInt (- a)
  | PyFloat a => PyFloat (- a)
  end.

(** ** Characters and lexical patterns *)

Definition is_digit (c : ascii) : bool :=
  let n := nat_of_ascii c in (48 <=? n) && (n <=? 57).

(** "\s" on a str pattern: the characters for which Python's isspace holds. *)
Definition is_space (c : ascii) : bool :=
  let n := nat_of_ascii c in
  ((9 <=? n) && (n <=? 13)) || ((28 <=? n) && (n <=? 32))
  || (n =? 133) || (n =? 160).

(** The regular expressions of the lexeme table are sequences of pieces: one
    character of a class, or one or more of them (greedy).  Every "+" of the
    table ends its pattern, so greedy matching never has to give back. *)
Inductive charclass :=
| Chr (c : ascii)     (* an escaped or plain literal *)
| Digits              (* [0-9] *)
| Spaces.             (* \s *)

Inductive piece :=
| One (k : charclass)
| OneOrMore (k : charclass).

Definition accepts (k : charclass) (c : ascii) : bool :=
  match k with
  | Chr d => Ascii.eqb c d
  | Digits => is_digit c
  | Spaces => is_space c
  end.

(** The longest prefix of characters satisfying [p]. *)
Fixpoint span (p : ascii -> bool) (text : str) : str :=
  match text with
  | c :: rest => if p c then c :: span p rest else []
  | [] => []
  end.

(** The text a pattern matches at the start of [text], if it matches. *)
Fixpoint match_pattern (re : list piece) (text : str) : option str :=
  match re with
  | [] => Some []
  | One k :: re' =>
      match text with
      | c :: rest =>
          if accepts k c
          then option_map (cons c) (match_pattern re' rest)
          else None
      | [] => None
      end
  | OneOrMore k :: re' =>
      match span (accepts k) text with
      | [] => None
      | m => option_map (app m) (match_pattern re' (skipn (length m) text))
      end
  end.

(** The alternation "(?P<n1>re1)|(?P<n2>re2)|...": the first alternative
    that matches wins; the result is [m.lastgroup] and its text. *)
Fixpoint re_match (lexemes : list (TokenName * list piece)) (text : str)
  : option (TokenName * str) :=
  match lexemes with
  | [] => None
  | (tokname, re) :: others =>
      match match_pattern re text with
      | Some tokvalue => Some (tokname, tokvalue)
      | None => re_match others text
      end
  end.

(** ** class Lexer *)

Record Lexer := mkLexer { lexemes : list (TokenName * list piece) }.

(** The generator [lexer.tokenize(text)], suspended in its loop at [pos]. *)
Record Generator := mkGenerator { text : str; pos : nat }.

Definition tokenize (text : str) : Generator := mkGenerator text 0.

(** [next(generator)]: one more turn of the loop of [tokenize], for the
    generator made by the lexer [self]. *)
Definition next (self : Lexer) (g : Generator) : outcome (Token * Generator) :=
  match re_match (lexemes self) (skipn (pos g) (text g)) with
  | Some (tokname, tokvalue) =>
      Return (mkToken tokname (Some tokvalue),
              mkGenerator (text g) (pos g + length tokvalue))
  | None =>
      if pos g =? length (text g) then Raise StopIteration
      else Raise (TokenizerException (pos g) (length (text g)) (text g))
  end.

(** ** The abstract syntax tree *)

Inductive AbstractSyntaxTree :=
| Number (token : Token) (value : number)
| BinOp (left : AbstractSyntaxTree) (op : Token) (right : AbstractSyntaxTree)
| UnaryOp (op : Token) (expr : AbstractSyntaxTree).

Definition digit_value (c : ascii) : Z := Z.of_nat (nat_of_ascii c) - 48.

Definition digits_value (digits : str) : Z :=
  fold_left (fun acc c => 10 * acc + digit_value c)%Z digits 0%Z.

Definition all_digits (text : str) : bool :=
  match text with [] => false | _ => forallb is_digit text end.

(** [int(text)] on the texts the lexer passes to it: decimal digits. *)
Definition py_int (text : str) : outcome number :=
  if all_digits text then Return (PyInt (digits_value text))
  else Raise ValueError.

(** [float(text)] on the texts the lexer passes to it, "i.f" with decimal
    digits on both sides: the binary64 number nearest to the decimal. *)
Definition py_float (text : str) : outcome number :=
  let i := span is_digit text in
  match skipn (length i) text with
  | "."%char :: f =>
      if all_digits i && all_digits f then
        Return (PyFloat (SF2Prim
          (SFdiv prec emax (exact_int (digits_value (i ++ f)))
                           (exact_int (10 ^ Z.of_nat (length f))))))
      else Raise ValueError
  | _ => Raise ValueError
  end.

(** [Number(token, factory)]: the value is [factory(token.value)]. *)
Definition mkNumber (token : Token) (factory : str -> outcome number)
  : outcome AbstractSyntaxTree :=
  match value token with
  | Some text => v <- factory text;; Return (Number token v)
  | None => Raise TypeError
  end.

(** ** class Parser *)

(** The lexer of [Parser.__init__]. *)
Definition lexer : Lexer :=
  mkLexer
    [ (FLOAT,      [One Digits; One (Chr "."); OneOrMore Digits]);
      (INTEGER,    [OneOrMore Digits]);
      (PLUS,       [One (Chr "+")]);
      (MINUS,      [One (Chr "-")]);
      (WHITESPACE, [OneOrMore Spaces]);
      (LPAREN,     [One (Chr "(")]);
      (RPAREN,     [One (Chr ")")]);
      (MUL,        [One (Chr "*")]);
      (DIV,        [One (Chr "/")]) ].

(** The mutable fields of a Parser object. *)
Record Parser := mkParser { current_token : Token; tokens : Generator }.

(** [eat]: advance when the lookahead has the expected name; the end of the
    token generator becomes the token EOF. *)
Definition eat (token_type : TokenName) (self : Parser) : outcome Parser :=
  if TokenName_eqb (name (current_token self)) token_type then
    match next lexer (tokens self) with
    | Return (tok, g) => Return (mkParser tok g)
    | Raise StopIteration => Return (mkParser (mkToken EOF None) (tokens self))
    | Raise e => Raise e
    | OutOfFuel => OutOfFuel
    end
  else Raise (SyntaxError
                (Expected_but_found token_type (name (current_token self)))).

Fixpoint eat_whitespace (fuel : nat) (self : Parser) : outcome Parser :=
  match fuel with
  | O => OutOfFuel
  | S fuel' =>
      if TokenName_eqb (name (current_token self)) WHITESPACE then
        self' <- eat WHITESPACE self;; eat_whitespace fuel' self'
      else Return self
  end.

Definition match_addop (self : Parser) : bool :=
  match name (current_token self) with
  | PLUS | MINUS => true
  | _ => false
  end.

Definition match_multop (self : Parser) : bool :=
  match name (current_token self) with
  | MUL | DIV => true
  | _ => false
  end.

Definition parse_binop (fuel : nat) (left : AbstractSyntaxTree)
    (right_callback : Parser -> outcome (AbstractSyntaxTree * Parser))
    (self : Parser) : outcome (AbstractSyntaxTree * Parser) :=
  let op := current_token self in
  self <- eat (name (current_token self)) self;;
  self <- eat_whitespace fuel self;;
  '(node, self) <- right_callback self;;
  Return (BinOp left op node, self).

Fixpoint parse_expr (fuel : nat) (self : Parser)
  : outcome (AbstractSyntaxTree * Parser) :=
  match fuel with
  | O => OutOfFuel
  | S fuel' =>
      '(node, self) <- parse_term fuel' self;;
      self <- eat_whitespace fuel' self;;
      parse_expr_loop fuel' node self
  end

(** the loop "while self.match_addop()" of parse_expr *)
with parse_expr_loop (fuel : nat) (node : AbstractSyntaxTree) (self : Parser)
  : outcome (AbstractSyntaxTree * Parser) :=
  match fuel with
  | O => OutOfFuel
  | S fuel' =>
      if match_addop self then
        '(node, self) <- parse_binop fuel' node (parse_term fuel') self;;
        parse_expr_loop fuel' node self
      else Return (node, self)
  end

with parse_term (fuel : nat) (self : Parser)
  : outcome (AbstractSyntaxTree * Parser) :=
  match fuel with
  | O => OutOfFuel
  | S fuel' =>
      '(node, self) <- parse_factor fuel' self;;
      self <- eat_whitespace fuel' self;;
      parse_term_loop fuel' node self
  end

(** the loop "while self.match_multop()" of parse_term *)
with parse_term_loop (fuel : nat) (node : AbstractSyntaxTree) (self : Parser)
  : outcome (AbstractSyntaxTree * Parser) :=
  match fuel with
  | O => OutOfFuel
  | S fuel' =>
      if match_multop self then
        '(node, self) <- parse_binop fuel' node (parse_factor fuel') self;;
        parse_term_loop fuel' node self
      else Return (node, self)
  end

with parse_factor (fuel : nat) (self : Parser)
  : outcome (AbstractSyntaxTree * Parser) :=
  match fuel with
  | O => OutOfFuel
  | S fuel' =>
      let token := current_token self in
      '(node, self) <-
        match name token with
        | INTEGER =>
            self <- eat (name token) self;;
            node <- mkNumber token py_int;;
            Return (node, self)
        | FLOAT =>
            self <- eat (name token) self;;
            node <- mkNumber token py_float;;
            Return (node, self)
        | MINUS =>
            self <- eat (name token) self;;
            '(expr, self) <- parse_factor fuel' self;;
            Return (UnaryOp token expr, self)
        | LPAREN =>
            self <- eat (name token) self;;
            self <- eat_whitespace fuel' self;;
            '(node, self) <- parse_expr fuel' self;;
            self <- eat_whitespace fuel' self;;
            self <- eat RPAREN self;;
            Return (node, self)
        | _ => Raise (SyntaxError (Unrecognized_token token))
        end;;
      self <- eat_whitespace fuel' self;;
      Return (node, self)
  end.

(** A bound on the depth of the calls [parse] makes on [text]. *)
Definition enough_fuel (text : str) : nat := 3 * length text + 3.

(** [Parser.parse]: the first token is pulled outside [eat], so the
    StopIteration of an empty token sequence is not caught.  The result is
    the tree, with the state the parser object is left in. *)
Definition parse (text : str) : outcome (AbstractSyntaxTree * Parser) :=
  let g := tokenize text in
  '(tok, g) <- next lexer g;;
  parse_expr (enough_fuel text) (mkParser tok g).

(** ** class Calculator *)

(** The dictionary [operators] of visit_BinOp. *)
Definition operators (key : TokenName)
  : option (number -> number -> outcome number) :=
  match key with
  | PLUS => Some py_add
  | MINUS => Some py_sub
  | MUL => Some py_mul
  | DIV => Some py_truediv
  | _ => None
  end.

(** [visit]: dispatch on the class of the node; the three classes of the
    dictionary [visitors] are the three kinds of nodes.  visit_BinOp looks
    the operator up before it visits the operands, left then right. *)
Fixpoint visit (node : AbstractSyntaxTree) : outcome number :=
  match node with
  | Number _ v => Return v
  | BinOp l op r =>
      match operators (name op) with
      | None => Raise (KeyError (name op))
      | Some f => x <- visit l;; y <- visit r;; f x y
      end
  | UnaryOp _ e => x <- visit e;; Return (py_neg x)
  end.

Definition evaluate (text : str) : outcome number :=
  '(tree, _) <- parse text;;
  visit tree.


(** The module-level names of calc.py, with what matters of their values
    for a call [name().evaluate(text)]: the class Calculator, or something
    else.  None of them, and no builtin, is called Evaluator. *)
Inductive global_object := class_Calculator | another_object.

Definition globals : list (string * global_object) :=
  [ ("logging", another_object); ("re", another_object);
    ("get_logger", another_object); ("add_logger", another_object);
    ("logger", another_object); ("Token", another_object);
    ("TokenizerException", another_object); ("Lexer", another_object);
    ("AbstractSyntaxTree", another_object); ("Number", another_object);
    ("BinOp", another_object); ("UnaryOp", another_object);
    ("Parser", another_object); ("NodeVistor", another_object);
    ("Calculator", class_Calculator); ("calc", another_object) ]%string.

Fixpoint lookup (id : string) (names : list (string * global_object))
  : option global_object :=
  match names with
  | [] => None
  | (id', obj) :: names' =>
      if String.eqb id id' then Some obj else lookup id names'
  end.

(** [calc]: "evaluator = Evaluator()" looks the name up when it runs. *)
Definition calc (text : str) : outcome number :=
  match lookup "Evaluator" globals with
  | None => Raise (NameError "Evaluator")
  | Some class_Calculator => evaluate text
  | Some another_object => Raise TypeError
  end.

(** * Definitions used in the statements and proofs *)

(** What is left to read: the characters after the generator's position,
    and the lookahead unless it is EOF. *)
Definition remaining (self : Parser) : nat :=
  length (text (tokens self)) - pos (tokens self)
  + match name (current_token self) with EOF => 0 | _ => 1 end.

(** A call that returns has read something, and reads the same text on. *)
Definition consumes (strictly : bool)
    (call : Parser -> outcome (AbstractSyntaxTree * Parser)) : Prop :=
  forall self node self',
    call self = Return (node, self') ->
    text (tokens self') = text (tokens self)
    /\ (if strictly then remaining self' < remaining self
        else remaining self' <= remaining self).

(** The branches of parse_factor, before its last eat_whitespace. *)
Definition factor_cases (fuel : nat) (self : Parser)
  : outcome (AbstractSyntaxTree * Parser) :=
  let token := current_token self in
  match name token with
  | INTEGER =>
      self <- eat (name token) self;;
      node <- mkNumber token py_int;;
      Return (node, self)
  | FLOAT =>
      self <- eat (name token) self;;
      node <- mkNumber token py_float;;
      Return (node, self)
  | MINUS =>
      self <- eat (name token) self;;
      '(expr, self) <- parse_factor fuel self;;
      Return (UnaryOp token expr, self)
  | LPAREN =>
      self <- eat (name token) self;;
      self <- eat_whitespace fuel self;;
      '(node, self) <- parse_expr fuel self;;
      self <- eat_whitespace fuel self;;
      self <- eat RPAREN self;;
      Return (node, self)
  | _ => Raise (SyntaxError (Unrecognized_token token))
  end.


(** ** What the evaluation of a tree does *)

(** [applies node k x y]: visiting [node] applies the operator of name [k]
    to the values [x] and [y] (its operands have been visited, left then
    right, and returned them). *)
Inductive applies
  : AbstractSyntaxTree -> TokenName -> number -> number -> Prop :=
| applies_here l op r f x y :
    operators (name op) = Some f ->
    visit l = Return x -> visit r = Return y ->
    applies (BinOp l op r) (name op) x y
| applies_in_left l op r f k x y :
    operators (name op) = Some f ->
    applies l k x y ->
    applies (BinOp l op r) k x y
| applies_in_right l op r f k x y x' :
    operators (name op) = Some f ->
    visit l = Return x' ->
    applies r k x y ->
    applies (BinOp l op r) k x y
| applies_in_operand op e k x y :
    applies e k x y ->
    applies (UnaryOp op e) k x y.

(** A divisor equal to zero: the int 0, or a float that compares equal to
    0.0. *)
Definition is_zero (y : number) : bool :=
  match y with
  | PyInt b => (b =? 0)%Z
  | PyFloat b => (b =? 0)%float
  end.

(** The dividend is an int that does not convert to float, and the divisor
    is a float. *)
Definition dividend_overflows (x y : number) : bool :=
  match x, y with
  | PyInt a, PyFloat _ =>
      match float_of_int a with Return _ => false | _ => true end
  | _, _ => false
  end.

(** One operand is an int and the other a float. *)
Definition mixed (x y : number) : bool :=
  match x, y with
  | PyInt _, PyFloat _ | PyFloat _, PyInt _ => true
  | _, _ => false
  end.

(** ** Positions of a text *)

(** No pattern of the lexer matches at position [p] of [text], which is not
    its end. *)
Definition unmatched (text : str) (p : nat) : Prop :=
  p < length text /\ re_match (lexemes lexer) (skipn p text) = None.

(** The text of the tokens INTEGER(2), WHITESPACE, INTEGER(3), then a
    character no pattern matches. *)
Definition two_three_at : str := lit "2 3@".

(** A one followed by 309 zeros, an int above the largest float. *)
Definition huge : str := "1"%char :: repeat "0"%char 309.

(** huge / 0.0 *)
Definition huge_by_zero : str := huge ++ lit "/0.0".

(** The tree of huge / 0.0. *)
Definition huge_by_zero_tree : AbstractSyntaxTree :=
  BinOp (Number (mkToken INTEGER (Some huge)) (PyInt (10 ^ 309)))
        (mkToken DIV (Some ["/"%char]))
        (Number (mkToken FLOAT (Some (lit "0.0"))) (PyFloat 0)).

(** ** Parser states and tokenizer errors *)

(** The generator of a parser has not run past the end of its text. *)
Definition in_text (self : Parser) : Prop :=
  pos (tokens self) <= length (text (tokens self)).

(** A TokenizerException carries the text being read, its length, and a
    position of it where no pattern matches. *)
Definition reports (e : exn) (t : str) : Prop :=
  forall p n t', e = TokenizerException p n t' ->
                 t' = t /\ n = length t /\ unmatched t p.

(** A call keeps the generator within its text and raises only such
    tokenizer errors. *)
Definition sound_call {A} (result_state : A -> Parser)
    (call : Parser -> outcome A) : Prop :=
  forall self, in_text self ->
    (forall a, call self = Return a -> in_text (result_state a))
    /\ (forall e, call self = Raise e -> reports e (text (tokens self))).

(** ** The lookahead at a position *)

(** What [eat] does once the name is checked: take the next token of the
    generator, or make EOF when the generator is finished. *)
Definition pull (g : Generator) : outcome Parser :=
  match next lexer g with
  | Return (tok, g') => Return (mkParser tok g')
  | Raise StopIteration => Return (mkParser (mkToken EOF None) g)
  | Raise e => Raise e
  | OutOfFuel => OutOfFuel
  end.

(** The state of a parser that has read [text] up to position [p] and
    skipped the whitespace there: its lookahead is the first token at or
    after [p] that is not whitespace. *)
Definition advance (text : str) (p : nat) : outcome Parser :=
  self <- pull (mkGenerator text p);;
  if TokenName_eqb (name (current_token self)) WHITESPACE
  then pull (tokens self)
  else Return self.

(** Position [p] of [text], where [rest] is what follows. *)
Definition at_pos (text : str) (p : nat) (rest : str) : Prop :=
  p <= length text /\ skipn p text = rest.

(** The name of the token a punctuation character makes. *)
Definition punctuation (c : ascii) : option TokenName :=
  if Ascii.eqb c "+" then Some PLUS
  else if Ascii.eqb c "-" then Some MINUS
  else if Ascii.eqb c "(" then Some LPAREN
  else if Ascii.eqb c ")" then Some RPAREN
  else if Ascii.eqb c "*" then Some MUL
  else if Ascii.eqb c "/" then Some DIV
  else None.

(** What follows a number must not continue it: not a digit, and not the
    dot that would make a one-digit INTEGER the start of a FLOAT. *)
Definition ends_number (rest : str) : bool :=
  match rest with
  | [] => true
  | c :: _ => negb (is_digit c) && negb (Ascii.eqb c ".")
  end.

(** [agrees o o']: the call with outcome [o] had fuel enough only if it did
    what [o'] says. *)
Definition agrees {A} (o o' : outcome A) : Prop :=
  o = OutOfFuel \/ o = o'.

(** ** The grammar

    The grammar of expressions, with the tree each expression stands for:

      expr   := term (WHITESPACE* addop WHITESPACE* term)*
      term   := factor (WHITESPACE* multop WHITESPACE* factor)*
      factor := MINUS factor | INTEGER | FLOAT
              | LPAREN WHITESPACE* expr WHITESPACE* RPAREN
              | factor WHITESPACE*

    Whitespace may stand after a factor and around a binary operator, not
    between a unary minus and its factor.  A repetition folds a running
    left operand with the next operator and right operand. *)
Module Grammar.

(** WHITESPACE* *)
Definition whitespace (w : str) : Prop := forallb is_space w = true.

Definition addop (c : ascii) : option TokenName :=
  if Ascii.eqb c "+" then Some PLUS
  else if Ascii.eqb c "-" then Some MINUS
  else None.

Definition multop (c : ascii) : option TokenName :=
  if Ascii.eqb c "*" then Some MUL
  else if Ascii.eqb c "/" then Some DIV
  else None.

Inductive factor : str -> AbstractSyntaxTree -> Prop :=
| factor_MINUS x t :
    factor x t ->
    factor ("-"%char :: x) (UnaryOp (mkToken MINUS (Some ["-"%char])) t)
| factor_INTEGER d v :
    all_digits d = true -> py_int d = Return v ->
    factor d (Number (mkToken INTEGER (Some d)) v)
| factor_FLOAT c f v :
    is_digit c = true -> all_digits f = true ->
    py_float (c :: "."%char :: f) = Return v ->
    factor (c :: "."%char :: f)
           (Number (mkToken FLOAT (Some (c :: "."%char :: f))) v)
| factor_LPAREN w1 e t w2 :
    whitespace w1 -> expr e t -> whitespace w2 ->
    factor ("("%char :: w1 ++ e ++ w2 ++ [")"%char]) t
| factor_WHITESPACE x t w :
    factor x t -> whitespace w -> factor (x ++ w) t

with term : str -> AbstractSyntaxTree -> Prop :=
| term_factor x t rest r :
    factor x t -> term_rest t rest r -> term (x ++ rest) r

(** [term_rest l rest r]: after the left operand [l], the repetition
    [rest] makes the tree [r]. *)
with term_rest : AbstractSyntaxTree -> str -> AbstractSyntaxTree -> Prop :=
| term_rest_nil l : term_rest l [] l
| term_rest_multop l w1 c k w2 x t rest r :
    whitespace w1 -> multop c = Some k -> whitespace w2 ->
    factor x t ->
    term_rest (BinOp l (mkToken k (Some [c])) t) rest r ->
    term_rest l (w1 ++ c :: w2 ++ x ++ rest) r

with expr : str -> AbstractSyntaxTree -> Prop :=
| expr_term x t rest r :
    term x t -> expr_rest t rest r -> expr (x ++ rest) r

with expr_rest : AbstractSyntaxTree -> str -> AbstractSyntaxTree -> Prop :=
| expr_rest_nil l : expr_rest l [] l
| expr_rest_addop l w1 c k w2 x t rest r :
    whitespace w1 -> addop c = Some k -> whitespace w2 ->
    term x t ->
    expr_rest (BinOp l (mkToken k (Some [c])) t) rest r ->
    expr_rest l (w1 ++ c :: w2 ++ x ++ rest) r.

End Grammar.

(** A call at position [p] of [txt] reads [n] characters and the
    whitespace after them, and returns the tree [t]. *)
Definition parses (call : Parser -> outcome (AbstractSyntaxTree * Parser))
    (txt : str) (p n : nat) (t : AbstractSyntaxTree) : Prop :=
  forall self, advance txt p = Return self ->
    agrees (call self) (self' <- advance txt (p + n);; Return (t, self')).

(** The lookahead after position [p] of [txt] stops the loops named. *)
Definition stops (multiplicative additive : bool) (txt : str) (p : nat)
  : Prop :=
  forall self, advance txt p = Return self ->
    (multiplicative = true -> match_multop self = false)
    /\ (additive = true -> match_addop self = false).

(** A factor starts with a digit, a minus sign or a parenthesis. *)
Definition starts_factor (c : ascii) : bool :=
  is_digit c || Ascii.eqb c "-" || Ascii.eqb c "(".

Scheme factor_mind := Minimality for Grammar.factor Sort Prop
  with term_mind := Minimality for Grammar.term Sort Prop
  with term_rest_mind := Minimality for Grammar.term_rest Sort Prop
  with expr_mind := Minimality for Grammar.expr Sort Prop
  with expr_rest_mind := Minimality for Grammar.expr_rest Sort Prop.

Combined Scheme grammar_mind
  from factor_mind, term_mind, term_rest_mind, expr_mind, expr_rest_mind.

(** The parser reads a factor of the grammar as the grammar says. *)
Definition factor_parses (x : str) (t : AbstractSyntaxTree) : Prop :=
  forall fuel txt p rest,
    at_pos txt p (x ++ rest) -> ends_number rest = true ->
    parses (parse_factor fuel) txt p (length x) t.

(** [reads m a call x t]: the parsing function [call] reads [x] as the tree
    [t], when what follows [x] stops the loops named by [m] and [a]. *)
Definition reads (m a : bool)
    (call : nat -> Parser -> outcome (AbstractSyntaxTree * Parser))
    (x : str) (t : AbstractSyntaxTree) : Prop :=
  forall fuel txt p rest,
    at_pos txt p (x ++ rest) -> ends_number rest = true ->
    stops m a txt (p + length x) ->
    parses (call fuel) txt p (length x) t.

(** A repetition is empty or starts, after whitespace, with an operator of
    its class. *)
Definition repetition (opclass : ascii -> option TokenName) (x : str)
  : Prop :=
  x = [] \/ exists w c k x', x = w ++ c :: x' /\ Grammar.whitespace w
                             /\ opclass c = Some k.

(** ** The calls of the parser *)

Inductive call :=
| call_parse_expr (fuel : nat) (self : Parser)
| call_parse_expr_loop (fuel : nat) (node : AbstractSyntaxTree)
                       (self : Parser)
| call_parse_term (fuel : nat) (self : Parser)
| call_parse_term_loop (fuel : nat) (node : AbstractSyntaxTree)
                       (self : Parser)
| call_parse_factor (fuel : nat) (self : Parser).

Definition run (c : call) : outcome (AbstractSyntaxTree * Parser) :=
  match c with
  | call_parse_expr fuel self => parse_expr fuel self
  | call_parse_expr_loop fuel node self => parse_expr_loop fuel node self
  | call_parse_term fuel self => parse_term fuel self
  | call_parse_term_loop fuel node self => parse_term_loop fuel node self
  | call_parse_factor fuel self => parse_factor fuel self
  end.

(** [invokes c c']: the call [c] makes the call [c'], what it does before
    having returned. *)
Inductive invokes : call -> call -> Prop :=
| expr_invokes_term fuel self :
    invokes (call_parse_expr (S fuel) self) (call_parse_term fuel self)
| expr_invokes_loop fuel self node self1 self2 :
    parse_term fuel self = Return (node, self1) ->
    eat_whitespace fuel self1 = Return self2 ->
    invokes (call_parse_expr (S fuel) self)
            (call_parse_expr_loop fuel node self2)
| expr_loop_invokes_term fuel node self self1 self2 :
    match_addop self = true ->
    eat (name (current_token self)) self = Return self1 ->
    eat_whitespace fuel self1 = Return self2 ->
    invokes (call_parse_expr_loop (S fuel) node self)
            (call_parse_term fuel self2)
| expr_loop_invokes_loop fuel node self node' self' :
    match_addop self = true ->
    parse_binop fuel node (parse_term fuel) self = Return (node', self') ->
    invokes (call_parse_expr_loop (S fuel) node self)
            (call_parse_expr_loop fuel node' self')
| term_invokes_factor fuel self :
    invokes (call_parse_term (S fuel) self) (call_parse_factor fuel self)
| term_invokes_loop fuel self node self1 self2 :
    parse_factor fuel self = Return (node, self1) ->
    eat_whitespace fuel self1 = Return self2 ->
    invokes (call_parse_term (S fuel) self)
            (call_parse_term_loop fuel node self2)
| term_loop_invokes_factor fuel node self self1 self2 :
    match_multop self = true ->
    eat (name (current_token self)) self = Return self1 ->
    eat_whitespace fuel self1 = Return self2 ->
    invokes (call_parse_term_loop (S fuel) node self)
            (call_parse_factor fuel self2)
| term_loop_invokes_loop fuel node self node' self' :
    match_multop self = true ->
    parse_binop fuel node (parse_factor fuel) self = Return (node', self') ->
    invokes (call_parse_term_loop (S fuel) node self)
            (call_parse_term_loop fuel node' self')
| factor_invokes_factor fuel self self1 :
    name (current_token self) = MINUS ->
    eat MINUS self = Return self1 ->
    invokes (call_parse_factor (S fuel) self) (call_parse_factor fuel self1)
| factor_invokes_expr fuel self self1 self2 :
    name (current_token self) = LPAREN ->
    eat LPAREN self = Return self1 ->
    eat_whitespace fuel self1 = Return self2 ->
    invokes (call_parse_factor (S fuel) self) (call_parse_expr fuel self2).

(** [reaches c c']: [c'] is [c] or a call made, directly or not, by [c]. *)
Inductive reaches : call -> call -> Prop :=
| reaches_refl c : reaches c c
| reaches_step c c' c'' : invokes c c' -> reaches c' c'' -> reaches c c''.

(** [parse text] makes the call [c]. *)
Definition parse_calls (text : str) (c : call) : Prop :=
  exists tok g,
    next lexer (tokenize text) = Return (tok, g)
    /\ reaches (call_parse_expr (enough_fuel text) (mkParser tok g)) c.


(** ** Trees of the grammar *)

(** Every binary operator of the tree is in the dictionary [operators]. *)
Fixpoint operators_known (node : AbstractSyntaxTree) : bool :=
  match node with
  | Number _ _ => true
  | BinOp l op r =>
      match operators (name op) with Some _ => true | None => false end
      && operators_known l && operators_known r
  | UnaryOp _ e => operators_known e
  end.

(** The tree has integer literals only, and no division. *)
Fixpoint integer_arithmetic (node : AbstractSyntaxTree) : bool :=
  match node with
  | Number _ (PyInt _) => true
  | Number _ (PyFloat _) => false
  | BinOp l op r =>
      match name op with PLUS | MINUS | MUL => true | _ => false end
      && integer_arithmetic l && integer_arithmetic r
  | UnaryOp _ e => integer_arithmetic e
  end.

(** Neither a division sign nor a dot. *)
Definition plain (c : ascii) : bool :=
  negb (Ascii.eqb c "/") && negb (Ascii.eqb c ".").

(** What may follow an expression without being looked at: after optional
    whitespace, a parenthesis, or after some whitespace, a digit. *)
Definition residual (r : str) : Prop :=
  exists w c r',
    r = w ++ c :: r' /\ Grammar.whitespace w
    /\ (c = "("%char \/ c = ")"%char \/ (is_digit c = true /\ w <> [])).

(** The tree [parse] returns. *)
Definition parse_tree (text : str) : outcome AbstractSyntaxTree :=
  '(tree, _) <- parse text;; Return tree.

(** The tokens and literals of the examples. *)
Definition op_token (k : TokenName) (c : ascii) : Token :=
  mkToken k (Some [c]).

Definition int_literal (digits : string) : AbstractSyntaxTree :=
  Number (mkToken INTEGER (Some (lit digits)))
         (PyInt (digits_value (lit digits))).

(** A lookahead that starts a residual: a number or a parenthesis. *)
Definition residual_token (k : TokenName) : bool :=
  match k with
  | INTEGER | FLOAT | LPAREN | RPAREN => true
  | _ => false
  end.

(** * Definitions for the lexer's runs, the parser's reading and the decorator *)
(** ** The whole token sequence of a text *)

(** The text of a token (EOF has none). *)
Definition token_text (tok : Token) : str :=
  match value tok with
  | Some v => v
  | None => []
  end.

(** A consumer of the generator [lexer.tokenize(text)], such as a for loop:
    the tokens it is given, and what ends the iteration, StopIteration or
    the TokenizerException.  The result is [None] when the fuel runs out,
    as it does when the generator goes on for ever. *)
Fixpoint drain (self : Lexer) (fuel : nat) (g : Generator)
  : option (list Token * exn) :=
  match fuel with
  | O => None
  | S fuel' =>
      match next self g with
      | Return (tok, g') =>
          match drain self fuel' g' with
          | Some (toks, e) => Some (tok :: toks, e)
          | None => None
          end
      | Raise e => Some ([], e)
      | OutOfFuel => None
      end
  end.

(** A generator that yields no empty token yields at most one token for
    each character: one more turn ends it. *)
Definition tokens_of (self : Lexer) (text : str)
  : option (list Token * exn) :=
  drain self (S (length text)) (tokenize text).

(** The text of a token is as its name says. *)
Definition well_lexed (tok : Token) : bool :=
  match name tok, value tok with
  | INTEGER, Some v => all_digits v
  | FLOAT, Some (c :: d :: f) =>
      is_digit c && Ascii.eqb d "." && all_digits f
  | WHITESPACE, Some (c :: v) => forallb is_space (c :: v)
  | EOF, _ => false
  | k, Some [c] =>
      match punctuation c with
      | Some k' => TokenName_eqb k k'
      | None => false
      end
  | _, _ => false
  end.

Definition is_number_token (tok : Token) : bool :=
  match name tok with
  | INTEGER | FLOAT => true
  | _ => false
  end.

(** Two tokens that cannot follow each other: whitespace after whitespace,
    a number after a number. *)
Definition cannot_follow (a b : Token) : bool :=
  (TokenName_eqb (name a) WHITESPACE && TokenName_eqb (name b) WHITESPACE)
  || (is_number_token a && is_number_token b).

(** The characters that start a token. *)
Definition starts_token (c : ascii) : bool :=
  is_digit c || is_space c
  || match punctuation c with Some _ => true | None => false end.

(** No two tokens in a row that cannot follow each other. *)
Fixpoint munched (toks : list Token) : bool :=
  match toks with
  | a :: (b :: _) as rest => negb (cannot_follow a b) && munched rest
  | _ => true
  end.

(** What follows a token does not continue it: no whitespace after
    whitespace, no digit after a number. *)
Definition token_ended (tok : Token) (rest : str) : Prop :=
  match rest with
  | [] => True
  | c :: _ =>
      (name tok = WHITESPACE -> is_space c = false)
      /\ (is_number_token tok = true -> is_digit c = false)
  end.

(** ** The text a call of the parser reads *)

(** The characters of [txt] from offset [a] up to offset [b]. *)
Definition slice (txt : str) (a b : nat) : str := firstn (b - a) (skipn a txt).

(** The parser reads [txt] and its lookahead is the token at offset [s], or
    EOF when [s] is the end of the text. *)
Definition at_token (txt : str) (s : nat) (self : Parser) : Prop :=
  s <= length txt /\ pull (mkGenerator txt s) = Return self.

(** The names of the tokens parse_factor has a branch for. *)
Definition factor_token (k : TokenName) : bool :=
  match k with
  | INTEGER | FLOAT | MINUS | LPAREN => true
  | _ => false
  end.

(** The exceptions of the parser: a TokenizerException of the lexer, the
    SyntaxError of [eat] for a missing right parenthesis, the SyntaxError of
    parse_factor for a token that starts no factor. *)
Definition parser_error (e : exn) : Prop :=
  match e with
  | TokenizerException _ _ _ => True
  | SyntaxError (Expected_but_found token_type found) =>
      token_type = RPAREN /\ found <> RPAREN
  | SyntaxError (Unrecognized_token tok) => factor_token (name tok) = false
  | _ => False
  end.

(** The outcome [o] of a call made with the lookahead at offset [s]: when
    it returns a tree, the call has read a text that the grammar [gram]
    relates to the tree, up to the offset of the new lookahead, which is no
    whitespace; when it raises, the exception is one of the parser's. *)
Definition parsed (gram : str -> AbstractSyntaxTree -> Prop) (txt : str)
    (s : nat) (o : outcome (AbstractSyntaxTree * Parser)) : Prop :=
  match o with
  | Return (t, self') =>
      exists s', s <= s' /\ at_token txt s' self'
                 /\ name (current_token self') <> WHITESPACE
                 /\ gram (slice txt s s') t
  | Raise e => parser_error e
  | OutOfFuel => True
  end.

(** The exceptions of [evaluate] on [text], with what each tells:
    StopIteration, that the text is empty; TokenizerException, a position
    of the text where no token starts; SyntaxError, a missing right
    parenthesis or a token that starts no factor; the arithmetic errors of
    the operators.  The others are never raised. *)
Definition evaluate_error (text : str) (e : exn) : Prop :=
  match e with
  | StopIteration => text = []
  | TokenizerException p n t => t = text /\ n = length text /\ unmatched text p
  | SyntaxError (Expected_but_found token_type found) =>
      token_type = RPAREN /\ found <> RPAREN
  | SyntaxError (Unrecognized_token tok) => factor_token (name tok) = false
  | ZeroDivisionError | OverflowError => True
  | KeyError _ | TypeError | ValueError | NameError _ => False
  end.

(** The lookahead after position [q] of [txt] is the token [tok], which
    starts no factor: an operator other than minus, a right parenthesis, or
    EOF. *)
Definition no_operand (txt : str) (q : nat) (tok : Token) : Prop :=
  (exists g, advance txt q = Return (mkParser tok g))
  /\ factor_token (name tok) = false.

(** The text without its whitespace. *)
Definition strip (text : str) : str :=
  filter (fun c => negb (is_space c)) text.

(** ** utils.py: the decorator [add_logger]

    The decorated functions of calc.py run with the global name [logger]
    bound to a logger of their own.  A module namespace ([f.__globals__])
    is a dictionary from names to objects; the decorated function [f] is
    called with arguments, reads and writes the namespace, and returns or
    raises.  The objects are those of the interpreter, of any type
    [object]; the logging library is a function [child_logger] that gives,
    for [f.__module__] and [f.__qualname__], the object
    [logging.getLogger(f.__module__).getChild(f.__qualname__)], whatever
    name the library gives this logger. *)

Definition namespace (object : Type) := list (string * object).

(** [globs.get(key, sentinel)]; [None] stands for the sentinel. *)
Fixpoint dict_get {object : Type} (key : string) (globs : namespace object)
  : option object :=
  match globs with
  | [] => None
  | (k, v) :: globs' =>
      if String.eqb key k then Some v else dict_get key globs'
  end.

Fixpoint dict_del {object : Type} (key : string) (globs : namespace object)
  : namespace object :=
  match globs with
  | [] => []
  | (k, v) :: globs' =>
      if String.eqb key k then dict_del key globs'
      else (k, v) :: dict_del key globs'
  end.

(** [globs[key] = v] *)
Definition dict_set {object : Type} (key : string) (v : object)
    (globs : namespace object) : namespace object :=
  (key, v) :: dict_del key globs.

(** What a call does: it returns, or raises an exception of the function,
    or the KeyError of "del globs['logger']". *)
Inductive completion (R E : Type) :=
| Returns (result : R)
| Raises (e : E)
| Raises_KeyError (key : string).

Arguments Returns {R E} result.
Arguments Raises {R E} e.
Arguments Raises_KeyError {R E} key.

(** [add_logger(f)], the function [wrapped]: [f] is decorated in the module
    [module] under the qualified name [qualname]. *)
Definition add_logger {object A R E : Type}
    (child_logger : string -> string -> object)
    (module qualname : string)
    (f : A -> namespace object -> completion R E * namespace object)
    (args : A) (globs : namespace object)
  : completion R E * namespace object :=
  let logger_o := dict_get "logger" globs in
  let globs := dict_set "logger" (child_logger module qualname) globs in
  let (result, globs) := f args globs in
  (* finally: *)
  match logger_o with
  | None =>
      match dict_get "logger" globs with
      | Some _ => (result, dict_del "logger" globs)
      | None => (Raises_KeyError "logger", globs)
      end
  | Some o => (result, dict_set "logger" o globs)
  end.
(** * Properties *)

(** ** Outcomes *)

Lemma bind_Return_inv {A B} (m : outcome A) (k : A -> outcome B) b :
  bind m k = Return b -> exists a, m = Return a /\ k a = Return b.
Proof. destruct m; simpl; intros H; try discriminate; eauto. Qed.

Lemma bind_Raise_inv {A B} (m : outcome A) (k : A -> outcome B) e :
  bind m k = Raise e ->
  m = Raise e \/ exists a, m = Return a /\ k a = Raise e.
Proof.
  destruct m; simpl; intros H; try discriminate;
    [right; eauto | left; congruence].
Qed.

Lemma bind_OutOfFuel_inv {A B} (m : outcome A) (k : A -> outcome B) :
  bind m k = OutOfFuel ->
  m = OutOfFuel \/ exists a, m = Return a /\ k a = OutOfFuel.
Proof.
  destruct m; simpl; intros H; try discriminate;
    [right; eauto | left; reflexivity].
Qed.

(** ** The lexer *)

#[local] Arguments skipn : simpl never.

Lemma span_prefix p t : t = span p t ++ skipn (length (span p t)) t.
Proof.
  induction t as [|c t IH]; simpl; [reflexivity|].
  destruct (p c); simpl; [rewrite skipn_cons; f_equal; exact IH | reflexivity].
Qed.

Lemma match_pattern_prefix re : forall t v,
  match_pattern re t = Some v -> t = v ++ skipn (length v) t.
Proof.
  induction re as [|[k|k] re IH]; intros t v; simpl.
  - intros [= <-]. reflexivity.
  - destruct t as [|c t]; [discriminate|].
    destruct (accepts k c); [|discriminate].
    destruct (match_pattern re t) as [v'|] eqn:E; simpl; intros [= <-].
    simpl. rewrite skipn_cons. f_equal. apply IH, E.
  - pose proof (span_prefix (accepts k) t) as Hs.
    destruct (span (accepts k) t) as [|c m]; [discriminate|].
    set (sm := c :: m) in *.
    destruct (match_pattern re _) as [v'|] eqn:E; cbn [option_map];
      intros [= <-].
    apply IH in E.
    change (S (length m)) with (length sm) in E.
    change (c :: m ++ v') with (sm ++ v').
    rewrite length_app, Nat.add_comm, <- skipn_skipn, <- app_assoc, <- E.
    exact Hs.
Qed.

Lemma match_pattern_nonempty q re t v :
  match_pattern (q :: re) t = Some v -> 1 <= length v.
Proof.
  destruct q as [k|k]; simpl.
  - destruct t as [|c t]; [discriminate|].
    destruct (accepts k c); [|discriminate].
    destruct (match_pattern re t); simpl; intros [= <-]; simpl; lia.
  - destruct (span (accepts k) t) as [|c m]; [discriminate|].
    destruct (match_pattern re _); simpl; intros [= <-]; simpl; lia.
Qed.

Lemma re_match_sound table : forall t tokname v,
  Forall (fun spec => snd spec <> [] /\ fst spec <> EOF) table ->
  re_match table t = Some (tokname, v) ->
  tokname <> EOF /\ 1 <= length v /\ t = v ++ skipn (length v) t.
Proof.
  induction table as [|[n re] table IH]; intros t tokname v Hall; simpl.
  - discriminate.
  - inversion Hall as [|? ? [Hre Hn] Hall']; subst. simpl in *.
    destruct (match_pattern re t) as [v'|] eqn:E.
    + intros [= <- <-]. split; [exact Hn|]. split.
      * destruct re as [|q re]; [congruence|].
        eapply match_pattern_nonempty, E.
      * apply match_pattern_prefix with (re := re), E.
    + intros H. eapply IH; eauto.
Qed.

Lemma lexer_table_ok :
  Forall (fun spec => snd spec <> [] /\ fst spec <> EOF) (lexemes lexer).
Proof. repeat constructor; simpl; discriminate. Qed.

(** A token the lexer yields is not EOF, is not empty, and is the text at
    the position of the generator. *)
Lemma next_Return g tok g' :
  next lexer g = Return (tok, g') ->
  name tok <> EOF /\ text g' = text g /\ pos g < pos g' <= length (text g)
  /\ exists v, value tok = Some v /\ pos g' = pos g + length v
               /\ skipn (pos g) (text g) = v ++ skipn (pos g') (text g).
Proof.
  unfold next.
  destruct (re_match _ _) as [[n v]|] eqn:E.
  - intros [= <- <-]. simpl.
    apply re_match_sound in E; [|apply lexer_table_ok].
    destruct E as (Hn & Hv & Hpre).
    assert (Hlen : length (skipn (pos g) (text g))
                   = length v + length (skipn (length v) (skipn (pos g) (text g))))
      by (rewrite Hpre at 1; apply length_app).
    rewrite length_skipn in Hlen.
    repeat split; try assumption; try lia.
    exists v. repeat split.
    rewrite Hpre at 1. now rewrite skipn_skipn, Nat.add_comm.
  - destruct (_ =? _); discriminate.
Qed.

Lemma next_Raise g e :
  next lexer g = Raise e ->
  re_match (lexemes lexer) (skipn (pos g) (text g)) = None
  /\ ((e = StopIteration /\ pos g = length (text g))
      \/ (e = TokenizerException (pos g) (length (text g)) (text g)
          /\ pos g <> length (text g))).
Proof.
  unfold next.
  destruct (re_match _ _) as [[n v]|] eqn:E; [discriminate|].
  destruct (_ =? _) eqn:Ep; intros [= <-]; split; trivial.
  - left. split; trivial. now apply Nat.eqb_eq.
  - right. split; trivial. now apply Nat.eqb_neq.
Qed.

Lemma next_terminates g : next lexer g <> OutOfFuel.
Proof.
  unfold next. destruct (re_match _ _) as [[n v]|]; [discriminate|].
  destruct (_ =? _); discriminate.
Qed.

(** ** Termination of the parser *)

Lemma TokenName_eqb_eq a b : TokenName_eqb a b = true <-> a = b.
Proof. destruct a, b; simpl; split; congruence. Qed.

Lemma TokenName_eqb_neq a b : TokenName_eqb a b = false <-> a <> b.
Proof. destruct a, b; simpl; split; congruence. Qed.

Lemma eat_Return k self self' :
  eat k self = Return self' ->
  name (current_token self) = k
  /\ text (tokens self') = text (tokens self)
  /\ (k <> EOF -> remaining self' < remaining self).
Proof.
  unfold eat. destruct (TokenName_eqb _ _) eqn:Ek; [|discriminate].
  apply TokenName_eqb_eq in Ek. rewrite Ek.
  destruct (next lexer (tokens self)) as [[tok g]|e|] eqn:En.
  - intros [= <-]. apply next_Return in En.
    destruct En as (Hn & Ht & Hp & _). unfold remaining; simpl.
    rewrite Ht, Ek. repeat split; trivial. intros Hk.
    destruct k, (name tok); try congruence; lia.
  - destruct e; try discriminate. intros [= <-].
    unfold remaining; simpl. rewrite Ek. repeat split; trivial.
    intros Hk. destruct k; try congruence; lia.
  - discriminate.
Qed.

Lemma eat_terminates k self : eat k self <> OutOfFuel.
Proof.
  unfold eat. destruct (TokenName_eqb _ _); [|discriminate].
  pose proof (next_terminates (tokens self)) as Hn.
  destruct (next lexer (tokens self)) as [[tok g]|[]|]; congruence.
Qed.

Lemma eat_whitespace_Return fuel : forall self self',
  eat_whitespace fuel self = Return self' ->
  text (tokens self') = text (tokens self)
  /\ remaining self' <= remaining self
  /\ name (current_token self') <> WHITESPACE.
Proof.
  induction fuel as [|fuel IH]; intros self self'; simpl; [discriminate|].
  destruct (TokenName_eqb _ _) eqn:Ek.
  - intros H. apply bind_Return_inv in H. destruct H as (s1 & He & Hw).
    apply eat_Return in He. destruct He as (_ & Ht & Hr).
    apply IH in Hw. destruct Hw as (Ht' & Hr' & Hn).
    repeat split; try congruence.
    assert (remaining s1 < remaining self) by (apply Hr; discriminate). lia.
  - intros [= <-]. apply TokenName_eqb_neq in Ek. auto.
Qed.

Lemma eat_whitespace_terminates fuel : forall self,
  remaining self < fuel -> eat_whitespace fuel self <> OutOfFuel.
Proof.
  induction fuel as [|fuel IH]; intros self Hf; simpl; [lia|].
  destruct (TokenName_eqb _ _); [|discriminate].
  destruct (eat WHITESPACE self) as [s1| |] eqn:He; simpl.
  - apply IH. apply eat_Return in He. destruct He as (_ & _ & Hr).
    assert (remaining s1 < remaining self) by (apply Hr; discriminate). lia.
  - discriminate.
  - now apply eat_terminates in He.
Qed.

Lemma mkNumber_terminates token factory :
  (forall t, factory t <> OutOfFuel) -> mkNumber token factory <> OutOfFuel.
Proof.
  intros Hf. unfold mkNumber. destruct (value token) as [t|]; [|discriminate].
  specialize (Hf t). destruct (factory t); simpl; congruence.
Qed.

Lemma py_int_terminates t : py_int t <> OutOfFuel.
Proof. unfold py_int. destruct (all_digits t); discriminate. Qed.

Lemma py_float_terminates t : py_float t <> OutOfFuel.
Proof.
  unfold py_float. destruct (skipn _ _) as [|c f]; [discriminate|].
  destruct (Ascii.eqb c "."%char) eqn:E.
  - apply Ascii.eqb_eq in E. subst c. destruct (_ && _); discriminate.
  - destruct c as [[] [] [] [] [] [] [] []]; discriminate.
Qed.

Tactic Notation "inv_bind" hyp(H) "as" simple_intropattern(a) ident(Ha) :=
  apply bind_Return_inv in H; destruct H as (a & Ha & H).

Lemma match_addop_not_EOF self :
  match_addop self = true -> name (current_token self) <> EOF.
Proof. unfold match_addop. destruct (name _); discriminate. Qed.

Lemma match_multop_not_EOF self :
  match_multop self = true -> name (current_token self) <> EOF.
Proof. unfold match_multop. destruct (name _); discriminate. Qed.

Lemma parse_binop_Return fuel left callback self node self' :
  consumes true callback ->
  name (current_token self) <> EOF ->
  parse_binop fuel left callback self = Return (node, self') ->
  text (tokens self') = text (tokens self)
  /\ remaining self' + 2 <= remaining self.
Proof.
  intros Hc Hk H. unfold parse_binop in H.
  inv_bind H as s1 H1. apply eat_Return in H1. destruct H1 as (_ & Ht1 & Hr1).
  inv_bind H as s2 H2. apply eat_whitespace_Return in H2.
  destruct H2 as (Ht2 & Hr2 & _).
  inv_bind H as [n3 s3] H3. apply Hc in H3. destruct H3 as (Ht3 & Hr3).
  injection H as <- <-. specialize (Hr1 Hk).
  split; [congruence | lia].
Qed.

Lemma parse_factor_S fuel self :
  parse_factor (S fuel) self =
  ('(node, self) <- factor_cases fuel self;;
   self <- eat_whitespace fuel self;;
   Return (node, self)).
Proof. reflexivity. Qed.

Lemma factor_cases_consumes fuel :
  consumes true (parse_expr fuel) -> consumes true (parse_factor fuel) ->
  consumes true (factor_cases fuel).
Proof.
  intros IHe IHf self node self' H. unfold factor_cases in H.
  destruct (name (current_token self)) eqn:Ek; try discriminate.
  - inv_bind H as s1 H1. inv_bind H as n2 H2. injection H as <- <-.
    apply eat_Return in H1. destruct H1 as (_ & Ht & Hr).
    split; [exact Ht | apply Hr; discriminate].
  - inv_bind H as s1 H1. inv_bind H as n2 H2. injection H as <- <-.
    apply eat_Return in H1. destruct H1 as (_ & Ht & Hr).
    split; [exact Ht | apply Hr; discriminate].
  - inv_bind H as s1 H1. inv_bind H as [n2 s2] H2. injection H as <- <-.
    apply eat_Return in H1. destruct H1 as (_ & Ht & Hr).
    apply IHf in H2. destruct H2 as (Ht2 & Hr2).
    assert (remaining s1 < remaining self) by (apply Hr; discriminate).
    split; [congruence | lia].
  - inv_bind H as s1 H1. inv_bind H as s2 H2.
    inv_bind H as [n3 s3] H3. inv_bind H as s4 H4.
    inv_bind H as s5 H5. injection H as <- <-.
    apply eat_Return in H1. destruct H1 as (_ & Ht1 & Hr1).
    apply eat_whitespace_Return in H2. destruct H2 as (Ht2 & Hr2 & _).
    apply IHe in H3. destruct H3 as (Ht3 & Hr3).
    apply eat_whitespace_Return in H4. destruct H4 as (Ht4 & Hr4 & _).
    apply eat_Return in H5. destruct H5 as (_ & Ht5 & Hr5).
    assert (remaining s1 < remaining self) by (apply Hr1; discriminate).
    assert (remaining s5 < remaining s4) by (apply Hr5; discriminate).
    split; [congruence | lia].
Qed.

Lemma parse_consumes fuel :
  consumes true (parse_expr fuel)
  /\ (forall node, consumes false (parse_expr_loop fuel node))
  /\ consumes true (parse_term fuel)
  /\ (forall node, consumes false (parse_term_loop fuel node))
  /\ consumes true (parse_factor fuel).
Proof.
  induction fuel as [|fuel (IHe & IHel & IHt & IHtl & IHf)].
  { repeat split; intros; discriminate. }
  assert (Hf : consumes true (parse_factor (S fuel))).
  { intros self node self' H. rewrite parse_factor_S in H.
    inv_bind H as [n0 s0] H0. inv_bind H as s9 H9. injection H as <- <-.
    apply eat_whitespace_Return in H9. destruct H9 as (Ht' & Hr' & _).
    apply factor_cases_consumes in H0; trivial. destruct H0 as (Ht0 & Hr0).
    split; [congruence | lia]. }
  assert (Htl : forall node, consumes false (parse_term_loop (S fuel) node)).
  { intros node self node' self' H. simpl in H.
    destruct (match_multop self) eqn:Em.
    - inv_bind H as [n1 s1] H1. apply IHtl in H. destruct H as (Ht & Hr).
      apply parse_binop_Return in H1;
        [|exact IHf | now apply match_multop_not_EOF].
      destruct H1 as (Ht1 & Hr1). split; [congruence | lia].
    - injection H as <- <-. split; [reflexivity | lia]. }
  assert (Htm : consumes true (parse_term (S fuel))).
  { intros self node self' H. simpl in H.
    inv_bind H as [n1 s1] H1. inv_bind H as s2 H2.
    apply IHf in H1. destruct H1 as (Ht & Hr).
    apply eat_whitespace_Return in H2. destruct H2 as (Ht1 & Hr1 & _).
    apply IHtl in H. destruct H as (Ht2 & Hr2).
    split; [congruence | lia]. }
  assert (Hel : forall node, consumes false (parse_expr_loop (S fuel) node)).
  { intros node self node' self' H. simpl in H.
    destruct (match_addop self) eqn:Em.
    - inv_bind H as [n1 s1] H1. apply IHel in H. destruct H as (Ht & Hr).
      apply parse_binop_Return in H1;
        [|exact IHt | now apply match_addop_not_EOF].
      destruct H1 as (Ht1 & Hr1). split; [congruence | lia].
    - injection H as <- <-. split; [reflexivity | lia]. }
  assert (Hex : consumes true (parse_expr (S fuel))).
  { intros self node self' H. simpl in H.
    inv_bind H as [n1 s1] H1. inv_bind H as s2 H2.
    apply IHt in H1. destruct H1 as (Ht & Hr).
    apply eat_whitespace_Return in H2. destruct H2 as (Ht1 & Hr1 & _).
    apply IHel in H. destruct H as (Ht2 & Hr2).
    split; [congruence | lia]. }
  exact (conj Hex (conj Hel (conj Htm (conj Htl Hf)))).
Qed.

Tactic Notation "oof_bind" hyp(H) "as" simple_intropattern(a) ident(Ha) :=
  apply bind_OutOfFuel_inv in H; destruct H as [H | (a & Ha & H)].

Lemma parse_binop_terminates fuel left callback self :
  name (current_token self) <> EOF ->
  remaining self <= fuel ->
  (forall self', remaining self' < remaining self ->
                 callback self' <> OutOfFuel) ->
  parse_binop fuel left callback self <> OutOfFuel.
Proof.
  intros Hk Hf Hc H. unfold parse_binop in H.
  oof_bind H as s1 H1; [now apply eat_terminates in H|].
  apply eat_Return in H1. destruct H1 as (_ & _ & Hr1). specialize (Hr1 Hk).
  oof_bind H as s2 H2.
  { apply eat_whitespace_terminates in H; [assumption | lia]. }
  apply eat_whitespace_Return in H2. destruct H2 as (_ & Hr2 & _).
  oof_bind H as [n3 s3] H3; [|discriminate].
  apply Hc in H; [assumption | lia].
Qed.

Lemma factor_cases_terminates fuel self :
  (forall self', 3 * remaining self' + 3 <= fuel ->
     parse_expr fuel self' <> OutOfFuel) ->
  (forall self', 3 * remaining self' + 1 <= fuel ->
     parse_factor fuel self' <> OutOfFuel) ->
  3 * remaining self <= fuel ->
  factor_cases fuel self <> OutOfFuel.
Proof.
  intros IHe IHf Hfuel H. unfold factor_cases in H.
  destruct (parse_consumes fuel) as (Ce & _).
  destruct (name (current_token self)) eqn:Ek; try discriminate.
  - oof_bind H as s1 H1; [now apply eat_terminates in H|].
    oof_bind H as n2 H2; [|discriminate].
    apply mkNumber_terminates in H; [assumption|].
    apply py_float_terminates.
  - oof_bind H as s1 H1; [now apply eat_terminates in H|].
    oof_bind H as n2 H2; [|discriminate].
    apply mkNumber_terminates in H; [assumption|].
    apply py_int_terminates.
  - oof_bind H as s1 H1; [now apply eat_terminates in H|].
    apply eat_Return in H1. destruct H1 as (_ & _ & Hr1).
    assert (remaining s1 < remaining self) by (apply Hr1; discriminate).
    oof_bind H as [n2 s2] H2; [|discriminate].
    apply IHf in H; [assumption | lia].
  - oof_bind H as s1 H1; [now apply eat_terminates in H|].
    apply eat_Return in H1. destruct H1 as (_ & _ & Hr1).
    assert (remaining s1 < remaining self) by (apply Hr1; discriminate).
    oof_bind H as s2 H2.
    { apply eat_whitespace_terminates in H; [assumption | lia]. }
    apply eat_whitespace_Return in H2. destruct H2 as (_ & Hr2 & _).
    oof_bind H as [n3 s3] H3.
    { apply IHe in H; [assumption | lia]. }
    apply Ce in H3. destruct H3 as (_ & Hr3).
    oof_bind H as s4 H4.
    { apply eat_whitespace_terminates in H; [assumption | lia]. }
    oof_bind H as s5 H5; [now apply eat_terminates in H|].
    discriminate.
Qed.

(** With fuel three times what is left to read (and a little more), no
    call runs out of fuel. *)
Lemma parse_terminates :
  forall fuel,
  (forall self, 3 * remaining self + 3 <= fuel ->
     parse_expr fuel self <> OutOfFuel)
  /\ (forall node self, 3 * remaining self + 2 <= fuel ->
     parse_expr_loop fuel node self <> OutOfFuel)
  /\ (forall self, 3 * remaining self + 2 <= fuel ->
     parse_term fuel self <> OutOfFuel)
  /\ (forall node self, 3 * remaining self + 1 <= fuel ->
     parse_term_loop fuel node self <> OutOfFuel)
  /\ (forall self, 3 * remaining self + 1 <= fuel ->
     parse_factor fuel self <> OutOfFuel).
Proof.
  induction fuel as [|fuel (IHe & IHel & IHt & IHtl & IHf)].
  { repeat split; intros; lia. }
  destruct (parse_consumes fuel) as (Ce & Cel & Ct & Ctl & Cf).
  assert (Hf : forall self, 3 * remaining self + 1 <= S fuel ->
                 parse_factor (S fuel) self <> OutOfFuel).
  { intros self Hfuel H. rewrite parse_factor_S in H.
    oof_bind H as [n0 s0] H0.
    - apply factor_cases_terminates in H; trivial. lia.
    - apply factor_cases_consumes in H0; trivial. destruct H0 as (_ & Hr0).
      oof_bind H as s9 H9; [|discriminate].
      apply eat_whitespace_terminates in H; [assumption | lia]. }
  assert (Htl : forall node self, 3 * remaining self + 1 <= S fuel ->
                 parse_term_loop (S fuel) node self <> OutOfFuel).
  { intros node self Hfuel H. simpl in H.
    destruct (match_multop self) eqn:Em; [|discriminate].
    apply match_multop_not_EOF in Em.
    oof_bind H as [n1 s1] H1.
    - apply parse_binop_terminates in H; [assumption|assumption|lia|].
      intros self' Hr. apply IHf. lia.
    - apply parse_binop_Return in H1; [|exact Cf|exact Em].
      apply IHtl in H; [assumption | lia]. }
  assert (Htm : forall self, 3 * remaining self + 2 <= S fuel ->
                 parse_term (S fuel) self <> OutOfFuel).
  { intros self Hfuel H. simpl in H.
    oof_bind H as [n1 s1] H1; [apply IHf in H; [assumption | lia]|].
    apply Cf in H1. destruct H1 as (_ & Hr1).
    oof_bind H as s2 H2.
    { apply eat_whitespace_terminates in H; [assumption | lia]. }
    apply eat_whitespace_Return in H2. destruct H2 as (_ & Hr2 & _).
    apply IHtl in H; [assumption | lia]. }
  assert (Hel : forall node self, 3 * remaining self + 2 <= S fuel ->
                 parse_expr_loop (S fuel) node self <> OutOfFuel).
  { intros node self Hfuel H. simpl in H.
    destruct (match_addop self) eqn:Em; [|discriminate].
    apply match_addop_not_EOF in Em.
    oof_bind H as [n1 s1] H1.
    - apply parse_binop_terminates in H; [assumption|assumption|lia|].
      intros self' Hr. apply IHt. lia.
    - apply parse_binop_Return in H1; [|exact Ct|exact Em].
      apply IHel in H; [assumption | lia]. }
  assert (Hex : forall self, 3 * remaining self + 3 <= S fuel ->
                 parse_expr (S fuel) self <> OutOfFuel).
  { intros self Hfuel H. simpl in H.
    oof_bind H as [n1 s1] H1; [apply IHt in H; [assumption | lia]|].
    apply Ct in H1. destruct H1 as (_ & Hr1).
    oof_bind H as s2 H2.
    { apply eat_whitespace_terminates in H; [assumption | lia]. }
    apply eat_whitespace_Return in H2. destruct H2 as (_ & Hr2 & _).
    apply IHel in H; [assumption | lia]. }
  exact (conj Hex (conj Hel (conj Htm (conj Htl Hf)))).
Qed.

(** [parse] and [evaluate] return or raise on every text. *)
Lemma parse_total text : parse text <> OutOfFuel.
Proof.
  unfold parse. intros H.
  oof_bind H as [tok g] H1; [now apply next_terminates in H|].
  apply next_Return in H1. destruct H1 as (_ & Ht & Hp & _).
  simpl in Ht, Hp.
  apply (parse_terminates (enough_fuel text)) in H; [assumption|].
  unfold remaining, enough_fuel; simpl. rewrite Ht.
  destruct (name tok); lia.
Qed.

Lemma visit_total node : visit node <> OutOfFuel.
Proof.
  induction node as [tok v|l IHl op r IHr|op e IHe]; simpl.
  - discriminate.
  - destruct (operators (name op)) as [f|] eqn:Ef; [|discriminate].
    destruct (visit l) as [x| |]; simpl; try congruence.
    destruct (visit r) as [y| |]; simpl; try congruence.
    destruct (name op); simpl in Ef; try discriminate;
      injection Ef as <-;
      destruct x as [a|a], y as [b|b]; simpl;
      unfold int_true_divide, float_of_int, float_div, finite_or_overflow;
      repeat match goal with
             | |- context [match ?x with _ => _ end] => destruct x; simpl
             end; discriminate.
  - destruct (visit e); simpl; congruence.
Qed.

Lemma evaluate_total text : evaluate text <> OutOfFuel.
Proof.
  unfold evaluate. intros H.
  oof_bind H as [tree self] H1; [now apply parse_total in H|].
  now apply visit_total in H.
Qed.

(** ** The evaluator *)

Lemma applies_visit node k x y :
  applies node k x y ->
  forall f, operators k = Some f ->
  forall e, f x y = Raise e -> visit node = Raise e.
Proof.
  induction 1 as [l op r f0 x y Hf Hl Hr
                 |l op r f0 k x y Hf Ha IH
                 |l op r f0 k x y x' Hf Hl Ha IH
                 |op e0 k x y Ha IH]; intros f Hk e He; simpl.
  - rewrite Hk, Hl, Hr. exact He.
  - rewrite Hf, (IH f Hk e He). reflexivity.
  - rewrite Hf, Hl, (IH f Hk e He). reflexivity.
  - rewrite (IH f Hk e He). reflexivity.
Qed.

Lemma float_div_zero a b :
  (b =? 0)%float = true -> float_div a b = Raise ZeroDivisionError.
Proof. unfold float_div. now intros ->. Qed.

(** Division by a zero raises: ZeroDivisionError, unless the conversion of
    an int dividend to float has raised OverflowError before the divisor
    is looked at. *)
Lemma py_truediv_zero x y :
  is_zero y = true ->
  py_truediv x y =
  Raise (if dividend_overflows x y then OverflowError
         else ZeroDivisionError).
Proof.
  destruct x as [a|a], y as [b|b]; simpl; intros Hz.
  - unfold int_true_divide. now rewrite Hz.
  - unfold float_of_int, finite_or_overflow.
    destruct (binary_normalize prec emax a 0 false); simpl;
      try rewrite (float_div_zero _ _ Hz); reflexivity.
  - apply Z.eqb_eq in Hz. subst b. vm_compute. reflexivity.
  - now rewrite (float_div_zero a _ Hz).
Qed.

(** An operation on an int and a float converts the int, and then is the
    operation on floats. *)
Lemma mixed_operation k f x y :
  operators k = Some f -> mixed x y = true ->
  match to_float x, to_float y with
  | Return a, Return b =>
      if TokenName_eqb k DIV && (b =? 0)%float
      then f x y = Raise ZeroDivisionError
      else exists r, f x y = Return (PyFloat r)
  | _, _ => f x y = Raise OverflowError
  end.
Proof.
  intros Hk Hm.
  assert (Hconv : forall a, float_of_int a = Raise OverflowError
                            \/ exists a', float_of_int a = Return a').
  { intros a. unfold float_of_int, finite_or_overflow.
    destruct (binary_normalize prec emax a 0 false); eauto. }
  destruct x as [a|a], y as [b|b]; try discriminate; simpl.
  - destruct (Hconv a) as [Ha|[a' Ha]]; rewrite Ha.
    + destruct k; try discriminate; injection Hk as <-; simpl;
        now rewrite Ha.
    + destruct k; try discriminate; injection Hk as <-; simpl;
        rewrite Ha; simpl; eauto.
      unfold float_div. destruct (b =? 0)%float; simpl; eauto.
  - destruct (Hconv b) as [Hb|[b' Hb]]; rewrite Hb.
    + destruct k; try discriminate; injection Hk as <-; simpl;
        now rewrite Hb.
    + destruct k; try discriminate; injection Hk as <-; simpl;
        rewrite Hb; simpl; eauto.
      unfold float_div. destruct (b' =? 0)%float; simpl; eauto.
Qed.

(** ** Tokenizer errors *)

Lemma next_Raise_reports g e :
  pos g <= length (text g) ->
  next lexer g = Raise e -> reports e (text g).
Proof.
  intros Hp H. apply next_Raise in H. destruct H as (Hm & [[-> _]|[-> Hne]]).
  - intros p n t'; discriminate.
  - intros p n t' [= <- <- <-]. repeat split; trivial. lia.
Qed.

Lemma eat_sound k : sound_call (fun self => self) (eat k).
Proof.
  intros self Hin. unfold eat.
  destruct (TokenName_eqb _ _); [|split; [discriminate|]].
  - destruct (next lexer (tokens self)) as [[tok g]|e|] eqn:En.
    + split; [|discriminate]. intros a [= <-].
      apply next_Return in En. unfold in_text; simpl.
      destruct En as (_ & -> & Hp & _). lia.
    + destruct e; (split; [try discriminate|]);
        try (intros a [= <-]; exact Hin);
        intros e [= <-];
        (eapply next_Raise_reports; [exact Hin | exact En]).
    + split; discriminate.
  - intros e [= <-] p n t'; discriminate.
Qed.

Lemma eat_whitespace_sound fuel :
  sound_call (fun self => self) (eat_whitespace fuel).
Proof.
  induction fuel as [|fuel IH]; intros self Hin; simpl.
  { split; discriminate. }
  destruct (TokenName_eqb _ _).
  - destruct (eat WHITESPACE self) as [s1|e|] eqn:He; simpl.
    + pose proof (eat_Return _ _ _ He) as (_ & Ht & _).
      apply (eat_sound _ _ Hin) in He. rewrite <- Ht. now apply IH.
    + split; [discriminate|]. intros e' [= <-].
      now apply (eat_sound WHITESPACE _ Hin).
    + split; discriminate.
  - split; [|discriminate]. now intros a [= <-].
Qed.

Lemma reports_other e t :
  (forall p n t', e <> TokenizerException p n t') -> reports e t.
Proof. intros H p n t' He. now apply H in He. Qed.

Lemma mkNumber_Raise token factory e t :
  (forall x e', factory x = Raise e' -> e' = ValueError) ->
  mkNumber token factory = Raise e -> reports e t.
Proof.
  intros Hf H. unfold mkNumber in H.
  destruct (value token) as [x|].
  - destruct (factory x) eqn:E; simpl in H; try discriminate.
    injection H as <-. apply Hf in E. subst. now apply reports_other.
  - injection H as <-. now apply reports_other.
Qed.

Lemma py_int_Raise x e : py_int x = Raise e -> e = ValueError.
Proof. unfold py_int. destruct (all_digits x); congruence. Qed.

Lemma py_float_Raise x e : py_float x = Raise e -> e = ValueError.
Proof.
  unfold py_float. destruct (skipn _ _) as [|c f]; [congruence|].
  destruct (Ascii.eqb c "."%char) eqn:E.
  - apply Ascii.eqb_eq in E. subst c. destruct (_ && _); congruence.
  - destruct c as [[] [] [] [] [] [] [] []]; try discriminate; congruence.
Qed.

(** Chaining calls that are sound and keep the text. *)
Lemma bind_sound {A B} (ra : A -> Parser) (rb : B -> Parser)
    (m : Parser -> outcome A) (k : A -> outcome B) self :
  in_text self ->
  sound_call ra m ->
  (forall a, m self = Return a ->
     text (tokens (ra a)) = text (tokens self)) ->
  (forall a, m self = Return a -> in_text (ra a) ->
     (forall b, k a = Return b -> in_text (rb b))
     /\ (forall e, k a = Raise e -> reports e (text (tokens (ra a))))) ->
  (forall b, bind (m self) k = Return b -> in_text (rb b))
  /\ (forall e, bind (m self) k = Raise e -> reports e (text (tokens self))).
Proof.
  intros Hin Hm Ht Hk. destruct (Hm self Hin) as (Hr & He).
  destruct (m self) as [a|e|]; simpl.
  - specialize (Hk a eq_refl (Hr a eq_refl)). rewrite <- (Ht a eq_refl).
    exact Hk.
  - split; [discriminate|]. intros e' [= <-]. now apply He.
  - split; discriminate.
Qed.

Lemma eat_text k self a :
  eat k self = Return a -> text (tokens a) = text (tokens self).
Proof. intros H. now apply eat_Return in H. Qed.

Lemma eat_whitespace_text fuel self a :
  eat_whitespace fuel self = Return a ->
  text (tokens a) = text (tokens self).
Proof. intros H. now apply eat_whitespace_Return in H. Qed.

Lemma consumes_text strictly call self (a : AbstractSyntaxTree * Parser) :
  consumes strictly call -> call self = Return a ->
  text (tokens (snd a)) = text (tokens self).
Proof. destruct a as [n s1]. intros Hc H. now apply Hc in H. Qed.

Lemma Return_sound {A} (r : A -> Parser) (a : A) t :
  in_text (r a) ->
  (forall b, Return a = Return b -> in_text (r b))
  /\ (forall e, @Return A a = Raise e -> reports e t).
Proof. intros Hin. split; [now intros b [= <-] | discriminate]. Qed.

Lemma parse_binop_sound fuel left callback :
  sound_call snd callback -> consumes true callback ->
  sound_call snd (parse_binop fuel left callback).
Proof.
  intros Hs Hc self Hin. unfold parse_binop.
  apply (bind_sound (fun self => self) snd); trivial.
  - apply eat_sound.
  - apply eat_text.
  - intros s1 H1 Hin1.
    apply (bind_sound (fun self => self) snd); trivial.
    + apply eat_whitespace_sound.
    + apply eat_whitespace_text.
    + intros s2 H2 Hin2.
      apply (bind_sound (snd) snd); trivial.
      * intros a. now apply consumes_text with (strictly := true).
      * intros [n3 s3] H3 Hin3. now apply Return_sound.
Qed.

Lemma factor_cases_sound fuel :
  sound_call snd (parse_expr fuel) -> sound_call snd (parse_factor fuel) ->
  sound_call snd (factor_cases fuel).
Proof.
  intros IHe IHf self Hin. unfold factor_cases.
  destruct (parse_consumes fuel) as (Ce & _ & _ & _ & Cf).
  destruct (name (current_token self)) eqn:Ek;
    try (split; [discriminate|]; intros e [= <-]; now apply reports_other).
  - apply (bind_sound (fun self => self) snd); trivial.
    + apply eat_sound.
    + apply eat_text.
    + intros s1 H1 Hin1.
      destruct (mkNumber _ _) as [n2|e|] eqn:E2; simpl.
      * now apply Return_sound.
      * split; [discriminate|]. intros e' [= <-].
        eapply mkNumber_Raise; [|exact E2]. apply py_float_Raise.
      * split; discriminate.
  - apply (bind_sound (fun self => self) snd); trivial.
    + apply eat_sound.
    + apply eat_text.
    + intros s1 H1 Hin1.
      destruct (mkNumber _ _) as [n2|e|] eqn:E2; simpl.
      * now apply Return_sound.
      * split; [discriminate|]. intros e' [= <-].
        eapply mkNumber_Raise; [|exact E2]. apply py_int_Raise.
      * split; discriminate.
  - apply (bind_sound (fun self => self) snd); trivial.
    + apply eat_sound.
    + apply eat_text.
    + intros s1 H1 Hin1.
      apply (bind_sound (snd) snd); trivial.
      * intros a. now apply consumes_text with (strictly := true).
      * intros [n2 s2] H2 Hin2. now apply Return_sound.
  - apply (bind_sound (fun self => self) snd); trivial.
    + apply eat_sound.
    + apply eat_text.
    + intros s1 H1 Hin1.
      apply (bind_sound (fun self => self) snd); trivial.
      * apply eat_whitespace_sound.
      * apply eat_whitespace_text.
      * intros s2 H2 Hin2.
        apply (bind_sound (snd) snd); trivial.
        -- intros a. now apply consumes_text with (strictly := true).
        -- intros [n3 s3] H3 Hin3.
           apply (bind_sound (fun self => self) snd); trivial.
           ++ apply eat_whitespace_sound.
           ++ apply eat_whitespace_text.
           ++ intros s4 H4 Hin4.
              apply (bind_sound (fun self => self) snd); trivial.
              ** apply eat_sound.
              ** apply eat_text.
              ** intros s5 H5 Hin5. now apply Return_sound.
Qed.

Lemma parse_sound fuel :
  sound_call snd (parse_expr fuel)
  /\ (forall node, sound_call snd (parse_expr_loop fuel node))
  /\ sound_call snd (parse_term fuel)
  /\ (forall node, sound_call snd (parse_term_loop fuel node))
  /\ sound_call snd (parse_factor fuel).
Proof.
  induction fuel as [|fuel (IHe & IHel & IHt & IHtl & IHf)].
  { repeat split; discriminate. }
  destruct (parse_consumes fuel) as (Ce & Cel & Ct & Ctl & Cf).
  assert (Hf : sound_call snd (parse_factor (S fuel))).
  { intros self Hin. rewrite parse_factor_S.
    apply (bind_sound (snd) snd); trivial.
    - now apply factor_cases_sound.
    - intros a. apply consumes_text with (strictly := true).
      now apply factor_cases_consumes.
    - intros [n0 s0] H0 Hin0.
      apply (bind_sound (fun self => self) snd); trivial.
      + apply eat_whitespace_sound.
      + apply eat_whitespace_text.
      + intros s9 H9 Hin9. now apply Return_sound. }
  assert (Htl : forall node, sound_call snd (parse_term_loop (S fuel) node)).
  { intros node self Hin. simpl.
    destruct (match_multop self) eqn:Em; [|now apply Return_sound].
    apply (bind_sound (snd) snd); trivial.
    - now apply parse_binop_sound.
    - intros [n1 s1] H1.
      apply parse_binop_Return in H1; trivial; [tauto|].
      now apply match_multop_not_EOF.
    - intros [n1 s1] H1 Hin1. now apply IHtl. }
  assert (Htm : sound_call snd (parse_term (S fuel))).
  { intros self Hin. simpl.
    apply (bind_sound (snd) snd); trivial.
    - intros a. now apply consumes_text with (strictly := true).
    - intros [n1 s1] H1 Hin1.
      apply (bind_sound (fun self => self) snd); trivial.
      + apply eat_whitespace_sound.
      + apply eat_whitespace_text.
      + intros s2 H2 Hin2. now apply IHtl. }
  assert (Hel : forall node, sound_call snd (parse_expr_loop (S fuel) node)).
  { intros node self Hin. simpl.
    destruct (match_addop self) eqn:Em; [|now apply Return_sound].
    apply (bind_sound (snd) snd); trivial.
    - now apply parse_binop_sound.
    - intros [n1 s1] H1.
      apply parse_binop_Return in H1; trivial; [tauto|].
      now apply match_addop_not_EOF.
    - intros [n1 s1] H1 Hin1. now apply IHel. }
  assert (Hex : sound_call snd (parse_expr (S fuel))).
  { intros self Hin. simpl.
    apply (bind_sound (snd) snd); trivial.
    - intros a. now apply consumes_text with (strictly := true).
    - intros [n1 s1] H1 Hin1.
      apply (bind_sound (fun self => self) snd); trivial.
      + apply eat_whitespace_sound.
      + apply eat_whitespace_text.
      + intros s2 H2 Hin2. now apply IHel. }
  exact (conj Hex (conj Hel (conj Htm (conj Htl Hf)))).
Qed.

(** A TokenizerException raised by [parse] carries the text, its length
    and a position where no pattern matches. *)
Lemma parse_Raise_reports text e : parse text = Raise e -> reports e text.
Proof.
  unfold parse. intros H. apply bind_Raise_inv in H.
  destruct H as [H | ([tok g] & H1 & H)].
  - apply next_Raise_reports in H; [exact H | simpl; lia].
  - apply next_Return in H1. destruct H1 as (_ & Ht & Hp & _).
    simpl in Ht, Hp.
    destruct (parse_sound (enough_fuel text)) as (He & _).
    apply He in H; [|unfold in_text; simpl; rewrite Ht; lia].
    simpl in H. now rewrite Ht in H.
Qed.

Lemma visit_Raise_reports node e t : visit node = Raise e -> reports e t.
Proof.
  intros H. apply reports_other. intros p n t' ->. revert H.
  induction node as [tok v|l IHl op r IHr|op e0 IHe]; simpl.
  - discriminate.
  - destruct (operators (name op)) as [f|] eqn:Ef; [|discriminate].
    destruct (visit l) as [x| |]; simpl; try discriminate; [|now auto].
    destruct (visit r) as [y| |]; simpl; try discriminate; [|now auto].
    destruct (name op); simpl in Ef; try discriminate;
      injection Ef as <-;
      destruct x as [a|a], y as [b|b]; simpl;
      unfold int_true_divide, float_of_int, float_div, finite_or_overflow;
      repeat match goal with
             | |- context [match ?x with _ => _ end] => destruct x; simpl
             end; discriminate.
  - destruct (visit e0); simpl; try discriminate. now auto.
Qed.

Lemma evaluate_Raise_reports text e :
  evaluate text = Raise e -> reports e text.
Proof.
  unfold evaluate. intros H. apply bind_Raise_inv in H.
  destruct H as [H | ([tree self] & H1 & H)].
  - now apply parse_Raise_reports.
  - now apply visit_Raise_reports with (node := tree).
Qed.

(** ** Tokens at a position *)

Ltac bits c := destruct c as [[] [] [] [] [] [] [] []].

Lemma digit_class c :
  is_digit c = true ->
  is_space c = false /\ punctuation c = None /\ Ascii.eqb c "." = false.
Proof. bits c; vm_compute; intros H; try discriminate H; auto. Qed.

Lemma space_class c :
  is_space c = true -> punctuation c = None /\ Ascii.eqb c "." = false.
Proof. bits c; vm_compute; intros H; try discriminate H; auto. Qed.

Lemma punctuation_class c k :
  punctuation c = Some k ->
  is_space c = false /\ is_digit c = false /\ Ascii.eqb c "." = false
  /\ k <> WHITESPACE /\ k <> EOF.
Proof.
  bits c; vm_compute; intros H; try discriminate H;
    injection H as <-; repeat split; discriminate.
Qed.

Lemma re_match_nil : re_match (lexemes lexer) [] = None.
Proof. reflexivity. Qed.

(** The token at a character, by the class of the character. *)
Lemma re_match_cons c rest :
  re_match (lexemes lexer) (c :: rest) =
  if is_digit c then
    match rest with
    | d :: rest' =>
        if Ascii.eqb d "." then
          match span is_digit rest' with
          | [] => Some (INTEGER, [c])
          | f => Some (FLOAT, c :: d :: f)
          end
        else Some (INTEGER, c :: span is_digit rest)
    | [] => Some (INTEGER, [c])
    end
  else if is_space c then Some (WHITESPACE, c :: span is_space rest)
  else match punctuation c with
       | Some k => Some (k, [c])
       | None => None
       end.
Proof.
  unfold lexer.
  cbn [lexemes re_match match_pattern accepts option_map span].
  change (accepts Digits) with is_digit.
  change (accepts Spaces) with is_space.
  destruct (is_digit c) eqn:Hd.
  - destruct rest as [|d rest'].
    + reflexivity.
    + destruct (Ascii.eqb d ".") eqn:Hdot.
      * destruct (span is_digit rest') as [|f0 f] eqn:Hs.
        -- apply Ascii.eqb_eq in Hdot. subst d.
           change (is_digit ".") with false. reflexivity.
        -- cbn. now rewrite app_nil_r.
      * cbn. now rewrite app_nil_r.
  - unfold punctuation.
    destruct (Ascii.eqb c "+") eqn:E1.
    { apply Ascii.eqb_eq in E1. subst c. reflexivity. }
    destruct (Ascii.eqb c "-") eqn:E2.
    { apply Ascii.eqb_eq in E2. subst c. reflexivity. }
    destruct (is_space c) eqn:Hsp.
    { cbn. now rewrite app_nil_r. }
    destruct (Ascii.eqb c "(") eqn:E3; [reflexivity|].
    destruct (Ascii.eqb c ")") eqn:E4; [reflexivity|].
    destruct (Ascii.eqb c "*") eqn:E5; [reflexivity|].
    destruct (Ascii.eqb c "/") eqn:E6; reflexivity.
Qed.

Lemma re_match_punctuation c k rest :
  punctuation c = Some k ->
  re_match (lexemes lexer) (c :: rest) = Some (k, [c]).
Proof.
  intros H. rewrite re_match_cons.
  destruct (punctuation_class _ _ H) as (-> & -> & _). now rewrite H.
Qed.

Lemma re_match_not_space c rest k v :
  is_space c = false ->
  re_match (lexemes lexer) (c :: rest) = Some (k, v) -> k <> WHITESPACE.
Proof.
  intros Hs. rewrite re_match_cons, Hs.
  destruct (is_digit c).
  - destruct rest as [|d rest']; [intros [= <- _]; discriminate|].
    destruct (Ascii.eqb d ".").
    + destruct (span is_digit rest'); intros [= <- _]; discriminate.
    + intros [= <- _]; discriminate.
  - destruct (punctuation c) as [k'|] eqn:Hp; [|discriminate].
    intros [= <- _]. now apply punctuation_class in Hp.
Qed.

Lemma span_all p d rest :
  forallb p d = true ->
  match rest with [] => true | c :: _ => negb (p c) end = true ->
  span p (d ++ rest) = d.
Proof.
  intros Hd Hr. induction d as [|c d IH]; simpl in *.
  - destruct rest as [|c rest]; [reflexivity|].
    simpl. now destruct (p c).
  - apply andb_prop in Hd. destruct Hd as (-> & Hd). f_equal. now apply IH.
Qed.

Lemma span_cons_true p c rest :
  p c = true -> span p (c :: rest) = c :: span p rest.
Proof. simpl. now intros ->. Qed.

Lemma span_app p d rest :
  forallb p d = true -> span p (d ++ rest) = d ++ span p rest.
Proof.
  intros Hd. induction d as [|c d IH]; simpl in *; [reflexivity|].
  apply andb_prop in Hd. destruct Hd as (-> & Hd). f_equal. now apply IH.
Qed.

Lemma span_rest p t :
  match skipn (length (span p t)) t with
  | [] => True
  | c :: _ => p c = false
  end.
Proof.
  induction t as [|c t IH]; simpl; [exact I|].
  destruct (p c) eqn:E; simpl; [rewrite skipn_cons; exact IH | exact E].
Qed.

Lemma all_digits_cons d :
  all_digits d = true ->
  exists c d', d = c :: d' /\ is_digit c = true /\ forallb is_digit d' = true.
Proof.
  destruct d as [|c d']; [discriminate|]. simpl. intros H.
  apply andb_prop in H. destruct H. eauto.
Qed.

Lemma all_digits_forallb d : all_digits d = true -> forallb is_digit d = true.
Proof. destruct d; [discriminate | trivial]. Qed.

Lemma ends_number_span rest :
  ends_number rest = true ->
  match rest with [] => true | c :: _ => negb (is_digit c) end = true.
Proof.
  destruct rest as [|c rest]; [trivial|]. simpl. intros H.
  apply andb_prop in H. tauto.
Qed.

(** An INTEGER: digits, then something that does not continue a number. *)
Lemma re_match_INTEGER d rest :
  all_digits d = true -> ends_number rest = true ->
  re_match (lexemes lexer) (d ++ rest) = Some (INTEGER, d).
Proof.
  intros Hd Hr. destruct (all_digits_cons _ Hd) as (c & d' & -> & Hc & Hd').
  rewrite <- app_comm_cons, re_match_cons, Hc.
  pose proof (span_all is_digit d' rest Hd' (ends_number_span _ Hr)) as Hs.
  destruct d' as [|c2 d'']; simpl in *.
  - destruct rest as [|c2 rest']; [reflexivity|].
    simpl in Hr. apply andb_prop in Hr. destruct Hr as (Hr1 & Hr2).
    apply negb_true_iff in Hr1, Hr2. rewrite Hr2.
    simpl. now rewrite Hr1.
  - apply andb_prop in Hd'. destruct Hd' as (Hc2 & Hd'').
    destruct (digit_class _ Hc2) as (_ & _ & ->).
    rewrite Hc2 in *. now rewrite Hs.
Qed.

(** A FLOAT: a digit, a dot, digits, then not a digit. *)
Lemma re_match_FLOAT c f rest :
  is_digit c = true -> all_digits f = true -> ends_number rest = true ->
  re_match (lexemes lexer) (c :: "."%char :: f ++ rest)
  = Some (FLOAT, c :: "."%char :: f).
Proof.
  intros Hc Hf Hr. rewrite re_match_cons, Hc.
  change (Ascii.eqb "." ".") with true. cbv iota.
  rewrite (span_all is_digit f rest (all_digits_forallb _ Hf)
             (ends_number_span _ Hr)).
  destruct f; [discriminate | reflexivity].
Qed.

(** ** The lookahead of the parser *)

Lemma at_pos_app txt p a b :
  at_pos txt p (a ++ b) -> at_pos txt (p + length a) b.
Proof.
  intros (Hp & Hs). unfold at_pos.
  assert (Hl : length (skipn p txt) = length a + length b)
    by (rewrite Hs; apply length_app).
  rewrite length_skipn in Hl. split; [lia|].
  rewrite Nat.add_comm, <- skipn_skipn, Hs, skipn_app, Nat.sub_diag.
  now rewrite skipn_all, skipn_O.
Qed.

Lemma at_pos_cons txt p c b :
  at_pos txt p (c :: b) -> at_pos txt (p + 1) b.
Proof. intros H. now apply (at_pos_app txt p [c] b). Qed.

Lemma at_pos_le txt p rest : at_pos txt p rest -> p <= length txt.
Proof. now intros (H & _). Qed.

Lemma at_pos_end txt p : at_pos txt p [] -> p = length txt.
Proof.
  intros (Hp & Hs). apply (f_equal (@length ascii)) in Hs.
  rewrite length_skipn in Hs. simpl in Hs. lia.
Qed.

Lemma at_pos_lt txt p c rest : at_pos txt p (c :: rest) -> p < length txt.
Proof.
  intros (Hp & Hs). apply (f_equal (@length ascii)) in Hs.
  rewrite length_skipn in Hs. simpl in Hs. lia.
Qed.

Lemma pull_terminates g : pull g <> OutOfFuel.
Proof.
  unfold pull. pose proof (next_terminates g) as H.
  destruct (next lexer g) as [[tok g']|[]|]; congruence.
Qed.

Lemma eat_pull k self :
  name (current_token self) = k -> eat k self = pull (tokens self).
Proof.
  intros H. unfold eat, pull.
  apply TokenName_eqb_eq in H. now rewrite H.
Qed.

Lemma next_at t p :
  next lexer (mkGenerator t p) =
  match re_match (lexemes lexer) (skipn p t) with
  | Some (k, v) => Return (mkToken k (Some v), mkGenerator t (p + length v))
  | None => if p =? length t then Raise StopIteration
            else Raise (TokenizerException p (length t) t)
  end.
Proof. reflexivity. Qed.

Lemma pull_token txt p c rest k v :
  at_pos txt p (c :: rest) ->
  re_match (lexemes lexer) (c :: rest) = Some (k, v) ->
  pull (mkGenerator txt p)
  = Return (mkParser (mkToken k (Some v)) (mkGenerator txt (p + length v))).
Proof.
  intros (_ & Hs) Hm. unfold pull. now rewrite next_at, Hs, Hm.
Qed.

Lemma pull_end txt p :
  at_pos txt p [] ->
  pull (mkGenerator txt p)
  = Return (mkParser (mkToken EOF None) (mkGenerator txt p)).
Proof.
  intros H. pose proof (at_pos_end _ _ H) as Hp. destruct H as (_ & Hs).
  unfold pull. rewrite next_at, Hs, re_match_nil.
  apply Nat.eqb_eq in Hp. now rewrite Hp.
Qed.

Lemma pull_Return g self :
  pos g <= length (text g) ->
  pull g = Return self ->
  text (tokens self) = text g /\ in_text self.
Proof.
  intros Hp. unfold pull.
  destruct (next lexer g) as [[tok g']|e|] eqn:En.
  - intros [= <-]. apply next_Return in En.
    destruct En as (_ & Ht & Hp' & _). unfold in_text. simpl.
    rewrite Ht. split; [reflexivity | lia].
  - destruct e; try discriminate. intros [= <-]. now split.
  - discriminate.
Qed.

(** The lookahead is the token at the end of the whitespace. *)
Lemma advance_eq txt p :
  p <= length txt ->
  advance txt p
  = pull (mkGenerator txt (p + length (span is_space (skipn p txt)))).
Proof.
  intros Hp. unfold advance.
  destruct (skipn p txt) as [|c rest] eqn:Hs.
  - simpl. rewrite Nat.add_0_r, (pull_end txt p); [reflexivity|].
    now split.
  - assert (Hat : at_pos txt p (c :: rest)) by now split.
    destruct (is_space c) eqn:Hc.
    + rewrite (span_cons_true is_space c rest Hc).
      rewrite (pull_token _ _ _ _ WHITESPACE (c :: span is_space rest) Hat);
        [reflexivity|].
      rewrite re_match_cons, Hc.
      destruct (is_digit c) eqn:Hd; [|reflexivity].
      apply digit_class in Hd. destruct Hd as (Hd & _). congruence.
    + simpl. rewrite Hc. simpl. rewrite Nat.add_0_r.
      unfold pull. rewrite next_at, Hs.
      destruct (re_match _ _) as [[k v]|] eqn:Hm.
      * apply re_match_not_space in Hm; trivial.
        apply TokenName_eqb_neq in Hm. simpl. now rewrite Hm.
      * destruct (p =? length txt); reflexivity.
Qed.

Lemma advance_spaces txt p w rest :
  forallb is_space w = true -> at_pos txt p (w ++ rest) ->
  advance txt (p + length w) = advance txt p.
Proof.
  intros Hw Hat. pose proof (at_pos_app _ _ _ _ Hat) as Hat'.
  rewrite !advance_eq by (eapply at_pos_le; eassumption).
  destruct Hat as (_ & ->). destruct Hat' as (_ & ->).
  rewrite (span_app _ _ rest Hw), length_app. f_equal. f_equal. lia.
Qed.

Lemma advance_token txt p c rest k v :
  at_pos txt p (c :: rest) -> is_space c = false ->
  re_match (lexemes lexer) (c :: rest) = Some (k, v) ->
  advance txt p
  = Return (mkParser (mkToken k (Some v)) (mkGenerator txt (p + length v))).
Proof.
  intros Hat Hc Hm. rewrite advance_eq by (eapply at_pos_le; eassumption).
  destruct Hat as (Hp & Hs). rewrite Hs. simpl. rewrite Hc. simpl.
  rewrite Nat.add_0_r. apply pull_token with (c := c) (rest := rest);
    [now split | exact Hm].
Qed.

Lemma advance_end txt p :
  at_pos txt p [] ->
  advance txt p
  = Return (mkParser (mkToken EOF None) (mkGenerator txt p)).
Proof.
  intros Hat. rewrite advance_eq by (eapply at_pos_le; eassumption).
  destruct Hat as (Hp & Hs). rewrite Hs. simpl. rewrite Nat.add_0_r.
  apply pull_end. now split.
Qed.

Lemma advance_terminates txt p : advance txt p <> OutOfFuel.
Proof.
  unfold advance. intros H.
  apply bind_OutOfFuel_inv in H. destruct H as [H | (a & Ha & H)].
  - now apply pull_terminates in H.
  - destruct (TokenName_eqb _ _); [now apply pull_terminates in H|].
    discriminate.
Qed.

(** After [advance], the lookahead is not whitespace, and the generator
    reads the same txt. *)
Lemma advance_Return txt p self :
  p <= length txt ->
  advance txt p = Return self ->
  name (current_token self) <> WHITESPACE
  /\ text (tokens self) = txt /\ in_text self.
Proof.
  intros Hp H. rewrite advance_eq in H by assumption.
  set (q := p + length (span is_space (skipn p txt))) in *.
  assert (Hq : skipn q txt
               = skipn (length (span is_space (skipn p txt))) (skipn p txt))
    by (unfold q; now rewrite skipn_skipn, Nat.add_comm).
  pose proof (span_rest is_space (skipn p txt)) as Hr.
  rewrite <- Hq in Hr.
  assert (Hql : q <= length txt).
  { pose proof (span_prefix is_space (skipn p txt)) as Hpre.
    apply (f_equal (@length ascii)) in Hpre.
    rewrite length_app, !length_skipn in Hpre. unfold q. lia. }
  split.
  - unfold pull in H. rewrite next_at in H.
    destruct (skipn q txt) as [|c rest] eqn:Hs.
    + rewrite re_match_nil in H.
      destruct (q =? length txt); [|discriminate].
      injection H as <-. discriminate.
    + destruct (re_match _ _) as [[k v]|] eqn:Hm.
      * injection H as <-. simpl. eapply re_match_not_space; eassumption.
      * destruct (q =? length txt); [|discriminate].
        injection H as <-. discriminate.
  - apply pull_Return in H; [exact H | exact Hql].
Qed.

Lemma agrees_refl {A} (o : outcome A) : agrees o o.
Proof. now right. Qed.

Lemma agrees_bind {A B} (m m' : outcome A) (k : A -> outcome B) o :
  agrees m m' -> agrees (bind m' k) o -> agrees (bind m k) o.
Proof.
  intros [->| ->] H; [now left | exact H].
Qed.

Lemma agrees_terminates {A} (o o' : outcome A) :
  agrees o o' -> o <> OutOfFuel -> o = o'.
Proof. intros [H|H] Hn; [contradiction | exact H]. Qed.

Lemma eat_whitespace_advanced fuel txt p self :
  p <= length txt -> advance txt p = Return self ->
  agrees (eat_whitespace fuel self) (Return self).
Proof.
  intros Hp H. apply advance_Return in H; trivial. destruct H as (Hn & _).
  destruct fuel as [|fuel]; [now left|]. right. simpl.
  apply TokenName_eqb_neq in Hn. now rewrite Hn.
Qed.

(** Taking a token and eating whitespace is [advance]. *)
Lemma pull_eat_whitespace fuel txt q :
  q <= length txt ->
  agrees (self <- pull (mkGenerator txt q);; eat_whitespace fuel self)
         (advance txt q).
Proof.
  intros Hq.
  destruct (pull (mkGenerator txt q)) as [s1|e|] eqn:Hpull; simpl.
  - destruct fuel as [|fuel]; [now left|]. simpl.
    unfold advance. rewrite Hpull. simpl.
    destruct (TokenName_eqb _ _) eqn:Hk; [|now right].
    rewrite (eat_pull WHITESPACE s1) by now apply TokenName_eqb_eq.
    destruct (pull (tokens s1)) as [s2|e|] eqn:Hp2; simpl;
      [|now right|now right].
    apply (eat_whitespace_advanced fuel txt q); trivial.
    unfold advance. rewrite Hpull. simpl. now rewrite Hk.
  - right. unfold advance. now rewrite Hpull.
  - now apply pull_terminates in Hpull.
Qed.

(** ** The parser on the expressions of the grammar *)

Lemma multop_punctuation c k :
  Grammar.multop c = Some k ->
  punctuation c = Some k /\ (k = MUL \/ k = DIV).
Proof.
  unfold Grammar.multop.
  destruct (Ascii.eqb c "*") eqn:E1.
  { apply Ascii.eqb_eq in E1. subst c. intros [= <-]. auto. }
  destruct (Ascii.eqb c "/") eqn:E2; [|discriminate].
  apply Ascii.eqb_eq in E2. subst c. intros [= <-]. auto.
Qed.

Lemma addop_punctuation c k :
  Grammar.addop c = Some k ->
  punctuation c = Some k /\ (k = PLUS \/ k = MINUS).
Proof.
  unfold Grammar.addop.
  destruct (Ascii.eqb c "+") eqn:E1.
  { apply Ascii.eqb_eq in E1. subst c. intros [= <-]. auto. }
  destruct (Ascii.eqb c "-") eqn:E2; [|discriminate].
  apply Ascii.eqb_eq in E2. subst c. intros [= <-]. auto.
Qed.

Lemma factor_starts x t :
  Grammar.factor x t ->
  exists c x', x = c :: x' /\ starts_factor c = true.
Proof.
  induction 1 as [x t _ _|d v Hd _|c f v Hc _ _|w1 e t w2 _ _ _
                 |x t w _ (c & x' & -> & Hc) _].
  - now exists "-"%char, x.
  - destruct (all_digits_cons _ Hd) as (c & d' & -> & Hc & _).
    exists c, d'. split; trivial. unfold starts_factor. now rewrite Hc.
  - exists c, ("."%char :: f). split; trivial.
    unfold starts_factor. now rewrite Hc.
  - now eexists "("%char, _.
  - exists c, (x' ++ w). now split.
Qed.

Lemma term_starts x t :
  Grammar.term x t ->
  exists c x', x = c :: x' /\ starts_factor c = true.
Proof.
  intros H. destruct H as [x t rest r Hf _].
  apply factor_starts in Hf. destruct Hf as (c & x' & -> & Hc).
  exists c, (x' ++ rest). now split.
Qed.

Lemma expr_starts x t :
  Grammar.expr x t ->
  exists c x', x = c :: x' /\ starts_factor c = true.
Proof.
  intros H. destruct H as [x t rest r Hf _].
  apply term_starts in Hf. destruct Hf as (c & x' & -> & Hc).
  exists c, (x' ++ rest). now split.
Qed.

Lemma starts_factor_token c rest :
  starts_factor c = true ->
  is_space c = false
  /\ exists k v, re_match (lexemes lexer) (c :: rest) = Some (k, v).
Proof.
  unfold starts_factor. intros H.
  destruct (is_digit c) eqn:Hd.
  - destruct (digit_class _ Hd) as (Hs & _). split; trivial.
    rewrite re_match_cons, Hd.
    destruct rest as [|d rest']; [eauto|].
    destruct (Ascii.eqb d "."); [|eauto].
    destruct (span is_digit rest'); eauto.
  - assert (Hp : exists k, punctuation c = Some k).
    { simpl in H. apply orb_prop in H. destruct H as [H|H];
        apply Ascii.eqb_eq in H; subst c; eexists; reflexivity. }
    destruct Hp as (k & Hp). split; [now apply punctuation_class in Hp|].
    rewrite (re_match_punctuation _ _ rest Hp). eauto.
Qed.

(** At the start of a factor the parser has a lookahead. *)
Lemma advance_starts_factor txt p c rest :
  at_pos txt p (c :: rest) -> starts_factor c = true ->
  exists self, advance txt p = Return self.
Proof.
  intros Hat Hc. destruct (starts_factor_token _ rest Hc) as (Hs & k & v & Hm).
  rewrite (advance_token _ _ _ _ _ _ Hat Hs Hm). eauto.
Qed.

(** At an operator, after whitespace, the lookahead is the operator. *)
Lemma advance_punctuation txt p w c k rest :
  at_pos txt p (w ++ c :: rest) -> Grammar.whitespace w ->
  punctuation c = Some k ->
  advance txt p
  = Return (mkParser (mkToken k (Some [c]))
                     (mkGenerator txt (p + length w + 1))).
Proof.
  intros Hat Hw Hp. rewrite <- (advance_spaces _ _ _ _ Hw Hat).
  apply at_pos_app in Hat.
  apply (advance_token _ _ _ _ k [c] Hat); [now apply punctuation_class in Hp|].
  now apply re_match_punctuation.
Qed.

Lemma ends_number_operator w c k rest :
  Grammar.whitespace w -> punctuation c = Some k ->
  ends_number (w ++ c :: rest) = true.
Proof.
  intros Hw Hp. destruct w as [|s w]; simpl.
  - destruct (punctuation_class _ _ Hp) as (_ & -> & -> & _). reflexivity.
  - unfold Grammar.whitespace in Hw. simpl in Hw.
    apply andb_prop in Hw. destruct Hw as (Hs & _).
    destruct (space_class _ Hs) as (_ & ->).
    destruct (is_digit s) eqn:Hd; [|reflexivity].
    apply digit_class in Hd. destruct Hd as (Hd & _). congruence.
Qed.

Lemma bind_assoc {A B C} (m : outcome A) (f : A -> outcome B)
    (g : B -> outcome C) :
  bind (bind m f) g = bind m (fun a => bind (f a) g).
Proof. now destruct m. Qed.

(** [eat], then [eat_whitespace], is [advance] at the generator's
    position. *)
Lemma eat_then_whitespace {A} k fuel self txt q (cont : Parser -> outcome A)
    o :
  name (current_token self) = k ->
  tokens self = mkGenerator txt q -> q <= length txt ->
  agrees (self' <- advance txt q;; cont self') o ->
  agrees (self1 <- eat k self;; self2 <- eat_whitespace fuel self1;;
          cont self2) o.
Proof.
  intros Hk Hg Hq H. rewrite (eat_pull _ _ Hk), Hg.
  destruct (pull (mkGenerator txt q)) as [s1|e|] eqn:Hpull; simpl.
  - pose proof (pull_eat_whitespace fuel _ _ Hq) as Hpe.
    rewrite Hpull in Hpe. simpl in Hpe.
    eapply agrees_bind; eassumption.
  - unfold advance in H. now rewrite Hpull in H.
  - now apply pull_terminates in Hpull.
Qed.

(** [eat_whitespace] where the whitespace has been skipped. *)
Lemma whitespace_skipped {A} fuel self txt q (cont : Parser -> outcome A) o :
  q <= length txt -> advance txt q = Return self ->
  agrees (cont self) o ->
  agrees (self' <- eat_whitespace fuel self;; cont self') o.
Proof.
  intros Hq Ha H.
  eapply agrees_bind; [eapply eat_whitespace_advanced; eassumption|].
  exact H.
Qed.

Lemma agrees_trans {A} (a b c : outcome A) :
  agrees a b -> agrees b c -> agrees a c.
Proof. intros [->| ->] H; [now left | exact H]. Qed.

Lemma agrees_after_advance {A} txt q (k k' : Parser -> outcome A) :
  (forall self, advance txt q = Return self -> agrees (k self) (k' self)) ->
  agrees (bind (advance txt q) k) (bind (advance txt q) k').
Proof.
  intros H. destruct (advance txt q) as [self|e|]; simpl;
    [now apply H | now right | now right].
Qed.

(** A token that is not whitespace is the lookahead at its position. *)
Lemma pull_advance txt q c rest :
  at_pos txt q (c :: rest) -> is_space c = false ->
  pull (mkGenerator txt q) = advance txt q.
Proof.
  intros Hat Hc. rewrite advance_eq by (eapply at_pos_le; eassumption).
  destruct Hat as (_ & ->). simpl. rewrite Hc. simpl.
  now rewrite Nat.add_0_r.
Qed.

Lemma factor_MINUS_parses x t :
  Grammar.factor x t -> factor_parses x t ->
  factor_parses ("-"%char :: x) (UnaryOp (mkToken MINUS (Some ["-"%char])) t).
Proof.
  intros Hx IH fuel txt p rest Hat Hen self Hself.
  rewrite <- app_comm_cons in Hat.
  rewrite (advance_token _ _ _ _ MINUS ["-"%char] Hat eq_refl eq_refl) in Hself.
  injection Hself as <-.
  destruct fuel as [|fuel]; [now left|].
  rewrite parse_factor_S. unfold factor_cases. cbn [current_token name].
  rewrite eat_pull by reflexivity. cbn [tokens].
  apply at_pos_cons in Hat. cbn [length] in *.
  destruct (factor_starts _ _ Hx) as (c & x' & Ex & Hc).
  pose proof Hat as Hat'. rewrite Ex, <- app_comm_cons in Hat'.
  rewrite (pull_advance _ _ _ _ Hat' (proj1 (starts_factor_token _ (x' ++ rest) Hc))).
  destruct (advance_starts_factor _ _ _ _ Hat' Hc) as (s1 & Hs1).
  rewrite Hs1. cbn [bind].
  rewrite !bind_assoc.
  eapply agrees_bind; [exact (IH fuel txt (p + 1) rest Hat Hen s1 Hs1)|].
  rewrite bind_assoc. cbn [bind].
  replace (p + S (length x)) with (p + 1 + length x) by lia.
  apply agrees_after_advance. intros s2 Hs2.
  apply (whitespace_skipped fuel s2 txt (p + 1 + length x));
    [|exact Hs2|apply agrees_refl].
  apply at_pos_app in Hat. eapply at_pos_le; eassumption.
Qed.
Lemma factor_INTEGER_parses d v :
  all_digits d = true -> py_int d = Return v ->
  factor_parses d (Number (mkToken INTEGER (Some d)) v).
Proof.
  intros Hd Hv fuel txt p rest Hat Hen self Hself.
  destruct (all_digits_cons _ Hd) as (c & d' & Ed & Hc & Hd').
  assert (Hm := re_match_INTEGER d rest Hd Hen).
  rewrite Ed in Hat, Hm. rewrite <- app_comm_cons in Hat, Hm.
  rewrite (advance_token _ _ _ _ _ _ Hat (proj1 (digit_class _ Hc)) Hm) in Hself.
  rewrite <- Ed in *. injection Hself as <-.
  destruct fuel as [|fuel]; [now left|].
  rewrite parse_factor_S. unfold factor_cases. cbn [current_token name].
  rewrite !bind_assoc. unfold mkNumber. cbn [value]. rewrite Hv. cbn [bind].
  apply (eat_then_whitespace INTEGER fuel _ txt (p + length d));
    [reflexivity | reflexivity | | apply agrees_refl].
  apply at_pos_le with (rest := rest).
  apply at_pos_app. now rewrite Ed, <- app_comm_cons.
Qed.


Lemma factor_FLOAT_parses c f v :
  is_digit c = true -> all_digits f = true ->
  py_float (c :: "."%char :: f) = Return v ->
  factor_parses (c :: "."%char :: f)
    (Number (mkToken FLOAT (Some (c :: "."%char :: f))) v).
Proof.
  intros Hc Hf Hv fuel txt p rest Hat Hen self Hself.
  assert (Hm := re_match_FLOAT c f rest Hc Hf Hen).
  rewrite <- !app_comm_cons in Hat.
  rewrite (advance_token _ _ _ _ _ _ Hat (proj1 (digit_class _ Hc)) Hm)
    in Hself.
  injection Hself as <-.
  destruct fuel as [|fuel]; [now left|].
  rewrite parse_factor_S. unfold factor_cases. cbn [current_token name].
  rewrite !bind_assoc. unfold mkNumber. cbn [value]. rewrite Hv. cbn [bind].
  apply (eat_then_whitespace FLOAT fuel _ txt
           (p + length (c :: "."%char :: f)));
    [reflexivity | reflexivity | | apply agrees_refl].
  apply at_pos_le with (rest := rest).
  now apply (at_pos_app txt p (c :: "."%char :: f) rest).
Qed.

Lemma ends_number_whitespace w rest :
  Grammar.whitespace w -> ends_number rest = true ->
  ends_number (w ++ rest) = true.
Proof.
  intros Hw Hr. destruct w as [|s w]; [exact Hr|]. simpl.
  unfold Grammar.whitespace in Hw. simpl in Hw.
  apply andb_prop in Hw. destruct Hw as (Hs & _).
  destruct (space_class _ Hs) as (_ & ->).
  destruct (is_digit s) eqn:Hd; [|reflexivity].
  apply digit_class in Hd. destruct Hd as (Hd & _). congruence.
Qed.

Lemma factor_WHITESPACE_parses x t w :
  factor_parses x t -> Grammar.whitespace w -> factor_parses (x ++ w) t.
Proof.
  intros IH Hw fuel txt p rest Hat Hen self Hself.
  rewrite <- app_assoc in Hat.
  pose proof (IH fuel txt p (w ++ rest) Hat
                (ends_number_whitespace _ _ Hw Hen) self Hself) as H.
  apply at_pos_app in Hat.
  rewrite <- (advance_spaces _ _ _ _ Hw Hat) in H.
  now rewrite length_app, Nat.add_assoc.
Qed.

(** [eat] and [eat_whitespace] bring the parser to the next token that is
    not whitespace. *)
Lemma eat_to_lookahead k fuel self txt q self2 :
  name (current_token self) = k ->
  tokens self = mkGenerator txt q -> q <= length txt ->
  advance txt q = Return self2 ->
  exists self1, eat k self = Return self1
                /\ agrees (eat_whitespace fuel self1) (Return self2).
Proof.
  intros Hk Hg Hq Ha. rewrite (eat_pull _ _ Hk), Hg.
  pose proof (pull_eat_whitespace fuel _ _ Hq) as Hpe.
  destruct (pull (mkGenerator txt q)) as [s1|e|] eqn:Hpull.
  - exists s1. split; trivial. simpl in Hpe. now rewrite Ha in Hpe.
  - unfold advance in Ha. rewrite Hpull in Ha. discriminate.
  - now apply pull_terminates in Hpull.
Qed.

Lemma stops_at_punctuation txt q w c k rest :
  at_pos txt q (w ++ c :: rest) -> Grammar.whitespace w ->
  punctuation c = Some k ->
  forall m a : bool,
  (m = true -> k <> MUL /\ k <> DIV) ->
  (a = true -> k <> PLUS /\ k <> MINUS) ->
  stops m a txt q.
Proof.
  intros Hat Hw Hp m a Hm Ha self Hself.
  rewrite (advance_punctuation _ _ _ _ _ _ Hat Hw Hp) in Hself.
  injection Hself as <-. unfold match_multop, match_addop. simpl.
  split; intros E; [apply Hm in E | apply Ha in E];
    destruct k; tauto.
Qed.

Lemma factor_LPAREN_parses w1 e t w2 :
  Grammar.whitespace w1 -> Grammar.expr e t ->
  reads true true parse_expr e t ->
  Grammar.whitespace w2 ->
  factor_parses ("("%char :: w1 ++ e ++ w2 ++ [")"%char]) t.
Proof.
  intros Hw1 He IH Hw2 fuel txt p rest Hat Hen self Hself.
  rewrite <- app_comm_cons in Hat. rewrite <- !app_assoc in Hat.
  rewrite <- app_comm_cons in Hat. cbn [app] in Hat.
  rewrite (advance_token _ _ _ _ LPAREN ["("%char] Hat eq_refl eq_refl)
    in Hself.
  injection Hself as <-.
  destruct fuel as [|fuel]; [now left|].
  rewrite parse_factor_S. unfold factor_cases. cbn [current_token name].
  (* positions *)
  apply at_pos_cons in Hat. cbn [length] in *.
  pose proof (at_pos_app _ _ _ _ Hat) as Hat2.
  pose proof (at_pos_app _ _ _ _ Hat2) as Hat3.
  pose proof (at_pos_app _ _ _ _ Hat3) as Hat4.
  pose proof (at_pos_cons _ _ _ _ Hat4) as Hat5.
  set (q1 := p + 1) in *.
  set (q2 := q1 + length w1) in *.
  set (q3 := q2 + length e) in *.
  set (q4 := q3 + length w2) in *.
  (* the lookahead at the expression *)
  destruct (expr_starts _ _ He) as (c & e' & Ee & Hc).
  pose proof Hat2 as Hat2'. rewrite Ee, <- app_comm_cons in Hat2'.
  destruct (advance_starts_factor _ _ _ _ Hat2' Hc) as (s2 & Hs2).
  pose proof Hs2 as Hs1. unfold q2 in Hs1.
  rewrite (advance_spaces _ _ _ _ Hw1 Hat) in Hs1.
  match goal with
  | |- context [eat LPAREN ?s] =>
      destruct (eat_to_lookahead LPAREN fuel s txt q1 s2
                  eq_refl eq_refl (at_pos_le _ _ _ Hat) Hs1)
        as (s1 & Heat & Hws)
  end.
  rewrite Heat. cbn [bind].
  rewrite !bind_assoc. eapply agrees_bind; [exact Hws|]. cbn [bind].
  (* the expression *)
  assert (Hstop : stops true true txt q3).
  { apply (stops_at_punctuation txt q3 w2 ")"%char RPAREN rest Hat3 Hw2
             eq_refl); intros _; split; discriminate. }
  pose proof (IH fuel txt q2 (w2 ++ ")"%char :: rest) Hat2
                (ends_number_operator w2 ")"%char RPAREN rest Hw2 eq_refl)
                Hstop s2 Hs2) as Hexpr.
  fold q3 in Hexpr.
  rewrite (advance_punctuation _ _ _ _ _ _ Hat3 Hw2 eq_refl) in Hexpr.
  fold q4 in Hexpr. cbn [bind] in Hexpr.
  rewrite !bind_assoc. eapply agrees_bind; [exact Hexpr|]. cbn [bind].
  (* the closing parenthesis *)
  rewrite !bind_assoc.
  eapply agrees_bind.
  { apply (eat_whitespace_advanced fuel txt q3); [exact (at_pos_le _ _ _ Hat3)|].
    apply (advance_punctuation _ _ _ _ _ _ Hat3 Hw2 eq_refl). }
  cbn [bind]. rewrite !bind_assoc. cbn [bind].
  apply (eat_then_whitespace RPAREN fuel _ txt (q4 + 1));
    [reflexivity | reflexivity | exact (at_pos_le _ _ _ Hat5) |].
  replace (p + S (length (w1 ++ e ++ w2 ++ [")"%char]))) with (q4 + 1).
  - apply agrees_refl.
  - unfold q4, q3, q2, q1. rewrite !length_app. simpl. lia.
Qed.

Lemma stops_weaken m a m' a' txt q :
  (m' = true -> m = true) -> (a' = true -> a = true) ->
  stops m a txt q -> stops m' a' txt q.
Proof.
  intros Hm Ha H self Hself. destruct (H self Hself) as (H1 & H2).
  split; auto.
Qed.

(** The loops of parse_term and parse_expr, and the functions themselves,
    have the same shape: they are studied once. *)
Section Repetition.

Variables m a mo ao : bool.
Variable opclass : ascii -> option TokenName.
Variable matchop : Parser -> bool.
Variable operand : nat -> Parser -> outcome (AbstractSyntaxTree * Parser).
Variable loop :
  nat -> AbstractSyntaxTree -> Parser ->
  outcome (AbstractSyntaxTree * Parser).
Variable top : nat -> Parser -> outcome (AbstractSyntaxTree * Parser).

Hypothesis loop_O : forall l self, loop 0 l self = OutOfFuel.
Hypothesis loop_S : forall fuel l self,
  loop (S fuel) l self =
  if matchop self then
    '(node, self) <- parse_binop fuel l (operand fuel) self;;
    loop fuel node self
  else Return (l, self).
Hypothesis top_O : forall self, top 0 self = OutOfFuel.
Hypothesis top_S : forall fuel self,
  top (S fuel) self =
  ('(node, self) <- operand fuel self;;
   self <- eat_whitespace fuel self;;
   loop fuel node self).

Hypothesis matchop_stops : forall txt q self,
  stops m a txt q -> advance txt q = Return self -> matchop self = false.
Hypothesis matchop_op : forall c k g,
  opclass c = Some k -> matchop (mkParser (mkToken k (Some [c])) g) = true.
Hypothesis op_punctuation : forall c k,
  opclass c = Some k -> punctuation c = Some k.
Hypothesis operand_weaker :
  (mo = true -> m = true) /\ (ao = true -> a = true).
Hypothesis operand_before_op : forall c k,
  opclass c = Some k ->
  (mo = true -> k <> MUL /\ k <> DIV)
  /\ (ao = true -> k <> PLUS /\ k <> MINUS).

Lemma repetition_ends_number x rest :
  repetition opclass x -> ends_number rest = true ->
  ends_number (x ++ rest) = true.
Proof.
  intros [->|(w & c & k & x' & -> & Hw & Hc)] Hr; [exact Hr|].
  rewrite <- app_assoc, <- app_comm_cons.
  eapply ends_number_operator; [exact Hw | eapply op_punctuation, Hc].
Qed.

Lemma stops_before_repetition x rest txt q :
  repetition opclass x -> at_pos txt q (x ++ rest) ->
  stops m a txt (q + length x) -> stops mo ao txt q.
Proof.
  intros [->|(w & c & k & x' & -> & Hw & Hc)] Hat Hs.
  - simpl in Hs. rewrite Nat.add_0_r in Hs.
    destruct operand_weaker. eapply stops_weaken; eassumption.
  - rewrite <- app_assoc, <- app_comm_cons in Hat.
    destruct (operand_before_op _ _ Hc).
    eapply stops_at_punctuation; eauto.
Qed.

Lemma loop_after_advance l x r fuel txt q rest :
  repetition opclass x -> reads m a (fun fuel => loop fuel l) x r ->
  at_pos txt q (x ++ rest) -> ends_number rest = true ->
  stops m a txt (q + length x) ->
  agrees (self <- advance txt q;; loop fuel l self)
         (self <- advance txt (q + length x);; Return (r, self)).
Proof.
  intros Hx IH Hat Hen Hs.
  destruct (advance txt q) as [self|e|] eqn:Ha; cbn [bind].
  - exact (IH fuel txt q rest Hat Hen Hs self Ha).
  - destruct Hx as [->|(w & c & k & x' & -> & Hw & Hc)].
    + simpl. rewrite Nat.add_0_r, Ha. now right.
    + rewrite <- app_assoc, <- app_comm_cons in Hat.
      rewrite (advance_punctuation _ _ _ _ _ _ Hat Hw
                 (op_punctuation _ _ Hc)) in Ha.
      discriminate.
  - now apply advance_terminates in Ha.
Qed.

Lemma nil_reads l : reads m a (fun fuel => loop fuel l) [] l.
Proof.
  intros fuel txt p rest Hat Hen Hs self Hself.
  simpl in *. rewrite Nat.add_0_r in *.
  destruct fuel as [|fuel]; [left; apply loop_O|]. right.
  rewrite loop_S, (matchop_stops _ _ _ Hs Hself), Hself. reflexivity.
Qed.

Lemma cons_reads l w1 c k w2 x t y r :
  Grammar.whitespace w1 -> opclass c = Some k -> Grammar.whitespace w2 ->
  (exists c0 x', x = c0 :: x' /\ starts_factor c0 = true) ->
  reads mo ao operand x t ->
  repetition opclass y ->
  reads m a (fun fuel => loop fuel (BinOp l (mkToken k (Some [c])) t)) y r ->
  reads m a (fun fuel => loop fuel l) (w1 ++ c :: w2 ++ x ++ y) r.
Proof.
  intros Hw1 Hc Hw2 (c0 & x' & Ex & Hc0) IHx Hy IHy.
  intros fuel txt p rest Hat Hen Hs self Hself.
  rewrite <- app_assoc, <- app_comm_cons in Hat.
  rewrite <- !app_assoc in Hat.
  pose proof (op_punctuation _ _ Hc) as Hp.
  rewrite (advance_punctuation _ _ _ _ _ _ Hat Hw1 Hp) in Hself.
  injection Hself as <-.
  destruct fuel as [|fuel]; [left; apply loop_O|].
  rewrite loop_S, (matchop_op _ _ _ Hc).
  unfold parse_binop. cbn [current_token name tokens].
  (* positions *)
  pose proof (at_pos_app _ _ _ _ Hat) as Hat1.
  pose proof (at_pos_cons _ _ _ _ Hat1) as Hat2.
  pose proof (at_pos_app _ _ _ _ Hat2) as Hat3.
  pose proof (at_pos_app _ _ _ _ Hat3) as Hat4.
  set (q1 := p + length w1) in *.
  set (q2 := q1 + 1) in *.
  set (q3 := q2 + length w2) in *.
  set (q4 := q3 + length x) in *.
  assert (Eq : p + length (w1 ++ c :: w2 ++ x ++ y) = q4 + length y).
  { unfold q4, q3, q2, q1. rewrite !length_app. simpl.
    rewrite !length_app. lia. }
  rewrite Eq in *.
  (* the lookahead at the right operand *)
  pose proof Hat3 as Hat3'. rewrite Ex, <- app_comm_cons in Hat3'.
  destruct (advance_starts_factor _ _ _ _ Hat3' Hc0) as (s2 & Hs2).
  pose proof Hs2 as Hs1. unfold q3 in Hs1.
  rewrite (advance_spaces _ _ _ _ Hw2 Hat2) in Hs1.
  match goal with
  | |- context [eat k ?s] =>
      destruct (eat_to_lookahead k fuel s txt q2 s2
                  eq_refl eq_refl (at_pos_le _ _ _ Hat2) Hs1)
        as (s1 & Heat & Hws)
  end.
  rewrite Heat. cbn [bind].
  rewrite !bind_assoc. eapply agrees_bind; [exact Hws|]. cbn [bind].
  (* the right operand *)
  pose proof (IHx fuel txt q3 (y ++ rest) Hat3
                (repetition_ends_number _ _ Hy Hen)
                (stops_before_repetition _ _ _ _ Hy Hat4 Hs)
                s2 Hs2) as Hop.
  fold q4 in Hop.
  rewrite !bind_assoc. eapply agrees_bind; [exact Hop|].
  rewrite bind_assoc. cbn [bind].
  exact (loop_after_advance _ _ _ fuel _ _ _ Hy IHy Hat4 Hen Hs).
Qed.

Lemma top_reads x t y r :
  reads mo ao operand x t ->
  repetition opclass y ->
  reads m a (fun fuel => loop fuel t) y r ->
  reads m a top (x ++ y) r.
Proof.
  intros IHx Hy IHy fuel txt p rest Hat Hen Hs self Hself.
  rewrite <- app_assoc in Hat.
  pose proof (at_pos_app _ _ _ _ Hat) as Hat1.
  rewrite length_app, Nat.add_assoc in *.
  destruct fuel as [|fuel]; [left; apply top_O|].
  rewrite top_S.
  pose proof (IHx fuel txt p (y ++ rest) Hat
                (repetition_ends_number _ _ Hy Hen)
                (stops_before_repetition _ _ _ _ Hy Hat1 Hs)
                self Hself) as Hop.
  eapply agrees_bind; [exact Hop|].
  rewrite bind_assoc. cbn [bind].
  eapply agrees_trans;
    [|exact (loop_after_advance _ _ _ fuel _ _ _ Hy IHy Hat1 Hen Hs)].
  apply agrees_after_advance. intros s1 Hs1.
  apply (whitespace_skipped fuel s1 txt (p + length x));
    [exact (at_pos_le _ _ _ Hat1) | exact Hs1 | apply agrees_refl].
Qed.

End Repetition.

Lemma factor_parses_reads x t :
  factor_parses x t -> reads false false parse_factor x t.
Proof. intros H fuel txt p rest Hat Hen _. now apply (H fuel txt p rest). Qed.

Lemma term_rest_repetition l x r :
  Grammar.term_rest l x r -> repetition Grammar.multop x.
Proof.
  intros [l'|l' w1 c k w2 y t rest r' Hw1 Hc _ _ _]; [now left|].
  right. now exists w1, c, k, (w2 ++ y ++ rest).
Qed.

Lemma expr_rest_repetition l x r :
  Grammar.expr_rest l x r -> repetition Grammar.addop x.
Proof.
  intros [l'|l' w1 c k w2 y t rest r' Hw1 Hc _ _ _]; [now left|].
  right. now exists w1, c, k, (w2 ++ y ++ rest).
Qed.

Lemma match_multop_op c k g :
  Grammar.multop c = Some k ->
  match_multop (mkParser (mkToken k (Some [c])) g) = true.
Proof.
  intros H. apply multop_punctuation in H.
  destruct H as (_ & [-> | ->]); reflexivity.
Qed.

Lemma match_addop_op c k g :
  Grammar.addop c = Some k ->
  match_addop (mkParser (mkToken k (Some [c])) g) = true.
Proof.
  intros H. apply addop_punctuation in H.
  destruct H as (_ & [-> | ->]); reflexivity.
Qed.

Lemma addop_not_multop c k :
  Grammar.addop c = Some k ->
  (true = true -> k <> MUL /\ k <> DIV)
  /\ (false = true -> k <> PLUS /\ k <> MINUS).
Proof.
  intros H. apply addop_punctuation in H.
  destruct H as (_ & [-> | ->]); split; intros; try discriminate;
    split; discriminate.
Qed.

(** The parser reads every expression of the grammar as the tree the
    grammar gives it. *)
Lemma grammar_reads :
  (forall x t, Grammar.factor x t -> factor_parses x t)
  /\ (forall x t, Grammar.term x t -> reads true false parse_term x t)
  /\ (forall l x r, Grammar.term_rest l x r ->
        reads true false (fun fuel => parse_term_loop fuel l) x r)
  /\ (forall x t, Grammar.expr x t -> reads true true parse_expr x t)
  /\ (forall l x r, Grammar.expr_rest l x r ->
        reads true true (fun fuel => parse_expr_loop fuel l) x r).
Proof.
  apply grammar_mind.
  - intros x t Hx IH. now apply factor_MINUS_parses.
  - intros d v Hd Hv. now apply factor_INTEGER_parses.
  - intros c f v Hc Hf Hv. now apply factor_FLOAT_parses.
  - intros w1 e t w2 Hw1 He IH Hw2. now apply factor_LPAREN_parses.
  - intros x t w Hx IH Hw. now apply factor_WHITESPACE_parses.
  - intros x t rest r Hx IHx Hr IHr.
    apply top_reads with (mo := false) (ao := false)
      (opclass := Grammar.multop) (operand := parse_factor)
      (loop := parse_term_loop) (t := t); trivial.
    + intros c k Hc. now apply multop_punctuation in Hc.
    + split; discriminate.
    + split; discriminate.
    + now apply factor_parses_reads.
    + eapply term_rest_repetition, Hr.
  - intros l.
    apply nil_reads with (matchop := match_multop) (operand := parse_factor);
      trivial.
    intros txt q self Hs Hself. now apply (Hs self Hself).
  - intros l w1 c k w2 x t rest r Hw1 Hc Hw2 Hx IHx Hr IHr.
    apply cons_reads with (mo := false) (ao := false)
      (opclass := Grammar.multop) (matchop := match_multop)
      (operand := parse_factor) (k := k) (t := t); trivial.
    + apply match_multop_op.
    + intros c' k' Hc'. now apply multop_punctuation in Hc'.
    + split; discriminate.
    + split; discriminate.
    + eapply factor_starts, Hx.
    + now apply factor_parses_reads.
    + eapply term_rest_repetition, Hr.
  - intros x t rest r Hx IHx Hr IHr.
    apply top_reads with (mo := true) (ao := false)
      (opclass := Grammar.addop) (operand := parse_term)
      (loop := parse_expr_loop) (t := t); trivial.
    + intros c k Hc. now apply addop_punctuation in Hc.
    + now split.
    + apply addop_not_multop.
    + eapply expr_rest_repetition, Hr.
  - intros l.
    apply nil_reads with (matchop := match_addop) (operand := parse_term);
      trivial.
    intros txt q self Hs Hself. now apply (Hs self Hself).
  - intros l w1 c k w2 x t rest r Hw1 Hc Hw2 Hx IHx Hr IHr.
    apply cons_reads with (mo := true) (ao := false)
      (opclass := Grammar.addop) (matchop := match_addop)
      (operand := parse_term) (k := k) (t := t); trivial.
    + apply match_addop_op.
    + intros c' k' Hc'. now apply addop_punctuation in Hc'.
    + now split.
    + apply addop_not_multop.
    + eapply term_starts, Hx.
    + eapply expr_rest_repetition, Hr.
Qed.

(** [parse] on an expression of the grammar, followed by [rest]: the tree
    of the grammar, and the lookahead at [rest]. *)
Lemma parse_expression e t rest :
  Grammar.expr e t -> ends_number rest = true ->
  stops true true (e ++ rest) (length e) ->
  parse (e ++ rest)
  = (self <- advance (e ++ rest) (length e);; Return (t, self)).
Proof.
  intros He Hen Hs.
  apply agrees_terminates; [|apply parse_total].
  destruct (expr_starts _ _ He) as (c & e' & Ee & Hc).
  assert (Hat : at_pos (e ++ rest) 0 (e ++ rest))
    by (split; [lia | apply skipn_O]).
  assert (Hat' : at_pos (e ++ rest) 0 (c :: e' ++ rest))
    by (split; [lia | now rewrite skipn_O, Ee]).
  destruct (starts_factor_token c (e' ++ rest) Hc) as (Hsp & k & v & Hm).
  pose proof (advance_token _ _ _ _ _ _ Hat' Hsp Hm) as Ha.
  unfold parse, tokenize. rewrite next_at.
  destruct Hat' as (_ & ->). rewrite Hm. cbn [bind].
  destruct grammar_reads as (_ & _ & _ & Hexpr & _).
  exact (Hexpr e t He (enough_fuel (e ++ rest)) (e ++ rest) 0 rest Hat Hen
           Hs _ Ha).
Qed.

Lemma stops_at_end txt q m a : at_pos txt q [] -> stops m a txt q.
Proof.
  intros Hat self Hself. rewrite (advance_end _ _ Hat) in Hself.
  injection Hself as <-. now split.
Qed.

(** [parse] on an expression of the grammar returns its tree, with EOF as
    the lookahead. *)
Lemma parse_grammar e t :
  Grammar.expr e t ->
  parse e = Return (t, mkParser (mkToken EOF None)
                                (mkGenerator e (length e))).
Proof.
  intros He.
  assert (Hat : at_pos (e ++ []) (length e) []).
  { apply (at_pos_app (e ++ []) 0 e []). split; [lia | apply skipn_O]. }
  pose proof (parse_expression e t [] He eq_refl
                (stops_at_end _ _ _ _ Hat)) as H.
  rewrite (advance_end _ _ Hat) in H. now rewrite app_nil_r in H.
Qed.

Lemma evaluate_grammar e t : Grammar.expr e t -> evaluate e = visit t.
Proof. intros He. unfold evaluate. now rewrite (parse_grammar e t He). Qed.

(** ** Errors of the calls of the parser *)

(** Nothing catches what a call raises: the caller raises it. *)
Lemma invokes_Raise c c' e :
  invokes c c' -> run c' = Raise e -> run c = Raise e.
Proof.
  intros H Hr.
  destruct H; cbn [run] in *;
    try rewrite parse_factor_S; cbn [parse_expr parse_expr_loop parse_term
                                     parse_term_loop];
    unfold factor_cases;
    repeat match goal with
           | H : _ = Return _ |- _ => rewrite H; cbn [bind]
           | H : _ = true |- _ => rewrite H
           | H : name _ = _ |- _ => rewrite H
           end;
    unfold parse_binop;
    repeat match goal with
           | H : _ = Return _ |- _ => rewrite H; cbn [bind]
           end;
    try (rewrite Hr; reflexivity).
Qed.

Lemma invokes_OutOfFuel c c' :
  invokes c c' -> run c' = OutOfFuel -> run c = OutOfFuel.
Proof.
  intros H Hr.
  destruct H; cbn [run] in *;
    try rewrite parse_factor_S; cbn [parse_expr parse_expr_loop parse_term
                                     parse_term_loop];
    unfold factor_cases;
    repeat match goal with
           | H : _ = Return _ |- _ => rewrite H; cbn [bind]
           | H : _ = true |- _ => rewrite H
           | H : name _ = _ |- _ => rewrite H
           end;
    unfold parse_binop;
    repeat match goal with
           | H : _ = Return _ |- _ => rewrite H; cbn [bind]
           end;
    try (rewrite Hr; reflexivity).
Qed.

Lemma reaches_Raise c c' e :
  reaches c c' -> run c' = Raise e -> run c = Raise e.
Proof.
  induction 1 as [c|c c' c'' Hi _ IH]; intros Hr; [exact Hr|].
  eapply invokes_Raise; eauto.
Qed.

Lemma reaches_OutOfFuel c c' :
  reaches c c' -> run c' = OutOfFuel -> run c = OutOfFuel.
Proof.
  induction 1 as [c|c c' c'' Hi _ IH]; intros Hr; [exact Hr|].
  eapply invokes_OutOfFuel; eauto.
Qed.

(** What a call made by [parse] raises, [evaluate] raises. *)
Lemma parse_calls_Raise text c e :
  parse_calls text c -> run c = Raise e -> evaluate text = Raise e.
Proof.
  intros (tok & g & Hn & Hreach) Hr.
  unfold evaluate, parse. rewrite Hn. cbn [bind].
  pose proof (reaches_Raise _ _ _ Hreach Hr) as H. cbn [run] in H.
  now rewrite H.
Qed.

Lemma parse_calls_terminates text c :
  parse_calls text c -> run c <> OutOfFuel.
Proof.
  intros (tok & g & Hn & Hreach) Hr.
  apply (parse_total text). unfold parse. rewrite Hn. cbn [bind].
  exact (reaches_OutOfFuel _ _ Hreach Hr).
Qed.


(** ** The trees of the grammar and their values *)

Lemma float_of_int_outcome a :
  (exists a', float_of_int a = Return a')
  \/ float_of_int a = Raise OverflowError.
Proof.
  unfold float_of_int, finite_or_overflow.
  destruct (binary_normalize prec emax a 0 false); eauto.
Qed.

Lemma to_float_outcome x :
  (exists a, to_float x = Return a) \/ to_float x = Raise OverflowError.
Proof. destruct x; simpl; [apply float_of_int_outcome | eauto]. Qed.

Lemma operator_outcome k f x y :
  operators k = Some f ->
  (exists v, f x y = Return v)
  \/ (k = DIV /\ f x y = Raise ZeroDivisionError)
  \/ f x y = Raise OverflowError.
Proof.
  intros Hk.
  destruct (to_float_outcome x) as [(a & Ha)|Ha],
           (to_float_outcome y) as [(b & Hb)|Hb];
    destruct k; try discriminate; injection Hk as <-;
    destruct x as [xa|xa], y as [yb|yb]; simpl in *;
    try rewrite Ha; try rewrite Hb; simpl; eauto;
    unfold int_true_divide, float_div, finite_or_overflow;
    repeat match goal with
           | |- context [if ?c then _ else _] => destruct c; simpl; eauto
           | |- context [match ?s with S754_zero _ => _ | _ => _ end] =>
               destruct s; simpl; eauto
           end.
Qed.

Lemma visit_outcome t :
  operators_known t = true ->
  (exists v, visit t = Return v)
  \/ visit t = Raise ZeroDivisionError
  \/ visit t = Raise OverflowError.
Proof.
  induction t as [tok v|l IHl op r IHr|op e IHe]; simpl; intros Hk.
  - eauto.
  - apply andb_prop in Hk. destruct Hk as (Hk & Hr).
    apply andb_prop in Hk. destruct Hk as (Hop & Hl).
    destruct (operators (name op)) as [f|] eqn:Ef; [|discriminate].
    destruct (IHl Hl) as [(x & ->)|[-> | ->]]; simpl; auto.
    destruct (IHr Hr) as [(y & ->)|[-> | ->]]; simpl; auto.
    destruct (operator_outcome _ _ x y Ef) as [H|[(_ & H)|H]]; auto.
  - destruct (IHe Hk) as [(x & ->)|[-> | ->]]; simpl; eauto.
Qed.

(** ZeroDivisionError comes from a division the evaluation applies. *)
Lemma visit_ZeroDivisionError t :
  visit t = Raise ZeroDivisionError ->
  exists x y, applies t DIV x y
              /\ py_truediv x y = Raise ZeroDivisionError.
Proof.
  induction t as [tok v|l IHl op r IHr|op e IHe]; simpl.
  - discriminate.
  - destruct (operators (name op)) as [f|] eqn:Ef; [|discriminate].
    destruct (visit l) as [x| |] eqn:El; simpl; try discriminate.
    + destruct (visit r) as [y| |] eqn:Er; simpl; try discriminate.
      * intros H.
        destruct (operator_outcome _ _ x y Ef) as [(v & Hv)|[(Hd & _)|Ho]];
          try congruence.
        exists x, y. pose proof Ef as Ef'. rewrite Hd in Ef'.
        injection Ef' as <-. split; [|exact H].
        rewrite <- Hd. eapply applies_here; eauto.
      * intros [= ->]. destruct (IHr eq_refl) as (x0 & y0 & Ha & Hz).
        exists x0, y0. split; [|exact Hz].
        eapply applies_in_right; eauto.
    + intros [= ->]. destruct (IHl eq_refl) as (x0 & y0 & Ha & Hz).
      exists x0, y0. split; [|exact Hz]. eapply applies_in_left; eauto.
  - destruct (visit e) as [x| |] eqn:Ee; simpl; try discriminate.
    intros [= ->]. destruct (IHe eq_refl) as (x0 & y0 & Ha & Hz).
    exists x0, y0. split; [|exact Hz]. now apply applies_in_operand.
Qed.

Lemma integer_arithmetic_visit t :
  integer_arithmetic t = true -> exists z, visit t = Return (PyInt z).
Proof.
  induction t as [tok v|l IHl op r IHr|op e IHe]; simpl; intros H.
  - destruct v; [eauto | discriminate].
  - apply andb_prop in H. destruct H as (H & Hr).
    apply andb_prop in H. destruct H as (Hop & Hl).
    destruct (IHl Hl) as (a & ->). destruct (IHr Hr) as (b & ->).
    destruct (name op); try discriminate; simpl; eauto.
  - destruct (IHe H) as (a & ->). simpl. eauto.
Qed.

Lemma py_int_Return d v :
  py_int d = Return v -> v = PyInt (digits_value d).
Proof. unfold py_int. destruct (all_digits d); congruence. Qed.

Lemma grammar_operators_known :
  (forall x t, Grammar.factor x t -> operators_known t = true)
  /\ (forall x t, Grammar.term x t -> operators_known t = true)
  /\ (forall l x r, Grammar.term_rest l x r ->
        operators_known l = true -> operators_known r = true)
  /\ (forall x t, Grammar.expr x t -> operators_known t = true)
  /\ (forall l x r, Grammar.expr_rest l x r ->
        operators_known l = true -> operators_known r = true).
Proof.
  apply grammar_mind; simpl; auto.
  - intros l w1 c k w2 x t rest r _ Hc _ _ Ht _ IH Hl. apply IH.
    apply multop_punctuation in Hc. destruct Hc as (_ & [-> | ->]);
      simpl; now rewrite Hl, Ht.
  - intros l w1 c k w2 x t rest r _ Hc _ _ Ht _ IH Hl. apply IH.
    apply addop_punctuation in Hc. destruct Hc as (_ & [-> | ->]);
      simpl; now rewrite Hl, Ht.
Qed.

Lemma forallb_app_inv {A} (p : A -> bool) x y :
  forallb p (x ++ y) = true -> forallb p x = true /\ forallb p y = true.
Proof. rewrite forallb_app. apply andb_prop. Qed.

Lemma grammar_integer_arithmetic :
  (forall x t, Grammar.factor x t ->
     forallb plain x = true -> integer_arithmetic t = true)
  /\ (forall x t, Grammar.term x t ->
     forallb plain x = true -> integer_arithmetic t = true)
  /\ (forall l x r, Grammar.term_rest l x r ->
     forallb plain x = true ->
     integer_arithmetic l = true -> integer_arithmetic r = true)
  /\ (forall x t, Grammar.expr x t ->
     forallb plain x = true -> integer_arithmetic t = true)
  /\ (forall l x r, Grammar.expr_rest l x r ->
     forallb plain x = true ->
     integer_arithmetic l = true -> integer_arithmetic r = true).
Proof.
  apply grammar_mind.
  - intros x t _ IH Hp. simpl in Hp. simpl. now apply IH.
  - intros d v _ Hv _. apply py_int_Return in Hv. now subst v.
  - intros c f v _ _ _ Hp. simpl in Hp.
    rewrite andb_false_r in Hp. discriminate.
  - intros w1 e t w2 _ _ IH _ Hp. simpl in Hp.
    apply forallb_app_inv in Hp. destruct Hp as (_ & Hp).
    apply forallb_app_inv in Hp. destruct Hp as (Hp & _). now apply IH.
  - intros x t w _ IH _ Hp. apply forallb_app_inv in Hp. now apply IH.
  - intros x t rest r _ IHx _ IHr Hp. apply forallb_app_inv in Hp.
    destruct Hp as (Hx & Hr). auto.
  - auto.
  - intros l w1 c k w2 x t rest r _ Hc _ _ IHx _ IHr Hp Hl.
    apply forallb_app_inv in Hp. destruct Hp as (_ & Hp).
    simpl in Hp. apply andb_prop in Hp. destruct Hp as (Hpc & Hp).
    apply forallb_app_inv in Hp. destruct Hp as (_ & Hp).
    apply forallb_app_inv in Hp. destruct Hp as (Hx & Hr).
    apply IHr; trivial. simpl. rewrite Hl, (IHx Hx).
    unfold Grammar.multop in Hc. unfold plain in Hpc.
    destruct (Ascii.eqb c "*"); [injection Hc as <-; reflexivity|].
    destruct (Ascii.eqb c "/"); discriminate.
  - intros x t rest r _ IHx _ IHr Hp. apply forallb_app_inv in Hp.
    destruct Hp as (Hx & Hr). auto.
  - auto.
  - intros l w1 c k w2 x t rest r _ Hc _ _ IHx _ IHr Hp Hl.
    apply forallb_app_inv in Hp. destruct Hp as (_ & Hp).
    simpl in Hp. apply andb_prop in Hp. destruct Hp as (Hpc & Hp).
    apply forallb_app_inv in Hp. destruct Hp as (_ & Hp).
    apply forallb_app_inv in Hp. destruct Hp as (Hx & Hr).
    apply IHr; trivial. simpl. rewrite Hl, (IHx Hx).
    apply addop_punctuation in Hc. destruct Hc as (_ & [-> | ->]);
      reflexivity.
Qed.

(** ** Expressions of the grammar: derived rules *)

Lemma term_of_factor x t : Grammar.factor x t -> Grammar.term x t.
Proof.
  intros H. rewrite <- (app_nil_r x).
  eapply Grammar.term_factor; [exact H | constructor].
Qed.

Lemma expr_of_term x t : Grammar.term x t -> Grammar.expr x t.
Proof.
  intros H. rewrite <- (app_nil_r x).
  eapply Grammar.expr_term; [exact H | constructor].
Qed.

Lemma expr_of_factor x t : Grammar.factor x t -> Grammar.expr x t.
Proof. intros H. now apply expr_of_term, term_of_factor. Qed.

Lemma factor_int_literal digits :
  all_digits (lit digits) = true ->
  Grammar.factor (lit digits) (int_literal digits).
Proof.
  intros H. apply Grammar.factor_INTEGER; trivial.
  unfold py_int. now rewrite H.
Qed.

(** factor multop factor multop factor *)
Lemma term_of_three a ta o1 k1 w1 b tb o2 k2 w2 c tc :
  Grammar.factor a ta -> Grammar.multop o1 = Some k1 ->
  Grammar.whitespace w1 -> Grammar.factor b tb ->
  Grammar.multop o2 = Some k2 -> Grammar.whitespace w2 ->
  Grammar.factor c tc ->
  Grammar.term (a ++ o1 :: w1 ++ b ++ o2 :: w2 ++ c)
    (BinOp (BinOp ta (op_token k1 o1) tb) (op_token k2 o2) tc).
Proof.
  intros Ha H1 Hw1 Hb H2 Hw2 Hc.
  apply Grammar.term_factor with (t := ta); trivial.
  change (o1 :: w1 ++ b ++ o2 :: w2 ++ c)
    with ([] ++ o1 :: w1 ++ b ++ (o2 :: w2 ++ c)).
  apply Grammar.term_rest_multop with (k := k1) (t := tb); trivial; [reflexivity|].
  replace (o2 :: w2 ++ c) with ([] ++ o2 :: w2 ++ c ++ [])
    by (simpl; now rewrite app_nil_r).
  apply Grammar.term_rest_multop with (k := k2) (t := tc); trivial; [reflexivity|].
  constructor.
Qed.

(** factor multop factor *)
Lemma term_of_two a ta o1 k1 w1 b tb :
  Grammar.factor a ta -> Grammar.multop o1 = Some k1 ->
  Grammar.whitespace w1 -> Grammar.factor b tb ->
  Grammar.term (a ++ o1 :: w1 ++ b) (BinOp ta (op_token k1 o1) tb).
Proof.
  intros Ha H1 Hw1 Hb.
  apply Grammar.term_factor with (t := ta); trivial.
  replace (o1 :: w1 ++ b) with ([] ++ o1 :: w1 ++ b ++ [])
    by (simpl; now rewrite app_nil_r).
  apply Grammar.term_rest_multop with (k := k1) (t := tb); trivial; [reflexivity|].
  constructor.
Qed.

(** term addop term addop term *)
Lemma expr_of_three a ta o1 k1 w1 b tb o2 k2 w2 c tc :
  Grammar.term a ta -> Grammar.addop o1 = Some k1 ->
  Grammar.whitespace w1 -> Grammar.term b tb ->
  Grammar.addop o2 = Some k2 -> Grammar.whitespace w2 ->
  Grammar.term c tc ->
  Grammar.expr (a ++ o1 :: w1 ++ b ++ o2 :: w2 ++ c)
    (BinOp (BinOp ta (op_token k1 o1) tb) (op_token k2 o2) tc).
Proof.
  intros Ha H1 Hw1 Hb H2 Hw2 Hc.
  apply Grammar.expr_term with (t := ta); trivial.
  change (o1 :: w1 ++ b ++ o2 :: w2 ++ c)
    with ([] ++ o1 :: w1 ++ b ++ (o2 :: w2 ++ c)).
  apply Grammar.expr_rest_addop with (k := k1) (t := tb); trivial; [reflexivity|].
  replace (o2 :: w2 ++ c) with ([] ++ o2 :: w2 ++ c ++ [])
    by (simpl; now rewrite app_nil_r).
  apply Grammar.expr_rest_addop with (k := k2) (t := tc); trivial; [reflexivity|].
  constructor.
Qed.

(** term addop term *)
Lemma expr_of_two a ta o1 k1 w1 b tb :
  Grammar.term a ta -> Grammar.addop o1 = Some k1 ->
  Grammar.whitespace w1 -> Grammar.term b tb ->
  Grammar.expr (a ++ o1 :: w1 ++ b) (BinOp ta (op_token k1 o1) tb).
Proof.
  intros Ha H1 Hw1 Hb.
  apply Grammar.expr_term with (t := ta); trivial.
  replace (o1 :: w1 ++ b) with ([] ++ o1 :: w1 ++ b ++ [])
    by (simpl; now rewrite app_nil_r).
  apply Grammar.expr_rest_addop with (k := k1) (t := tb); trivial; [reflexivity|].
  constructor.
Qed.

Lemma parse_tree_grammar e t : Grammar.expr e t -> parse_tree e = Return t.
Proof. intros H. unfold parse_tree. now rewrite (parse_grammar e t H). Qed.

(** ** What follows an expression *)

Lemma digit_token c rest :
  is_digit c = true ->
  exists k v, re_match (lexemes lexer) (c :: rest) = Some (k, v)
              /\ (k = INTEGER \/ k = FLOAT).
Proof.
  intros Hc. rewrite re_match_cons, Hc.
  destruct rest as [|d rest']; [eauto|].
  destruct (Ascii.eqb d "."); [|eauto].
  destruct (span is_digit rest'); eauto.
Qed.

Lemma ends_number_space s w rest :
  Grammar.whitespace (s :: w) -> ends_number ((s :: w) ++ rest) = true.
Proof.
  unfold Grammar.whitespace. simpl. intros H.
  apply andb_prop in H. destruct H as (Hs & _).
  destruct (space_class _ Hs) as (_ & ->).
  destruct (is_digit s) eqn:Hd; [|reflexivity].
  apply digit_class in Hd. destruct Hd as (Hd & _). congruence.
Qed.

(** The lookahead at a residual is its first token, and stops the loops. *)
Lemma residual_lookahead txt q r :
  at_pos txt q r -> residual r ->
  ends_number r = true
  /\ exists self, advance txt q = Return self
       /\ residual_token (name (current_token self)) = true.
Proof.
  intros Hat (w & c & r' & -> & Hw & Hc).
  destruct Hc as [-> | [-> | (Hd & Hne)]].
  - split; [now apply (ends_number_operator w "(" LPAREN)|].
    rewrite (advance_punctuation _ _ _ _ LPAREN _ Hat Hw eq_refl). eauto.
  - split; [now apply (ends_number_operator w ")" RPAREN)|].
    rewrite (advance_punctuation _ _ _ _ RPAREN _ Hat Hw eq_refl). eauto.
  - split.
    + destruct w as [|s w]; [congruence|].
      now apply ends_number_space.
    + rewrite <- (advance_spaces _ _ _ _ Hw Hat).
      apply at_pos_app in Hat.
      destruct (digit_token c r' Hd) as (k & v & Hm & Hk).
      rewrite (advance_token _ _ _ _ _ _ Hat (proj1 (digit_class _ Hd)) Hm).
      eexists. split; [reflexivity|]. simpl. now destruct Hk as [-> | ->].
Qed.

Lemma residual_token_stops txt q self :
  advance txt q = Return self ->
  residual_token (name (current_token self)) = true ->
  stops true true txt q.
Proof.
  intros Ha Hk self' Ha'. rewrite Ha in Ha'. injection Ha' as <-.
  unfold match_multop, match_addop.
  destruct (name (current_token self)); try discriminate; now split.
Qed.

(** An expression followed by a residual: the tree of the expression. *)
Lemma parse_residual e t r :
  Grammar.expr e t -> residual r ->
  exists self, parse (e ++ r) = Return (t, self)
               /\ residual_token (name (current_token self)) = true.
Proof.
  intros He Hr.
  assert (Hat : at_pos (e ++ r) (length e) r).
  { apply (at_pos_app (e ++ r) 0 e r). split; [lia | apply skipn_O]. }
  destruct (residual_lookahead _ _ _ Hat Hr) as (Hen & self & Ha & Hk).
  exists self. split; [|exact Hk].
  rewrite (parse_expression e t r He Hen
             (residual_token_stops _ _ _ Ha Hk)).
  now rewrite Ha.
Qed.

(** An expression followed, after whitespace, by a character that starts
    no token (and is not a dot): the tokenizer error at that character. *)
Lemma parse_unmatched e t w c r :
  Grammar.expr e t -> Grammar.whitespace w ->
  is_digit c = false -> is_space c = false -> punctuation c = None ->
  Ascii.eqb c "." = false ->
  parse (e ++ w ++ c :: r)
  = Raise (TokenizerException (length e + length w)
             (length (e ++ w ++ c :: r)) (e ++ w ++ c :: r)).
Proof.
  intros He Hw Hd Hs Hp Hdot.
  set (txt := e ++ w ++ c :: r).
  assert (Hat : at_pos txt (length e) (w ++ c :: r)).
  { apply (at_pos_app txt 0 e _). split; [lia | apply skipn_O]. }
  assert (Ha : advance txt (length e)
               = Raise (TokenizerException (length e + length w)
                          (length txt) txt)).
  { rewrite <- (advance_spaces _ _ _ _ Hw Hat).
    pose proof (at_pos_app _ _ _ _ Hat) as Hat'.
    rewrite advance_eq by exact (at_pos_le _ _ _ Hat').
    pose proof (at_pos_lt _ _ _ _ Hat') as Hlt.
    destruct Hat' as (_ & Hsk). rewrite Hsk. simpl. rewrite Hs. simpl.
    rewrite Nat.add_0_r. unfold pull. rewrite next_at, Hsk.
    rewrite re_match_cons, Hd, Hs, Hp.
    destruct (Nat.eqb_spec (length e + length w) (length txt)); [lia|].
    reflexivity. }
  assert (Hen : ends_number (w ++ c :: r) = true).
  { destruct w as [|s w].
    - simpl. now rewrite Hd, Hdot.
    - now apply (ends_number_whitespace (s :: w) (c :: r)); [|simpl; rewrite Hd, Hdot]. }
  unfold txt in *. rewrite (parse_expression e t _ He Hen).
  - now rewrite Ha.
  - intros self Hself. rewrite Ha in Hself. discriminate.
Qed.

(** * The behaviour of the calculator *)

(** ** The test cases of tests.py *)

Example test_127 : evaluate (lit "127") = Return (PyInt 127).
Proof. vm_compute. reflexivity. Qed.

Example test_sum : evaluate (lit "2 + 3") = Return (PyInt 5).
Proof. vm_compute. reflexivity. Qed.

Example test_product_quotient :
  evaluate (lit "10 * 5 / 2") = Return (PyFloat 25).
Proof. vm_compute. reflexivity. Qed.

Example test_long :
  evaluate (lit "2 + 3 * 4 / 3 - 6 / 3 * 3 + 8") = Return (PyFloat 8).
Proof. vm_compute. reflexivity. Qed.

(** 0x1.a666666666666p+2 is the float nearest to 6.6. *)
Example test_float_sum :
  evaluate (lit "1.1 + 2.2 + 3.3") = Return (PyFloat 0x1.a666666666666p+2).
Proof. vm_compute. reflexivity. Qed.

(** 0x1.ff1a9fbe76c8cp+2 is 7.986000000000001. *)
Example test_float_product :
  evaluate (lit "1.1 * 2.2 * 3.3") = Return (PyFloat 0x1.ff1a9fbe76c8cp+2).
Proof. vm_compute. reflexivity. Qed.

Example test_parentheses : evaluate (lit "(2+3)*4") = Return (PyInt 20).
Proof. vm_compute. reflexivity. Qed.

Example test_unterminated :
  evaluate (lit "(2 + 3")
  = Raise (SyntaxError (Expected_but_found RPAREN EOF)).
Proof. vm_compute. reflexivity. Qed.

Example test_missing_operand :
  evaluate (lit "2 +")
  = Raise (SyntaxError (Unrecognized_token (mkToken EOF None))).
Proof. vm_compute. reflexivity. Qed.

Example test_empty : evaluate (lit "") = Raise StopIteration.
Proof. vm_compute. reflexivity. Qed.

(** ** Trailing tokens *)

(** C1, as stated, fails: "2" is a complete expression, " 3" and ")" are
    residual tokens, and evaluate returns the value 2 of the leading
    expression on "2 3" and on "2)" instead of raising SyntaxError. *)
Lemma trailing_tokens_counterexample :
  Grammar.expr (lit "2") (int_literal "2")
  /\ residual (lit " 3") /\ residual (lit ")")
  /\ evaluate (lit "2" ++ lit " 3") = Return (PyInt 2)
  /\ evaluate (lit "2" ++ lit ")") = Return (PyInt 2).
Proof.
  split; [apply expr_of_factor, factor_int_literal; reflexivity|].
  split.
  { exists (lit " "), "3"%char, []. repeat split; try reflexivity.
    right; right. split; [reflexivity | discriminate]. }
  split.
  { exists [], ")"%char, []. repeat split; auto. }
  split; vm_compute; reflexivity.
Qed.

(** An expression followed by whitespace and a character that starts a
    parenthesis or a number: the tree of the expression, and the token
    that starts at this character as the lookahead. *)
Lemma parse_trailing e t w c r' :
  Grammar.expr e t -> Grammar.whitespace w ->
  c = "("%char \/ c = ")"%char \/ (is_digit c = true /\ w <> []) ->
  exists k v,
    re_match (lexemes lexer) (c :: r') = Some (k, v)
    /\ residual_token k = true
    /\ parse (e ++ w ++ c :: r')
       = Return (t, mkParser (mkToken k (Some v))
                      (mkGenerator (e ++ w ++ c :: r')
                         (length e + length w + length v))).
Proof.
  intros He Hw Hc.
  set (txt := e ++ w ++ c :: r').
  assert (Hat : at_pos txt (length e) (w ++ c :: r')).
  { apply (at_pos_app txt 0 e _). split; [lia | apply skipn_O]. }
  pose proof (at_pos_app _ _ _ _ Hat) as Hat'.
  assert (Htok : exists k v,
             re_match (lexemes lexer) (c :: r') = Some (k, v)
             /\ residual_token k = true /\ is_space c = false
             /\ ends_number (w ++ c :: r') = true).
  { destruct Hc as [-> | [-> | (Hd & Hne)]].
    - exists LPAREN, ["("%char]. repeat split.
      now apply (ends_number_operator w "(" LPAREN).
    - exists RPAREN, [")"%char]. repeat split.
      now apply (ends_number_operator w ")" RPAREN).
    - destruct (digit_token c r' Hd) as (k & v & Hm & Hk).
      exists k, v. split; [exact Hm|].
      split; [now destruct Hk as [-> | ->]|].
      split; [exact (proj1 (digit_class _ Hd))|].
      destruct w as [|s w]; [congruence|]. now apply ends_number_space. }
  destruct Htok as (k & v & Hm & Hk & Hs & Hen).
  exists k, v. split; [exact Hm|]. split; [exact Hk|].
  assert (Ha : advance txt (length e)
               = Return (mkParser (mkToken k (Some v))
                           (mkGenerator txt
                              (length e + length w + length v)))).
  { rewrite <- (advance_spaces _ _ _ _ Hw Hat).
    exact (advance_token _ _ _ _ _ _ Hat' Hs Hm). }
  unfold txt in *.
  rewrite (parse_expression e t _ He Hen
             (residual_token_stops _ _ _ Ha Hk)).
  now rewrite Ha.
Qed.

(** C1, amended: parse returns as soon as the lookahead is no operator and
    never checks that it is EOF.  For every expression of the grammar
    followed by optional whitespace and a parenthesis, or by at least one
    whitespace character and a digit, parse returns the tree of the
    expression and leaves as the lookahead the token that starts at the
    parenthesis or the digit (LPAREN, RPAREN, INTEGER or FLOAT), and
    evaluate does what it does on the expression alone.  A digit directly
    after the expression is outside the general statement: after a digit
    it continues the number; after a right parenthesis it is left unread
    too, as in the example "(2)3", of value 2. *)
Theorem trailing_tokens_not_examined :
  evaluate (lit "(2)3") = Return (PyInt 2)
  /\ (forall e t w c r',
        Grammar.expr e t -> Grammar.whitespace w ->
        c = "("%char \/ c = ")"%char \/ (is_digit c = true /\ w <> []) ->
        evaluate (e ++ w ++ c :: r') = evaluate e
        /\ evaluate (e ++ w ++ c :: r') = visit t
        /\ exists k v,
             re_match (lexemes lexer) (c :: r') = Some (k, v)
             /\ residual_token k = true
             /\ parse (e ++ w ++ c :: r')
                = Return (t, mkParser (mkToken k (Some v))
                               (mkGenerator (e ++ w ++ c :: r')
                                  (length e + length w + length v)))).
Proof.
  split; [vm_compute; reflexivity|].
  intros e t w c r' He Hw Hc.
  destruct (parse_trailing e t w c r' He Hw Hc) as (k & v & Hm & Hk & Hp).
  assert (Hv : evaluate (e ++ w ++ c :: r') = visit t)
    by (unfold evaluate; now rewrite Hp).
  split; [now rewrite (evaluate_grammar e t He)|].
  split; [exact Hv|]. now exists k, v.
Qed.

Lemma trailing_tokens_not_examined_witness :
  evaluate (lit "2" ++ lit " " ++ "3"%char :: []) = evaluate (lit "2").
Proof.
  refine (proj1 (proj2 trailing_tokens_not_examined
                   (lit "2") (int_literal "2") (lit " ") "3"%char [] _ _ _)).
  - apply expr_of_factor, factor_int_literal. reflexivity.
  - reflexivity.
  - right; right. split; [reflexivity | discriminate].
Defined.

(** ** Unary minus and whitespace *)




(** ** Division by zero *)

(** C3, as stated, fails: on a one followed by 309 zeros divided by 0.0,
    the evaluation applies the division operator with a divisor equal to
    zero, and evaluate raises OverflowError, not ZeroDivisionError: the int
    dividend is converted to float before the divisor is compared with
    zero. *)
Lemma division_by_zero_counterexample :
  (exists self, parse huge_by_zero = Return (huge_by_zero_tree, self))
  /\ applies huge_by_zero_tree DIV (PyInt (10 ^ 309)) (PyFloat 0)
  /\ is_zero (PyFloat 0) = true
  /\ evaluate huge_by_zero = Raise OverflowError.
Proof.
  split; [eexists; vm_compute; reflexivity|].
  split; [|split; vm_compute; reflexivity].
  exact (applies_here
           (Number (mkToken INTEGER (Some huge)) (PyInt (10 ^ 309)))
           (mkToken DIV (Some ["/"%char]))
           (Number (mkToken FLOAT (Some (lit "0.0"))) (PyFloat 0))
           py_truediv (PyInt (10 ^ 309)) (PyFloat 0)
           eq_refl eq_refl eq_refl).
Qed.

(** C3, amended: when the evaluation of the tree of a text applies the
    division operator with a divisor equal to zero, evaluate raises
    ZeroDivisionError, except that it raises OverflowError when the
    dividend is an int too large for a float and the divisor is a float.
    It returns no value, neither infinity nor NaN. *)
Theorem division_by_zero_raises text tree self x y :
  parse text = Return (tree, self) ->
  applies tree DIV x y ->
  is_zero y = true ->
  evaluate text
  = Raise (if dividend_overflows x y then OverflowError
           else ZeroDivisionError).
Proof.
  intros Hp Ha Hz. unfold evaluate. rewrite Hp. cbn [bind].
  apply (applies_visit _ _ _ _ Ha py_truediv eq_refl).
  now apply py_truediv_zero.
Qed.

Lemma division_by_zero_raises_witness :
  evaluate (lit "1/0") = Raise ZeroDivisionError.
Proof.
  refine (division_by_zero_raises (lit "1/0")
            (BinOp (int_literal "1") (op_token DIV "/") (int_literal "0"))
            _ (PyInt 1) (PyInt 0) _ _ _).
  - vm_compute. reflexivity.
  - apply (applies_here (int_literal "1") (op_token DIV "/")
             (int_literal "0") py_truediv); reflexivity.
  - reflexivity.
Defined.

(** ** Precedence *)

(** C4: evaluate("2 / 2 + 3 * 4 - 6") returns 7 (the float 7.0, 2 / 2
    being a true division), from the tree ((2 / 2) + (3 * 4)) - 6.
    For all factors a, b and c, "a + b * c" is parsed as a + (b * c)
    and "a * b + c" as (a * b) + c, with any operators of the two
    levels: parse_expr combines the trees of parse_term. *)
Theorem multiplication_binds_tighter :
  evaluate (lit "2 / 2 + 3 * 4 - 6") = Return (PyFloat 7)
  /\ parse_tree (lit "2 / 2 + 3 * 4 - 6")
     = Return
         (BinOp
            (BinOp
               (BinOp (int_literal "2") (op_token DIV "/") (int_literal "2"))
               (op_token PLUS "+")
               (BinOp (int_literal "3") (op_token MUL "*") (int_literal "4")))
            (op_token MINUS "-")
            (int_literal "6"))
  /\ (forall a ta o1 k1 w1 b tb o2 k2 w2 c tc,
        Grammar.factor a ta -> Grammar.factor b tb -> Grammar.factor c tc ->
        Grammar.addop o1 = Some k1 -> Grammar.multop o2 = Some k2 ->
        Grammar.whitespace w1 -> Grammar.whitespace w2 ->
        parse_tree (a ++ o1 :: w1 ++ b ++ o2 :: w2 ++ c)
        = Return (BinOp ta (op_token k1 o1) (BinOp tb (op_token k2 o2) tc))
        /\ parse_tree (a ++ o2 :: w2 ++ b ++ o1 :: w1 ++ c)
           = Return (BinOp (BinOp ta (op_token k2 o2) tb)
                           (op_token k1 o1) tc)).
Proof.
  split; [vm_compute; reflexivity|]. split; [vm_compute; reflexivity|].
  intros a ta o1 k1 w1 b tb o2 k2 w2 c tc Ha Hb Hc H1 H2 Hw1 Hw2. split.
  - apply parse_tree_grammar.
    apply expr_of_two; trivial; [now apply term_of_factor|].
    now apply term_of_two.
  - apply parse_tree_grammar.
    replace (a ++ o2 :: w2 ++ b ++ o1 :: w1 ++ c)
      with ((a ++ o2 :: w2 ++ b) ++ o1 :: w1 ++ c)
      by (rewrite <- app_assoc; simpl; now rewrite <- app_assoc).
    apply expr_of_two; trivial; [|now apply term_of_factor].
    now apply term_of_two.
Qed.

Lemma multiplication_binds_tighter_witness :
  parse_tree (lit "2" ++ "+"%char :: [] ++ lit "3" ++ "*"%char :: [] ++ lit "4")
  = Return (BinOp (int_literal "2") (op_token PLUS "+")
              (BinOp (int_literal "3") (op_token MUL "*") (int_literal "4"))).
Proof.
  refine (proj1 (proj2 (proj2 multiplication_binds_tighter)
                   (lit "2") (int_literal "2") "+"%char PLUS []
                   (lit "3") (int_literal "3") "*"%char MUL []
                   (lit "4") (int_literal "4") _ _ _ _ _ _ _));
    try reflexivity; apply factor_int_literal; reflexivity.
Defined.

(** ** Associativity *)

(** C5: evaluate("2 - 3 - 4") returns -5, from the tree (2 - 3) - 4.
    For all terms a, b and c and additive operators, "a - b - c" is parsed
    as (a - b) - c; for all factors and multiplicative operators,
    "a / b / c" is parsed as (a / b) / c. *)
Theorem binary_operators_left_associative :
  evaluate (lit "2 - 3 - 4") = Return (PyInt (-5))
  /\ parse_tree (lit "2 - 3 - 4")
     = Return
         (BinOp
            (BinOp (int_literal "2") (op_token MINUS "-") (int_literal "3"))
            (op_token MINUS "-")
            (int_literal "4"))
  /\ (forall a ta o1 k1 w1 b tb o2 k2 w2 c tc,
        Grammar.term a ta -> Grammar.term b tb -> Grammar.term c tc ->
        Grammar.addop o1 = Some k1 -> Grammar.addop o2 = Some k2 ->
        Grammar.whitespace w1 -> Grammar.whitespace w2 ->
        parse_tree (a ++ o1 :: w1 ++ b ++ o2 :: w2 ++ c)
        = Return (BinOp (BinOp ta (op_token k1 o1) tb) (op_token k2 o2) tc))
  /\ (forall a ta o1 k1 w1 b tb o2 k2 w2 c tc,
        Grammar.factor a ta -> Grammar.factor b tb -> Grammar.factor c tc ->
        Grammar.multop o1 = Some k1 -> Grammar.multop o2 = Some k2 ->
        Grammar.whitespace w1 -> Grammar.whitespace w2 ->
        parse_tree (a ++ o1 :: w1 ++ b ++ o2 :: w2 ++ c)
        = Return (BinOp (BinOp ta (op_token k1 o1) tb) (op_token k2 o2) tc)).
Proof.
  split; [vm_compute; reflexivity|]. split; [vm_compute; reflexivity|].
  split.
  - intros a ta o1 k1 w1 b tb o2 k2 w2 c tc Ha Hb Hc H1 H2 Hw1 Hw2.
    apply parse_tree_grammar. now apply expr_of_three.
  - intros a ta o1 k1 w1 b tb o2 k2 w2 c tc Ha Hb Hc H1 H2 Hw1 Hw2.
    apply parse_tree_grammar. apply expr_of_term. now apply term_of_three.
Qed.

Lemma binary_operators_left_associative_witness :
  parse_tree (lit "2" ++ "-"%char :: [] ++ lit "3" ++ "-"%char :: []
              ++ lit "4")
  = Return (BinOp
              (BinOp (int_literal "2") (op_token MINUS "-") (int_literal "3"))
              (op_token MINUS "-") (int_literal "4")).
Proof.
  refine (proj1 (proj2 (proj2 binary_operators_left_associative))
            (lit "2") (int_literal "2") "-"%char MINUS []
            (lit "3") (int_literal "3") "-"%char MINUS []
            (lit "4") (int_literal "4") _ _ _ _ _ _ _);
    try reflexivity; apply term_of_factor, factor_int_literal; reflexivity.
Defined.

(** ** Tokenizer errors *)

(** C6, as stated, fails: no pattern matches at position 3 of "2 3@", and
    evaluate returns 2: tokens are made when the parser asks for them, and
    the parser stops asking at the token "3". *)
Lemma tokenizer_error_counterexample :
  unmatched two_three_at 3
  /\ evaluate two_three_at = Return (PyInt 2).
Proof.
  split; [split; [vm_compute; lia | reflexivity] | vm_compute; reflexivity].
Qed.

(** An expression followed, after whitespace, by a character that starts
    no token; a dot is such a character when whitespace stands before it
    (directly after a digit, a dot may go on to a FLOAT). *)
Lemma parse_unmatched_separated e t w c r :
  Grammar.expr e t -> Grammar.whitespace w ->
  is_digit c = false -> is_space c = false -> punctuation c = None ->
  Ascii.eqb c "." = false \/ w <> [] ->
  parse (e ++ w ++ c :: r)
  = Raise (TokenizerException (length e + length w)
             (length (e ++ w ++ c :: r)) (e ++ w ++ c :: r)).
Proof.
  intros He Hw Hd Hs Hp [Hdot|Hne];
    [now apply parse_unmatched with (t := t)|].
  set (txt := e ++ w ++ c :: r).
  assert (Hat : at_pos txt (length e) (w ++ c :: r)).
  { apply (at_pos_app txt 0 e _). split; [lia | apply skipn_O]. }
  assert (Ha : advance txt (length e)
               = Raise (TokenizerException (length e + length w)
                          (length txt) txt)).
  { rewrite <- (advance_spaces _ _ _ _ Hw Hat).
    pose proof (at_pos_app _ _ _ _ Hat) as Hat'.
    rewrite advance_eq by exact (at_pos_le _ _ _ Hat').
    pose proof (at_pos_lt _ _ _ _ Hat') as Hlt.
    destruct Hat' as (_ & Hsk). rewrite Hsk. simpl. rewrite Hs. simpl.
    rewrite Nat.add_0_r. unfold pull. rewrite next_at, Hsk.
    rewrite re_match_cons, Hd, Hs, Hp.
    destruct (Nat.eqb_spec (length e + length w) (length txt)); [lia|].
    reflexivity. }
  assert (Hen : ends_number (w ++ c :: r) = true).
  { destruct w as [|s w]; [congruence|]. now apply ends_number_space. }
  unfold txt in *. rewrite (parse_expression e t _ He Hen).
  - now rewrite Ha.
  - intros self Hself. rewrite Ha in Hself. discriminate.
Qed.

(** C6, amended: the lexer raises TokenizerException, with the stopping
    offset, the length of the text and the text, when it is asked for a
    token at a position, not the end, where no pattern matches; a
    TokenizerException that evaluate raises carries these, and the offset
    is such a position of the text.  evaluate raises it on an expression
    followed, after optional whitespace, by a character that starts no
    token, a dot being such a character when whitespace separates it from
    the expression.  A dot directly after the expression is outside the
    general statement (after the digit 1, ".5" makes the FLOAT 1.5):
    there, evaluate raises the exception on the examples "12.5", "10.0"
    and "(2).".  It raises it on "2 + @" too. *)
Theorem tokenizer_error_reported :
  evaluate (lit "2 + @") = Raise (TokenizerException 4 5 (lit "2 + @"))
  /\ evaluate (lit "12.5") = Raise (TokenizerException 2 4 (lit "12.5"))
  /\ evaluate (lit "10.0") = Raise (TokenizerException 2 4 (lit "10.0"))
  /\ evaluate (lit "(2).") = Raise (TokenizerException 3 4 (lit "(2)."))
  /\ (forall g,
        unmatched (text g) (pos g) ->
        next lexer g
        = Raise (TokenizerException (pos g) (length (text g)) (text g)))
  /\ (forall text p n t,
        evaluate text = Raise (TokenizerException p n t) ->
        t = text /\ n = length text /\ unmatched text p)
  /\ (forall e t w c r,
        Grammar.expr e t -> Grammar.whitespace w ->
        is_digit c = false -> is_space c = false ->
        punctuation c = None ->
        Ascii.eqb c "." = false \/ w <> [] ->
        evaluate (e ++ w ++ c :: r)
        = Raise (TokenizerException (length e + length w)
                   (length (e ++ w ++ c :: r)) (e ++ w ++ c :: r))).
Proof.
  split; [vm_compute; reflexivity|]. split; [vm_compute; reflexivity|].
  split; [vm_compute; reflexivity|]. split; [vm_compute; reflexivity|].
  split; [|split].
  - intros g (Hlt & Hm). unfold next. rewrite Hm.
    destruct (Nat.eqb_spec (pos g) (length (text g))); [lia | reflexivity].
  - intros text p n t H.
    exact (evaluate_Raise_reports text _ H p n t eq_refl).
  - intros e t w c r He Hw Hd Hs Hp Hdot. unfold evaluate.
    now rewrite (parse_unmatched_separated e t w c r He Hw Hd Hs Hp Hdot).
Qed.

Lemma tokenizer_error_reported_witness :
  evaluate (lit "2" ++ lit " " ++ "."%char :: [])
  = Raise (TokenizerException 2 3 (lit "2 .")).
Proof.
  refine (proj2 (proj2 (proj2 (proj2 (proj2 (proj2
            tokenizer_error_reported)))))
            (lit "2") (int_literal "2") (lit " ") "."%char [] _ _ _ _ _ _);
    try reflexivity.
  - apply expr_of_factor, factor_int_literal. reflexivity.
  - right. discriminate.
Defined.

(** ** True division and mixed operands *)

(** C7, as stated, fails: 2 / 0.0 is a binary operation on an int and a
    float, and it raises ZeroDivisionError instead of returning a float. *)
Lemma mixed_operation_counterexample :
  mixed (PyInt 2) (PyFloat 0) = true
  /\ py_truediv (PyInt 2) (PyFloat 0) = Raise ZeroDivisionError
  /\ evaluate (lit "2/0.0") = Raise ZeroDivisionError.
Proof. repeat split; vm_compute; reflexivity. Qed.

(** C7, amended: evaluate("10/4") returns the float 2.5.  A binary
    operation on an int and a float converts the int to float: it raises
    OverflowError when the int is too large for a float, ZeroDivisionError
    when it is a division and the divisor is zero, and returns a float
    otherwise. *)
Theorem division_is_true_division :
  evaluate (lit "10/4") = Return (PyFloat 2.5)
  /\ (forall k f x y,
        operators k = Some f -> mixed x y = true ->
        match to_float x, to_float y with
        | Return a, Return b =>
            if TokenName_eqb k DIV && (b =? 0)%float
            then f x y = Raise ZeroDivisionError
            else exists r, f x y = Return (PyFloat r)
        | _, _ => f x y = Raise OverflowError
        end).
Proof.
  split; [vm_compute; reflexivity|]. exact mixed_operation.
Qed.

Lemma division_is_true_division_witness :
  exists r, py_add (PyInt 1) (PyFloat 0.5) = Return (PyFloat r).
Proof.
  exact (proj2 division_is_true_division PLUS py_add (PyInt 1) (PyFloat 0.5)
           eq_refl eq_refl).
Defined.

(** ** Unary minus *)

(** C8: evaluate("-2+3") returns 1 and evaluate("2--3") returns 5.  For
    all factors a and b and every binary operator, "-a op b" is parsed as
    (-a) op b, and "a op -b" as a op (-b). *)
Theorem unary_minus_binds_tighter :
  evaluate (lit "-2+3") = Return (PyInt 1)
  /\ evaluate (lit "2--3") = Return (PyInt 5)
  /\ (forall a ta o k w b tb,
        Grammar.factor a ta -> Grammar.factor b tb ->
        Grammar.addop o = Some k \/ Grammar.multop o = Some k ->
        Grammar.whitespace w ->
        parse_tree ("-"%char :: a ++ o :: w ++ b)
        = Return (BinOp (UnaryOp (op_token MINUS "-") ta) (op_token k o) tb)
        /\ parse_tree (a ++ o :: w ++ "-"%char :: b)
           = Return (BinOp ta (op_token k o)
                       (UnaryOp (op_token MINUS "-") tb))).
Proof.
  split; [vm_compute; reflexivity|]. split; [vm_compute; reflexivity|].
  intros a ta o k w b tb Ha Hb Ho Hw.
  pose proof (Grammar.factor_MINUS a ta Ha) as Hma.
  pose proof (Grammar.factor_MINUS b tb Hb) as Hmb.
  destruct Ho as [Ho|Ho]; split; apply parse_tree_grammar.
  - apply (expr_of_two ("-"%char :: a)); trivial; now apply term_of_factor.
  - apply expr_of_two; trivial; now apply term_of_factor.
  - apply expr_of_term. now apply (term_of_two ("-"%char :: a)).
  - apply expr_of_term. now apply term_of_two.
Qed.

Lemma unary_minus_binds_tighter_witness :
  parse_tree (lit "2" ++ "-"%char :: [] ++ "-"%char :: lit "3")
  = Return (BinOp (int_literal "2") (op_token MINUS "-")
              (UnaryOp (op_token MINUS "-") (int_literal "3"))).
Proof.
  refine (proj2 (proj2 (proj2 unary_minus_binds_tighter)
                   (lit "2") (int_literal "2") "-"%char MINUS []
                   (lit "3") (int_literal "3") _ _ _ _));
    try reflexivity; try (apply factor_int_literal; reflexivity).
  left. reflexivity.
Defined.

(** ** Valid expressions *)

(** C9, as stated, fails: "1/0" is an expression of the grammar, made of
    digits and a division sign, and evaluate raises ZeroDivisionError. *)
Lemma valid_expression_counterexample :
  Grammar.expr (lit "1/0")
    (BinOp (int_literal "1") (op_token DIV "/") (int_literal "0"))
  /\ evaluate (lit "1/0") = Raise ZeroDivisionError.
Proof.
  split; [|vm_compute; reflexivity].
  apply expr_of_term.
  apply (term_of_two (lit "1") (int_literal "1") "/"%char DIV []
           (lit "0") (int_literal "0"));
    try reflexivity; apply factor_int_literal; reflexivity.
Qed.

(** C9, amended: evaluate terminates on every text.  On an expression of
    the grammar it returns the value of the tree of the grammar, a number,
    unless the evaluation raises ZeroDivisionError, which it does only in
    a division it applies, or OverflowError (a value too large for a
    float); without division sign and dot, it returns an int. *)
Theorem valid_expression_evaluates e t :
  Grammar.expr e t ->
  evaluate e <> OutOfFuel
  /\ evaluate e = visit t
  /\ ((exists v, evaluate e = Return v)
      \/ evaluate e = Raise ZeroDivisionError
      \/ evaluate e = Raise OverflowError)
  /\ (evaluate e = Raise ZeroDivisionError ->
      exists x y, applies t DIV x y
                  /\ py_truediv x y = Raise ZeroDivisionError)
  /\ (forallb plain e = true -> exists z, evaluate e = Return (PyInt z)).
Proof.
  intros He. pose proof (evaluate_grammar e t He) as Hv.
  split; [apply evaluate_total|]. split; [exact Hv|]. rewrite Hv.
  destruct grammar_operators_known as (_ & _ & _ & Hk & _).
  destruct grammar_integer_arithmetic as (_ & _ & _ & Hi & _).
  split; [exact (visit_outcome t (Hk e t He))|].
  split; [apply visit_ZeroDivisionError|].
  intros Hp. exact (integer_arithmetic_visit t (Hi e t He Hp)).
Qed.

Lemma valid_expression_evaluates_witness :
  evaluate (lit "2") = visit (int_literal "2").
Proof.
  refine (proj1 (proj2 (valid_expression_evaluates (lit "2")
                          (int_literal "2") _))).
  apply expr_of_factor, factor_int_literal. reflexivity.
Defined.

(** ** The function calc *)

(** C10: on every text, calc raises NameError for the name Evaluator, which
    the module does not define, and returns nothing; the method evaluate of
    Calculator does evaluate. *)
Theorem calc_raises_NameError :
  lookup "Evaluator" globals = None
  /\ (forall text, calc text = Raise (NameError "Evaluator"))
  /\ evaluate (lit "2 + 3") = Return (PyInt 5).
Proof.
  split; [reflexivity|]. split; [reflexivity | vm_compute; reflexivity].
Qed.

(** * The lexer, run to the end of the text *)

(** * More of the code *)

(** ** The whole token sequence of a text *)

Lemma re_match_prefix table : forall t tokname v,
  re_match table t = Some (tokname, v) -> t = v ++ skipn (length v) t.
Proof.
  induction table as [|[n re] table IH]; intros t tokname v; simpl.
  - discriminate.
  - destruct (match_pattern re t) as [v'|] eqn:E.
    + intros [= <- <-]. now apply match_pattern_prefix with (re := re).
    + apply IH.
Qed.

Lemma next_any_Return self g tok g' :
  next self g = Return (tok, g') ->
  pos g <= length (text g) ->
  exists v, value tok = Some v /\ text g' = text g
            /\ pos g' = pos g + length v /\ pos g' <= length (text g)
            /\ skipn (pos g) (text g) = v ++ skipn (pos g') (text g).
Proof.
  unfold next. intros H Hp.
  destruct (re_match _ _) as [[n v]|] eqn:E.
  - injection H as <- <-. simpl. exists v.
    apply re_match_prefix in E.
    assert (Hl : length (skipn (pos g) (text g))
                 = length v + length (skipn (length v) (skipn (pos g) (text g))))
      by (rewrite E at 1; apply length_app).
    rewrite length_skipn in Hl.
    repeat split; try lia.
    rewrite E at 1. now rewrite skipn_skipn, Nat.add_comm.
  - destruct (_ =? _); discriminate.
Qed.

Lemma next_any_Raise self g e :
  next self g = Raise e ->
  re_match (lexemes self) (skipn (pos g) (text g)) = None
  /\ ((e = StopIteration /\ pos g = length (text g))
      \/ (e = TokenizerException (pos g) (length (text g)) (text g)
          /\ pos g <> length (text g))).
Proof.
  unfold next.
  destruct (re_match _ _) as [[n v]|] eqn:E; [discriminate|].
  destruct (_ =? _) eqn:Ep; intros [= <-]; split; trivial.
  - left. split; trivial. now apply Nat.eqb_eq.
  - right. split; trivial. now apply Nat.eqb_neq.
Qed.

(** What the generator yields is the text from its position to the
    position where it stops, and no pattern matches there. *)
Lemma drain_spec self fuel : forall g toks e,
  drain self fuel g = Some (toks, e) ->
  pos g <= length (text g) ->
  exists q,
    pos g <= q <= length (text g)
    /\ skipn (pos g) (text g)
       = concat (map token_text toks) ++ skipn q (text g)
    /\ re_match (lexemes self) (skipn q (text g)) = None
    /\ ((q = length (text g) /\ e = StopIteration)
        \/ (q < length (text g)
            /\ e = TokenizerException q (length (text g)) (text g))).
Proof.
  induction fuel as [|fuel IH]; intros g toks e; simpl; [discriminate|].
  destruct (next self g) as [[tok g']|e'|] eqn:En; [| |discriminate].
  - destruct (drain self fuel g') as [[toks' e']|] eqn:Ed; [|discriminate].
    intros [= <- <-] Hp.
    destruct (next_any_Return _ _ _ _ En Hp) as (v & Hv & Ht & Hp' & Hl & Hs).
    destruct (IH _ _ _ Ed) as (q & Hq & Hc & Hm & He);
      [rewrite Ht; exact Hl|].
    rewrite Ht in *. exists q. split; [lia|]. split; [|now split].
    simpl. unfold token_text at 1. rewrite Hv, Hs, Hc.
    now rewrite app_assoc.
  - intros [= <- <-] Hp. apply next_any_Raise in En.
    destruct En as (Hm & He). exists (pos g).
    split; [lia|]. split; [reflexivity|]. split; [exact Hm|].
    destruct He as [(-> & Hq)|(-> & Hq)]; [left | right]; split;
      trivial; lia.
Qed.

Lemma firstn_of_app {A} (l a b : list A) :
  l = a ++ b -> firstn (length a) l = a.
Proof.
  intros ->. rewrite firstn_app, Nat.sub_diag, firstn_all. simpl.
  now rewrite app_nil_r.
Qed.

Lemma tokens_of_spec self text toks e :
  tokens_of self text = Some (toks, e) ->
  (e = StopIteration /\ concat (map token_text toks) = text)
  \/ (exists p,
        e = TokenizerException p (length text) text
        /\ p < length text
        /\ concat (map token_text toks) = firstn p text
        /\ re_match (lexemes self) (skipn p text) = None).
Proof.
  intros H. apply drain_spec in H; [|simpl; lia].
  destruct H as (q & Hq & Hc & Hm & He). simpl in *.
  rewrite skipn_O in Hc.
  assert (Hl : length text
               = length (concat (map token_text toks)) + (length text - q))
    by (rewrite Hc at 1; now rewrite length_app, length_skipn).
  destruct He as [(-> & ->)|(Hlt & ->)].
  - left. split; trivial.
    rewrite skipn_all in Hc. now rewrite app_nil_r in Hc.
  - right. exists q. repeat split; trivial.
    pose proof (firstn_of_app text _ _ Hc) as Hf.
    replace (length (concat (map token_text toks))) with q in Hf by lia.
    now rewrite Hf.
Qed.



Lemma span_forallb p t : forallb p (span p t) = true.
Proof.
  induction t as [|c t IH]; simpl; [reflexivity|].
  destruct (p c) eqn:E; simpl; [now rewrite E | reflexivity].
Qed.

Lemma punctuation_name c k :
  punctuation c = Some k ->
  k = PLUS \/ k = MINUS \/ k = LPAREN \/ k = RPAREN \/ k = MUL \/ k = DIV.
Proof.
  unfold punctuation.
  repeat match goal with
         | |- context [if ?b then _ else _] => destruct b
         end; intros [= <-]; tauto.
Qed.

(** A token of the lexer has the text of its name. *)
Lemma re_match_well_lexed t k v :
  re_match (lexemes lexer) t = Some (k, v) ->
  well_lexed (mkToken k (Some v)) = true.
Proof.
  destruct t as [|c rest]; [discriminate|].
  rewrite re_match_cons.
  destruct (is_digit c) eqn:Hd.
  - destruct rest as [|d rest'].
    + intros [= <- <-]. unfold well_lexed. simpl. now rewrite Hd.
    + destruct (Ascii.eqb d ".") eqn:Hdot.
      * pose proof (span_forallb is_digit rest') as Hs.
        destruct (span is_digit rest') as [|f0 f];
          intros [= <- <-]; unfold well_lexed; simpl.
        -- now rewrite Hd.
        -- simpl in Hs. now rewrite Hd, Hdot, Hs.
      * intros [= <- <-]. unfold well_lexed.
        cbn [name value all_digits forallb]. rewrite Hd.
        apply (span_forallb is_digit (d :: rest')).
  - destruct (is_space c) eqn:Hs.
    + intros [= <- <-]. unfold well_lexed. simpl. rewrite Hs. simpl.
      apply span_forallb.
    + destruct (punctuation c) as [k'|] eqn:Hp; [|discriminate].
      intros [= <- <-]. unfold well_lexed. simpl. rewrite Hp.
      destruct (punctuation_name _ _ Hp) as [->|[->|[->|[->|[->| ->]]]]];
        reflexivity.
Qed.

Lemma next_well_lexed g tok g' :
  next lexer g = Return (tok, g') -> well_lexed tok = true.
Proof.
  unfold next. destruct (re_match _ _) as [[k v]|] eqn:E.
  - intros [= <- _]. eapply re_match_well_lexed, E.
  - destruct (_ =? _); discriminate.
Qed.

Lemma drain_well_lexed fuel : forall g toks e,
  drain lexer fuel g = Some (toks, e) ->
  Forall (fun tok => well_lexed tok = true) toks.
Proof.
  induction fuel as [|fuel IH]; intros g toks e; simpl; [discriminate|].
  destruct (next lexer g) as [[tok g']|e'|] eqn:En; [| |discriminate].
  - destruct (drain lexer fuel g') as [[toks' e']|] eqn:Ed; [|discriminate].
    intros [= <- <-]. constructor; [eapply next_well_lexed, En|].
    eapply IH, Ed.
  - intros [= <- <-]. constructor.
Qed.

(** X2.  Every token that the lexer of the parser yields has a text of the
    class of its name: digits for INTEGER, a digit, a dot and digits for
    FLOAT, whitespace for WHITESPACE, the one character of the operator or
    parenthesis otherwise; none is named EOF. *)
Theorem tokens_well_lexed text toks e :
  tokens_of lexer text = Some (toks, e) ->
  Forall (fun tok => well_lexed tok = true) toks.
Proof. apply drain_well_lexed. Qed.

Lemma tokens_well_lexed_witness :
  Forall (fun tok => well_lexed tok = true)
    [mkToken FLOAT (Some (lit "1.5")); mkToken MUL (Some (lit "*"));
     mkToken INTEGER (Some (lit "20"))].
Proof.
  exact (tokens_well_lexed (lit "1.5*20") _ StopIteration eq_refl).
Defined.

Lemma drain_terminates fuel : forall g,
  pos g <= length (text g) ->
  length (text g) - pos g < fuel ->
  drain lexer fuel g <> None.
Proof.
  induction fuel as [|fuel IH]; intros g Hp Hf; simpl; [lia|].
  destruct (next lexer g) as [[tok g']|e'|] eqn:En.
  - apply next_Return in En. destruct En as (_ & Ht & Hlt & _).
    assert (Hd : drain lexer fuel g' <> None)
      by (apply IH; rewrite Ht; lia).
    destruct (drain lexer fuel g') as [[toks' e']|]; congruence.
  - discriminate.
  - now apply next_terminates in En.
Qed.

Lemma well_lexed_nonempty tok :
  well_lexed tok = true -> 1 <= length (token_text tok).
Proof.
  unfold well_lexed, token_text.
  destruct (name tok), (value tok) as [[|c [|d f]]|]; simpl;
    try discriminate; intros; lia.
Qed.

Lemma concat_length_bound toks :
  Forall (fun tok => well_lexed tok = true) toks ->
  length toks <= length (concat (map token_text toks)).
Proof.
  induction 1 as [|tok toks Htok _ IH]; simpl; [lia|].
  rewrite length_app. apply well_lexed_nonempty in Htok. lia.
Qed.

(** X3.  tokenize, with the lexemes of the parser, ends on every text,
    with StopIteration or a TokenizerException; it yields no empty token,
    and so no more tokens than the text has characters. *)
Theorem tokenize_terminates text :
  exists toks e,
    tokens_of lexer text = Some (toks, e)
    /\ Forall (fun tok => token_text tok <> []) toks
    /\ length toks <= length text
    /\ (e = StopIteration \/ exists p, e = TokenizerException p (length text) text).
Proof.
  destruct (tokens_of lexer text) as [[toks e]|] eqn:E.
  - exists toks, e. split; trivial.
    pose proof (drain_well_lexed _ _ _ _ E) as Hw.
    split; [|split].
    + eapply Forall_impl; [|exact Hw]. intros tok Ht Hn.
      apply well_lexed_nonempty in Ht. rewrite Hn in Ht. simpl in Ht. lia.
    + pose proof (concat_length_bound _ Hw) as Hl.
      destruct (tokens_of_spec _ _ _ _ E) as [(_ & Hc)|(p & _ & Hp & Hc & _)].
      * now rewrite Hc in Hl.
      * rewrite Hc, length_firstn in Hl. lia.
    + destruct (tokens_of_spec _ _ _ _ E) as [(-> & _)|(p & -> & _)];
        eauto.
  - exfalso. revert E. apply drain_terminates; simpl; lia.
Qed.

Lemma span_rest_cons p c t :
  p c = true ->
  match skipn (length (c :: span p t)) (c :: t) with
  | [] => True
  | d :: _ => p d = false
  end.
Proof. intros _. simpl. rewrite skipn_cons. apply span_rest. Qed.

Lemma re_match_token_ended t k v :
  re_match (lexemes lexer) t = Some (k, v) ->
  token_ended (mkToken k (Some v)) (skipn (length v) t).
Proof.
  destruct t as [|c rest]; [discriminate|].
  rewrite re_match_cons.
  destruct (is_digit c) eqn:Hd.
  - destruct rest as [|d rest'].
    + intros [= <- <-]. exact I.
    + destruct (Ascii.eqb d ".") eqn:Hdot.
      * pose proof (span_rest is_digit rest') as Hs.
        destruct (span is_digit rest') as [|f0 f] eqn:Es;
          intros [= <- <-].
        -- simpl.
           apply Ascii.eqb_eq in Hdot. subst d.
           split; [discriminate | reflexivity].
        -- change (skipn (length (c :: d :: f0 :: f)) (c :: d :: rest'))
             with (skipn (length (f0 :: f)) rest').
           unfold token_ended.
           destruct (skipn (length (f0 :: f)) rest') as [|e r]; [exact I|].
           split; [discriminate | now intros _].
      * intros [= <- <-].
        pose proof (span_rest_cons is_digit c (d :: rest') Hd) as Hs.
        unfold token_ended.
        destruct (skipn _ _) as [|e r]; [exact I|].
        split; [discriminate | now intros _].
  - destruct (is_space c) eqn:Hs.
    + intros [= <- <-].
      pose proof (span_rest_cons is_space c rest Hs) as Hr.
      unfold token_ended.
      destruct (skipn _ _) as [|e r]; [exact I|].
      split; [now intros _ | discriminate].
    + destruct (punctuation c) as [k'|] eqn:Hp; [|discriminate].
      intros [= <- <-]. unfold token_ended.
      destruct (skipn _ _) as [|e r]; [exact I|]. simpl.
      destruct (punctuation_name _ _ Hp) as [->|[->|[->|[->|[->| ->]]]]];
        split; discriminate.
Qed.

Lemma token_ended_next prev t k v :
  token_ended prev t ->
  re_match (lexemes lexer) t = Some (k, v) ->
  cannot_follow prev (mkToken k (Some v)) = false.
Proof.
  destruct t as [|c rest]; [discriminate|].
  intros (Hw & Hn). rewrite re_match_cons. unfold cannot_follow.
  destruct (TokenName_eqb (name prev) WHITESPACE) eqn:Ew.
  - apply TokenName_eqb_eq in Ew. rewrite (Hw Ew).
    assert (Hnp : is_number_token prev = false)
      by (unfold is_number_token; now rewrite Ew).
    rewrite Hnp.
    destruct (is_digit c).
    + destruct rest as [|d rest']; [intros [= <- <-]; reflexivity|].
      destruct (Ascii.eqb d ".");
        [destruct (span is_digit rest')|]; intros [= <- <-]; reflexivity.
    + destruct (punctuation c) as [k'|] eqn:Hp; [|discriminate].
      intros [= <- <-]. simpl.
      destruct (punctuation_name _ _ Hp) as [->|[->|[->|[->|[->| ->]]]]];
        reflexivity.
  - simpl. destruct (is_number_token prev) eqn:En; [|reflexivity].
    rewrite (Hn eq_refl).
    destruct (is_space c); [intros [= <- <-]; reflexivity|].
    destruct (punctuation c) as [k'|] eqn:Hp; [|discriminate].
    intros [= <- <-]. simpl.
    destruct (punctuation_name _ _ Hp) as [->|[->|[->|[->|[->| ->]]]]];
      reflexivity.
Qed.

Lemma drain_munched fuel : forall g toks e prev,
  drain lexer fuel g = Some (toks, e) ->
  token_ended prev (skipn (pos g) (text g)) ->
  munched (prev :: toks) = true.
Proof.
  induction fuel as [|fuel IH]; intros g toks e prev; simpl;
    [discriminate|].
  unfold next.
  destruct (re_match (lexemes lexer) (skipn (pos g) (text g)))
    as [[k v]|] eqn:Em.
  - destruct (drain lexer fuel _) as [[toks' e']|] eqn:Ed; [|discriminate].
    intros [= <- <-] Hprev.
    rewrite (token_ended_next _ _ _ _ Hprev Em). simpl.
    apply (IH _ _ _ _ Ed). simpl.
    rewrite Nat.add_comm, <- skipn_skipn.
    now apply re_match_token_ended.
  - destruct (_ =? _); intros [= <- <-] _; reflexivity.
Qed.

Lemma tokens_of_munched text toks e :
  tokens_of lexer text = Some (toks, e) -> munched toks = true.
Proof.
  unfold tokens_of. intros H.
  assert (Hm : munched (mkToken PLUS None :: toks) = true).
  { apply (drain_munched _ _ _ _ _ H).
    unfold token_ended. destruct (skipn _ _); [exact I|].
    split; discriminate. }
  destruct toks as [|b rest]; [reflexivity|].
  cbn [munched] in Hm. apply andb_prop in Hm. exact (proj2 Hm).
Qed.

(** X4.  tokenize takes the longest token: in the sequence it yields, no
    WHITESPACE token follows a WHITESPACE token, and no INTEGER or FLOAT
    token follows an INTEGER or FLOAT token. *)
Theorem tokenize_longest_match text toks e :
  tokens_of lexer text = Some (toks, e) -> munched toks = true.
Proof. apply tokens_of_munched. Qed.

Lemma tokenize_longest_match_witness :
  munched [mkToken INTEGER (Some (lit "12")); mkToken WHITESPACE (Some (lit "  "));
           mkToken INTEGER (Some (lit "34"))] = true.
Proof.
  exact (tokenize_longest_match (lit "12  34") _ StopIteration eq_refl).
Defined.

Lemma unmatched_character t :
  re_match (lexemes lexer) t = None ->
  match t with [] => True | c :: _ => starts_token c = false end.
Proof.
  destruct t as [|c rest]; [trivial|].
  rewrite re_match_cons. unfold starts_token.
  destruct (is_digit c).
  - destruct rest as [|d rest']; [discriminate|].
    destruct (Ascii.eqb d "."); [destruct (span is_digit rest')|];
      discriminate.
  - destruct (is_space c); [discriminate|].
    now destruct (punctuation c).
Qed.

Lemma skipn_nth_error {A} (l : list A) p c rest :
  skipn p l = c :: rest -> nth_error l p = Some c.
Proof.
  revert l. induction p as [|p IH]; intros [|a l]; simpl;
    rewrite ?skipn_O, ?skipn_nil, ?skipn_cons; try discriminate.
  - now intros [= -> _].
  - apply IH.
Qed.

Lemma tokens_of_stops_at text toks p n t :
  tokens_of lexer text = Some (toks, TokenizerException p n t) ->
  exists c, nth_error text p = Some c /\ starts_token c = false.
Proof.
  intros H. apply tokens_of_spec in H.
  destruct H as [(H & _)|(q & H & Hq & _ & Hm)]; [discriminate|].
  injection H as -> _ _.
  apply unmatched_character in Hm.
  destruct (skipn q text) as [|c rest] eqn:Es.
  - apply (f_equal (@length ascii)) in Es. rewrite length_skipn in Es.
    simpl in Es. lia.
  - exists c. split; [|exact Hm]. eapply skipn_nth_error, Es.
Qed.

Lemma tokens_of_alphabet text :
  forallb starts_token text = true ->
  exists toks, tokens_of lexer text = Some (toks, StopIteration).
Proof.
  intros Hall.
  destruct (tokens_of lexer text) as [[toks e]|] eqn:E.
  - exists toks. f_equal. f_equal.
    destruct (tokens_of_spec _ _ _ _ E) as [(-> & _)|(p & -> & _)];
      [reflexivity|].
    apply tokens_of_stops_at in E. destruct E as (c & Hc & Hs).
    apply nth_error_In in Hc.
    rewrite forallb_forall in Hall. rewrite (Hall c Hc) in Hs.
    discriminate.
  - exfalso. revert E. apply drain_terminates; simpl; lia.
Qed.

(** X5.  tokenize reads to the end every text made of digits, whitespace,
    operators and parentheses; and when it raises TokenizerException, the
    character at the offset it reports is none of these (it starts no
    token). *)
Theorem tokenize_alphabet text :
  (forallb starts_token text = true ->
   exists toks, tokens_of lexer text = Some (toks, StopIteration))
  /\ (forall toks p n t,
        tokens_of lexer text = Some (toks, TokenizerException p n t) ->
        exists c, nth_error text p = Some c /\ starts_token c = false).
Proof.
  split; [apply tokens_of_alphabet | apply tokens_of_stops_at].
Qed.

Lemma tokenize_alphabet_witness :
  exists toks, tokens_of lexer (lit "(1+2) * 3") = Some (toks, StopIteration).
Proof.
  exact (proj1 (tokenize_alphabet (lit "(1+2) * 3")) eq_refl).
Defined.

(** * The parser reads only the grammar *)

Lemma firstn_add {A} n m (l : list A) :
  firstn (n + m) l = firstn n l ++ firstn m (skipn n l).
Proof.
  revert l. induction n as [|n IH]; intros [|a l]; simpl;
    rewrite ?skipn_O, ?skipn_nil, ?firstn_nil, ?skipn_cons; trivial.
  now rewrite IH.
Qed.

Lemma slice_app txt a b c :
  a <= b -> b <= c -> slice txt a b ++ slice txt b c = slice txt a c.
Proof.
  intros Hab Hbc. unfold slice.
  replace (c - a) with ((b - a) + (c - b)) by lia.
  rewrite firstn_add, skipn_skipn.
  now replace (b - a + a) with b by lia.
Qed.

Lemma slice_nil txt a : slice txt a a = [].
Proof. unfold slice. now rewrite Nat.sub_diag. Qed.

Lemma slice_cons txt a b c :
  slice txt a (a + 1) = [c] -> a + 1 <= b ->
  slice txt a b = c :: slice txt (a + 1) b.
Proof.
  intros H Hb. rewrite <- (slice_app txt a (a + 1) b) by lia. now rewrite H.
Qed.

Lemma at_token_inv txt s self :
  at_token txt s self ->
  (self = mkParser (mkToken EOF None) (mkGenerator txt s) /\ s = length txt)
  \/ exists k v,
       self = mkParser (mkToken k (Some v)) (mkGenerator txt (s + length v))
       /\ well_lexed (mkToken k (Some v)) = true
       /\ s + length v <= length txt
       /\ slice txt s (s + length v) = v.
Proof.
  intros (Hs & H). unfold pull in H. rewrite next_at in H.
  destruct (re_match (lexemes lexer) (skipn s txt)) as [[k v]|] eqn:Em.
  - right. exists k, v. injection H as <-. split; [reflexivity|].
    split; [now apply re_match_well_lexed with (t := skipn s txt)|].
    apply re_match_prefix in Em.
    split.
    + apply (f_equal (@length ascii)) in Em.
      rewrite length_app, !length_skipn in Em. lia.
    + unfold slice. replace (s + length v - s) with (length v) by lia.
      now apply firstn_of_app with (b := skipn (length v) (skipn s txt)).
  - destruct (s =? length txt) eqn:E; [|discriminate].
    injection H as <-. apply Nat.eqb_eq in E. now left.
Qed.

Lemma pull_outcome txt s :
  s <= length txt ->
  match pull (mkGenerator txt s) with
  | Return self => at_token txt s self
  | Raise e => parser_error e
  | OutOfFuel => False
  end.
Proof.
  intros Hs. destruct (pull (mkGenerator txt s)) as [self|e|] eqn:E.
  - now split.
  - unfold pull in E. rewrite next_at in E.
    destruct (re_match _ _) as [[k v]|]; [discriminate|].
    destruct (_ =? _); [discriminate|]. now injection E as <-.
  - now apply pull_terminates in E.
Qed.

(** [eat], called with the name of the lookahead, moves to the next token. *)
Lemma eat_step txt s self k :
  at_token txt s self -> name (current_token self) = k ->
  match eat k self with
  | Return self1 =>
      at_token txt (s + length (token_text (current_token self))) self1
  | Raise e => parser_error e
  | OutOfFuel => False
  end.
Proof.
  intros Hat Hk. rewrite (eat_pull _ _ Hk).
  destruct (at_token_inv _ _ _ Hat) as [(-> & Hs)|(k' & v & -> & _ & Hv & _)];
    cbn [tokens current_token token_text value].
  - rewrite Nat.add_0_r. apply pull_outcome. lia.
  - now apply pull_outcome.
Qed.

Lemma eat_whitespace_noop fuel self :
  name (current_token self) <> WHITESPACE ->
  match eat_whitespace fuel self with
  | Return self' => self' = self
  | Raise _ => False
  | OutOfFuel => True
  end.
Proof.
  intros Hn. destruct fuel as [|fuel]; simpl; [exact I|].
  apply TokenName_eqb_neq in Hn. now rewrite Hn.
Qed.

Lemma whitespace_token v :
  well_lexed (mkToken WHITESPACE (Some v)) = true -> Grammar.whitespace v.
Proof.
  unfold well_lexed. cbn [name value]. now destruct v as [|c v].
Qed.

Lemma whitespace_app a b :
  Grammar.whitespace a -> Grammar.whitespace b -> Grammar.whitespace (a ++ b).
Proof.
  unfold Grammar.whitespace. intros Ha Hb. rewrite forallb_app.
  now rewrite Ha, Hb.
Qed.

Lemma eat_whitespace_step fuel : forall txt s self,
  at_token txt s self ->
  match eat_whitespace fuel self with
  | Return self' =>
      exists s', s <= s' /\ at_token txt s' self'
                 /\ name (current_token self') <> WHITESPACE
                 /\ Grammar.whitespace (slice txt s s')
  | Raise e => parser_error e
  | OutOfFuel => True
  end.
Proof.
  induction fuel as [|fuel IH]; intros txt s self Hat; simpl; [exact I|].
  destruct (TokenName_eqb (name (current_token self)) WHITESPACE) eqn:Ew.
  - apply TokenName_eqb_eq in Ew.
    pose proof (eat_step _ _ _ _ Hat Ew) as He.
    destruct (at_token_inv _ _ _ Hat)
      as [(-> & _)|(k & v & -> & Hw & Hv & Hsl)]; [discriminate|].
    cbn [current_token name token_text value] in *. subst k.
    destruct (eat WHITESPACE _) as [self1|e|]; cbn [bind];
      [|exact He|contradiction].
    specialize (IH _ _ _ He).
    destruct (eat_whitespace fuel self1) as [self'|e|]; trivial.
    destruct IH as (s' & Hs' & Hat' & Hn & Hws).
    exists s'. split; [lia|]. split; [exact Hat'|]. split; [exact Hn|].
    rewrite <- (slice_app txt s (s + length v) s') by lia.
    rewrite Hsl. apply whitespace_app; [|exact Hws].
    now apply whitespace_token.
  - apply TokenName_eqb_neq in Ew.
    exists s. split; [lia|]. split; [exact Hat|]. split; [exact Ew|].
    now rewrite slice_nil.
Qed.

Lemma punctuation_inv c k :
  punctuation c = Some k ->
  match k with
  | PLUS => c = "+"%char
  | MINUS => c = "-"%char
  | LPAREN => c = "("%char
  | RPAREN => c = ")"%char
  | MUL => c = "*"%char
  | DIV => c = "/"%char
  | _ => False
  end.
Proof.
  unfold punctuation.
  repeat match goal with
         | |- context [Ascii.eqb c ?d] =>
             let E := fresh "E" in
             destruct (Ascii.eqb c d) eqn:E;
             [apply Ascii.eqb_eq in E; now intros [= <-]|]
         end.
  discriminate.
Qed.

(** The value of a well-formed token of punctuation is its character. *)
Lemma punctuation_token k v :
  well_lexed (mkToken k (Some v)) = true ->
  match k with
  | INTEGER | FLOAT | WHITESPACE | EOF => True
  | _ => exists c, v = [c] /\ punctuation c = Some k
  end.
Proof.
  unfold well_lexed. cbn [name value].
  destruct k; trivial;
    (destruct v as [|c [|d v]]; try discriminate;
     destruct (punctuation c) as [k'|] eqn:Ep; try discriminate;
     intros Hk; apply TokenName_eqb_eq in Hk; subst k';
     now exists c).
Qed.

Lemma py_float_digits c f :
  is_digit c = true -> all_digits f = true ->
  exists v, py_float (c :: "."%char :: f) = Return v.
Proof.
  intros Hc Hf. unfold py_float.
  cbn [span]. rewrite Hc. cbn [span is_digit].
  change (is_digit "."%char) with false. cbn [length].
  change (skipn 1 (c :: "."%char :: f)) with ("."%char :: f).
  assert (Hcd : all_digits [c] = true) by (simpl; now rewrite Hc).
  rewrite Hcd, Hf. simpl. eauto.
Qed.

(** The fact [H] about the outcome of the next call of a sequence: go on
    with what it returned. *)
Tactic Notation "next_call" hyp(H) "as" simple_intropattern(a) :=
  match type of H with
  | match ?m with _ => _ end =>
      destruct m as [a|?|] eqn:?; cbn [bind];
      [ | first [exact H | contradiction]
        | first [exact I | contradiction] ]
  end.

Lemma factor_cases_parsed fuel txt s self :
  (forall s1 self1, at_token txt s1 self1 ->
     parsed Grammar.expr txt s1 (parse_expr fuel self1)) ->
  (forall s1 self1, at_token txt s1 self1 ->
     parsed Grammar.factor txt s1 (parse_factor fuel self1)) ->
  at_token txt s self ->
  match factor_cases fuel self with
  | Return (t, self') =>
      exists s', s <= s' /\ at_token txt s' self'
                 /\ Grammar.factor (slice txt s s') t
  | Raise e => parser_error e
  | OutOfFuel => True
  end.
Proof.
  intros IHe IHf Hat. unfold factor_cases.
  pose proof (eat_step _ _ _ _ Hat eq_refl) as Heat.
  destruct (at_token_inv _ _ _ Hat)
    as [(-> & _)|(k & v & -> & Hw & Hv & Hsl)]; [reflexivity|].
  cbn [current_token name token_text value] in *.
  pose proof (punctuation_token _ _ Hw) as Hp.
  destruct k; try reflexivity.
  - (* FLOAT *)
    next_call Heat as self1.
    unfold well_lexed in Hw. cbn [name value] in Hw.
    destruct v as [|c [|d f]]; try discriminate.
    { destruct (punctuation c) as [k'|] eqn:Ek; [|discriminate].
      destruct (punctuation_name _ _ Ek) as [->|[->|[->|[->|[->| ->]]]]];
        discriminate. }
    apply andb_prop in Hw. destruct Hw as (Hw & Hf).
    apply andb_prop in Hw. destruct Hw as (Hc & Hd).
    apply Ascii.eqb_eq in Hd. subst d.
    destruct (py_float_digits c f Hc Hf) as (x & Hx).
    unfold mkNumber. cbn [value]. rewrite Hx. cbn [bind].
    exists (s + length (c :: "."%char :: f)).
    split; [lia|]. split; [exact Heat|]. rewrite Hsl.
    now apply Grammar.factor_FLOAT.
  - (* INTEGER *)
    next_call Heat as self1.
    unfold well_lexed in Hw. cbn [name value] in Hw.
    unfold mkNumber, py_int. cbn [value]. rewrite Hw. cbn [bind].
    exists (s + length v).
    split; [lia|]. split; [exact Heat|]. rewrite Hsl.
    apply Grammar.factor_INTEGER; [exact Hw|].
    unfold py_int. now rewrite Hw.
  - (* MINUS *)
    destruct Hp as (c & -> & Hc). apply punctuation_inv in Hc. subst c.
    next_call Heat as self1. cbn [length] in Heat.
    pose proof (IHf _ _ Heat) as Hf. unfold parsed in Hf.
    next_call Hf as [t self2].
    destruct Hf as (s2 & Hs2 & Hat2 & _ & Hg).
    exists s2. split; [lia|]. split; [exact Hat2|].
    rewrite (slice_cons txt s s2 "-"%char Hsl Hs2).
    now apply Grammar.factor_MINUS.
  - (* LPAREN *)
    destruct Hp as (c & -> & Hc). apply punctuation_inv in Hc. subst c.
    next_call Heat as self1. cbn [length] in Heat.
    pose proof (eat_whitespace_step fuel _ _ _ Heat) as H1.
    next_call H1 as self2. destruct H1 as (s2 & Hs2 & Hat2 & _ & Hw1).
    pose proof (IHe _ _ Hat2) as H2. unfold parsed in H2.
    next_call H2 as [t self3].
    destruct H2 as (s3 & Hs3 & Hat3 & _ & Hg).
    pose proof (eat_whitespace_step fuel _ _ _ Hat3) as H3.
    next_call H3 as self4. destruct H3 as (s4 & Hs4 & Hat4 & _ & Hw2).
    destruct (TokenName_eqb (name (current_token self4)) RPAREN) eqn:Er.
    + apply TokenName_eqb_eq in Er.
      pose proof (eat_step _ _ _ _ Hat4 Er) as H5.
      next_call H5 as self5.
      destruct (at_token_inv _ _ _ Hat4)
        as [(-> & _)|(k4 & v4 & -> & Hw4 & Hv4 & Hsl4)]; [discriminate|].
      cbn [current_token name token_text value] in *. subst k4.
      destruct (punctuation_token _ _ Hw4) as (c & -> & Hc).
      apply punctuation_inv in Hc. subst c. cbn [length] in *.
      exists (s4 + 1). split; [lia|]. split; [exact H5|].
      rewrite (slice_cons txt s (s4 + 1) "("%char Hsl) by lia.
      rewrite <- (slice_app txt (s + 1) s2 (s4 + 1)) by lia.
      rewrite <- (slice_app txt s2 s3 (s4 + 1)) by lia.
      rewrite <- (slice_app txt s3 s4 (s4 + 1)) by lia.
      rewrite Hsl4. now apply Grammar.factor_LPAREN.
    + unfold eat. rewrite Er. cbn [bind parser_error].
      apply TokenName_eqb_neq in Er. now split.
Qed.

Lemma parse_factor_parsed fuel txt s self :
  (forall s1 self1, at_token txt s1 self1 ->
     parsed Grammar.expr txt s1 (parse_expr fuel self1)) ->
  (forall s1 self1, at_token txt s1 self1 ->
     parsed Grammar.factor txt s1 (parse_factor fuel self1)) ->
  at_token txt s self ->
  parsed Grammar.factor txt s (parse_factor (S fuel) self).
Proof.
  intros IHe IHf Hat. rewrite parse_factor_S. unfold parsed.
  pose proof (factor_cases_parsed fuel _ _ _ IHe IHf Hat) as H1.
  next_call H1 as [t self1].
  destruct H1 as (s1 & Hs1 & Hat1 & Hg).
  pose proof (eat_whitespace_step fuel _ _ _ Hat1) as H2.
  next_call H2 as self2. destruct H2 as (s2 & Hs2 & Hat2 & Hn & Hw).
  exists s2. split; [lia|]. split; [exact Hat2|]. split; [exact Hn|].
  rewrite <- (slice_app txt s s1 s2) by lia.
  now apply Grammar.factor_WHITESPACE.
Qed.

(** parse_binop, at an operator the grammar relates by [opclass] to its
    token name, reads the operator, whitespace and an operand. *)
Lemma parse_binop_parsed fuel l callback gram txt s self :
  (forall s1 self1, at_token txt s1 self1 ->
     parsed gram txt s1 (callback self1)) ->
  at_token txt s self ->
  match_multop self = true \/ match_addop self = true ->
  match parse_binop fuel l callback self with
  | Return (node, self') =>
      exists c k w x t s',
        node = BinOp l (mkToken k (Some [c])) t
        /\ current_token self = mkToken k (Some [c])
        /\ punctuation c = Some k
        /\ Grammar.whitespace w /\ gram x t
        /\ slice txt s s' = c :: w ++ x
        /\ s <= s' /\ at_token txt s' self'
        /\ name (current_token self') <> WHITESPACE
  | Raise e => parser_error e
  | OutOfFuel => True
  end.
Proof.
  intros Hcb Hat Hop. unfold parse_binop.
  pose proof (eat_step _ _ _ _ Hat eq_refl) as Heat.
  destruct (at_token_inv _ _ _ Hat)
    as [(-> & _)|(k & v & -> & Hw & Hv & Hsl)].
  { destruct Hop; discriminate. }
  cbn [current_token name token_text value] in *.
  assert (Hp : exists c, v = [c] /\ punctuation c = Some k).
  { pose proof (punctuation_token _ _ Hw) as Hp.
    unfold match_multop, match_addop in Hop. cbn [current_token name] in Hop.
    destruct k; trivial; destruct Hop; discriminate. }
  destruct Hp as (c & -> & Hc). cbn [length] in *.
  next_call Heat as self1.
  pose proof (eat_whitespace_step fuel _ _ _ Heat) as H1.
  next_call H1 as self2. destruct H1 as (s2 & Hs2 & Hat2 & _ & Hw1).
  pose proof (Hcb _ _ Hat2) as H2. unfold parsed in H2.
  next_call H2 as [t self3].
  destruct H2 as (s3 & Hs3 & Hat3 & Hn & Hg).
  exists c, k, (slice txt (s + 1) s2), (slice txt s2 s3), t, s3.
  repeat (split; [first [reflexivity | assumption | lia]|]).
  split.
  { rewrite (slice_cons txt s s3 c Hsl) by lia.
    now rewrite <- (slice_app txt (s + 1) s2 s3) by lia. }
  split; [lia|]. now split.
Qed.

Lemma operand_text (c : ascii) w x y :
  (c :: w ++ x) ++ y = [] ++ c :: w ++ x ++ y.
Proof. simpl. now rewrite <- app_assoc. Qed.

Lemma match_multop_multop self c k :
  match_multop self = true -> current_token self = mkToken k (Some [c]) ->
  punctuation c = Some k -> Grammar.multop c = Some k.
Proof.
  unfold match_multop. intros Hm Ht Hc. rewrite Ht in Hm.
  cbn [name] in Hm.
  apply punctuation_inv in Hc.
  destruct k; try discriminate; now subst c.
Qed.

Lemma match_addop_addop self c k :
  match_addop self = true -> current_token self = mkToken k (Some [c]) ->
  punctuation c = Some k -> Grammar.addop c = Some k.
Proof.
  unfold match_addop. intros Hm Ht Hc. rewrite Ht in Hm.
  cbn [name] in Hm.
  apply punctuation_inv in Hc.
  destruct k; try discriminate; now subst c.
Qed.

(** Every call of the parser returns the tree the grammar gives to the text
    it has read, or raises an exception of the parser. *)
Lemma parser_parsed fuel : forall txt s self,
  at_token txt s self ->
  parsed Grammar.expr txt s (parse_expr fuel self)
  /\ (forall l, name (current_token self) <> WHITESPACE ->
        parsed (Grammar.expr_rest l) txt s (parse_expr_loop fuel l self))
  /\ parsed Grammar.term txt s (parse_term fuel self)
  /\ (forall l, name (current_token self) <> WHITESPACE ->
        parsed (Grammar.term_rest l) txt s (parse_term_loop fuel l self))
  /\ parsed Grammar.factor txt s (parse_factor fuel self).
Proof.
  induction fuel as [|fuel IH]; intros txt s self Hat.
  { repeat split; intros; exact I. }
  assert (IHe : forall s1 self1, at_token txt s1 self1 ->
                parsed Grammar.expr txt s1 (parse_expr fuel self1))
    by (intros s1 self1 H1; apply (IH _ _ _ H1)).
  assert (IHel : forall s1 self1 l, at_token txt s1 self1 ->
                 name (current_token self1) <> WHITESPACE ->
                 parsed (Grammar.expr_rest l) txt s1
                        (parse_expr_loop fuel l self1))
    by (intros s1 self1 l H1; apply (IH _ _ _ H1)).
  assert (IHt : forall s1 self1, at_token txt s1 self1 ->
                parsed Grammar.term txt s1 (parse_term fuel self1))
    by (intros s1 self1 H1; apply (IH _ _ _ H1)).
  assert (IHtl : forall s1 self1 l, at_token txt s1 self1 ->
                 name (current_token self1) <> WHITESPACE ->
                 parsed (Grammar.term_rest l) txt s1
                        (parse_term_loop fuel l self1))
    by (intros s1 self1 l H1; apply (IH _ _ _ H1)).
  assert (IHf : forall s1 self1, at_token txt s1 self1 ->
                parsed Grammar.factor txt s1 (parse_factor fuel self1))
    by (intros s1 self1 H1; apply (IH _ _ _ H1)).
  clear IH.
  repeat split.
  - (* parse_expr *)
    cbn [parse_expr]. unfold parsed.
    pose proof (IHt _ _ Hat) as H1. unfold parsed in H1.
    next_call H1 as [t self1].
    destruct H1 as (s1 & Hs1 & Hat1 & Hn1 & Hg1).
    pose proof (eat_whitespace_noop fuel _ Hn1) as H2.
    next_call H2 as self2. subst self2.
    pose proof (IHel _ _ t Hat1 Hn1) as H3. unfold parsed in H3.
    destruct (parse_expr_loop fuel t self1) as [[r self3]|e|]; trivial.
    destruct H3 as (s3 & Hs3 & Hat3 & Hn3 & Hg3).
    exists s3. split; [lia|]. split; [exact Hat3|]. split; [exact Hn3|].
    rewrite <- (slice_app txt s s1 s3) by lia.
    now apply Grammar.expr_term with (t := t).
  - (* parse_expr_loop *)
    intros l Hn. cbn [parse_expr_loop]. unfold parsed.
    destruct (match_addop self) eqn:Em.
    + pose proof (parse_binop_parsed fuel l (parse_term fuel) Grammar.term
                    _ _ _ IHt Hat (or_intror Em)) as H1.
      next_call H1 as [node self1].
      destruct H1 as (c & k & w & x & t & s1 & -> & Hc & Hp & Hw & Hg
                      & Hsl & Hs1 & Hat1 & Hn1).
      pose proof (IHel _ _ (BinOp l (mkToken k (Some [c])) t) Hat1 Hn1)
        as H3. unfold parsed in H3.
      destruct (parse_expr_loop fuel _ self1) as [[r self3]|e|]; trivial.
      destruct H3 as (s3 & Hs3 & Hat3 & Hn3 & Hg3).
      exists s3. split; [lia|]. split; [exact Hat3|]. split; [exact Hn3|].
      rewrite <- (slice_app txt s s1 s3) by lia. rewrite Hsl.
      rewrite operand_text.
      apply (Grammar.expr_rest_addop l [] c k w x t _ r);
        [reflexivity | now apply match_addop_addop with (self := self)
         | exact Hw | exact Hg | exact Hg3].
    + exists s. split; [lia|]. split; [exact Hat|]. split; [exact Hn|].
      rewrite slice_nil. apply Grammar.expr_rest_nil.
  - (* parse_term *)
    cbn [parse_term]. unfold parsed.
    pose proof (IHf _ _ Hat) as H1. unfold parsed in H1.
    next_call H1 as [t self1].
    destruct H1 as (s1 & Hs1 & Hat1 & Hn1 & Hg1).
    pose proof (eat_whitespace_noop fuel _ Hn1) as H2.
    next_call H2 as self2. subst self2.
    pose proof (IHtl _ _ t Hat1 Hn1) as H3. unfold parsed in H3.
    destruct (parse_term_loop fuel t self1) as [[r self3]|e|]; trivial.
    destruct H3 as (s3 & Hs3 & Hat3 & Hn3 & Hg3).
    exists s3. split; [lia|]. split; [exact Hat3|]. split; [exact Hn3|].
    rewrite <- (slice_app txt s s1 s3) by lia.
    now apply Grammar.term_factor with (t := t).
  - (* parse_term_loop *)
    intros l Hn. cbn [parse_term_loop]. unfold parsed.
    destruct (match_multop self) eqn:Em.
    + pose proof (parse_binop_parsed fuel l (parse_factor fuel)
                    Grammar.factor _ _ _ IHf Hat (or_introl Em)) as H1.
      next_call H1 as [node self1].
      destruct H1 as (c & k & w & x & t & s1 & -> & Hc & Hp & Hw & Hg
                      & Hsl & Hs1 & Hat1 & Hn1).
      pose proof (IHtl _ _ (BinOp l (mkToken k (Some [c])) t) Hat1 Hn1)
        as H3. unfold parsed in H3.
      destruct (parse_term_loop fuel _ self1) as [[r self3]|e|]; trivial.
      destruct H3 as (s3 & Hs3 & Hat3 & Hn3 & Hg3).
      exists s3. split; [lia|]. split; [exact Hat3|]. split; [exact Hn3|].
      rewrite <- (slice_app txt s s1 s3) by lia. rewrite Hsl.
      rewrite operand_text.
      apply (Grammar.term_rest_multop l [] c k w x t _ r);
        [reflexivity | now apply match_multop_multop with (self := self)
         | exact Hw | exact Hg | exact Hg3].
    + exists s. split; [lia|]. split; [exact Hat|]. split; [exact Hn|].
      rewrite slice_nil. apply Grammar.term_rest_nil.
  - (* parse_factor *)
    now apply parse_factor_parsed.
Qed.

Lemma slice_0 txt n : slice txt 0 n = firstn n txt.
Proof. unfold slice. now rewrite Nat.sub_0_r, skipn_O. Qed.

Lemma parse_parsed text :
  match parse text with
  | Return (t, self) =>
      exists n, at_token text n self
                /\ name (current_token self) <> WHITESPACE
                /\ Grammar.expr (firstn n text) t
  | Raise e => parser_error e \/ (e = StopIteration /\ text = [])
  | OutOfFuel => False
  end.
Proof.
  pose proof (parse_total text) as Htot. unfold parse in *.
  unfold tokenize in *. rewrite next_at in *. rewrite skipn_O in *.
  destruct (re_match (lexemes lexer) text) as [[k v]|] eqn:Em; cbn [bind] in *.
  - assert (Hat : at_token text 0
                    (mkParser (mkToken k (Some v))
                              (mkGenerator text (0 + length v)))).
    { split; [lia|]. unfold pull. rewrite next_at, skipn_O, Em.
      reflexivity. }
    destruct (parser_parsed (enough_fuel text) _ _ _ Hat) as (H & _).
    unfold parsed in H.
    destruct (parse_expr _ _) as [[t self]|e|]; [| now left | congruence].
    destruct H as (n & _ & Hn & Hw & Hg). exists n.
    rewrite slice_0 in Hg. exact (conj Hn (conj Hw Hg)).
  - destruct (0 =? length text) eqn:E.
    + right. split; [reflexivity|]. apply Nat.eqb_eq in E.
      now destruct text.
    + left. exact I.
Qed.

Lemma parse_Return_grammar text t self :
  parse text = Return (t, self) ->
  exists n, n <= length text
            /\ Grammar.expr (firstn n text) t
            /\ pull (mkGenerator text n) = Return self
            /\ name (current_token self) <> WHITESPACE.
Proof.
  intros H. pose proof (parse_parsed text) as Hp. rewrite H in Hp.
  destruct Hp as (n & (Hn & Hat) & Hw & Hg). now exists n.
Qed.

Lemma parse_to_end text t self :
  parse text = Return (t, self) -> name (current_token self) = EOF ->
  Grammar.expr text t
  /\ self = mkParser (mkToken EOF None) (mkGenerator text (length text)).
Proof.
  intros H He. apply parse_Return_grammar in H.
  destruct H as (n & Hn & Hg & Hp & _).
  destruct (at_token_inv text n self (conj Hn Hp))
    as [(-> & ->)|(k & v & -> & Hw & _)].
  - now rewrite firstn_all in Hg.
  - cbn [current_token name] in He. subst k. discriminate.
Qed.

Lemma grammar_functional e t t' :
  Grammar.expr e t -> Grammar.expr e t' -> t = t'.
Proof.
  intros H H'. apply parse_grammar in H, H'. congruence.
Qed.

(** X6.  Every tree parse returns is the tree the grammar gives to a
    prefix of the text, the prefix that stands before the lookahead parse
    stops at; this lookahead is no whitespace. *)
Theorem parse_reads_grammar text t self :
  parse text = Return (t, self) ->
  exists n, n <= length text
            /\ Grammar.expr (firstn n text) t
            /\ pull (mkGenerator text n) = Return self
            /\ name (current_token self) <> WHITESPACE.
Proof. apply parse_Return_grammar. Qed.

Lemma parse_reads_grammar_witness :
  exists n, n <= 4
            /\ Grammar.expr (firstn n (lit "1+2)")) 
                 (BinOp (int_literal "1") (op_token PLUS "+") (int_literal "2"))
            /\ pull (mkGenerator (lit "1+2)") n)
               = Return (mkParser (mkToken RPAREN (Some (lit ")")))
                                  (mkGenerator (lit "1+2)") 4))
            /\ RPAREN <> WHITESPACE.
Proof.
  exact (parse_reads_grammar (lit "1+2)") _ _ eq_refl).
Defined.

(** X7.  parse returns the tree [t] with the lookahead EOF exactly on the
    expressions of the grammar with tree [t]: the parser accepts the
    language of the grammar, and builds its trees; a text has at most one
    tree. *)
Theorem parse_accepts_grammar text t :
  ((exists self, parse text = Return (t, self)
                 /\ name (current_token self) = EOF)
   <-> Grammar.expr text t)
  /\ (forall t', Grammar.expr text t -> Grammar.expr text t' -> t = t').
Proof.
  split; [split|].
  - intros (self & H & He). now apply (parse_to_end text t self).
  - intros H. eexists. split; [now apply parse_grammar|]. reflexivity.
  - intros t'. apply grammar_functional.
Qed.

Lemma parse_accepts_grammar_witness :
  Grammar.expr (lit "7") (int_literal "7").
Proof.
  apply (proj1 (proj1 (parse_accepts_grammar (lit "7") (int_literal "7")))).
  eexists. split; reflexivity.
Defined.

Lemma evaluate_Raise_error text e :
  evaluate text = Raise e -> evaluate_error text e.
Proof.
  intros H. pose proof (evaluate_Raise_reports _ _ H) as Hrep.
  unfold evaluate in H. pose proof (parse_parsed text) as Hp.
  destruct (parse text) as [[t self]|e'|] eqn:E; cbn [bind] in H.
  - destruct Hp as (n & _ & _ & Hg).
    destruct grammar_operators_known as (_ & _ & _ & Hk & _).
    apply Hk in Hg.
    destruct (visit_outcome t Hg) as [(v & Hv)|[Hv|Hv]];
      rewrite Hv in H; [discriminate| |]; injection H as <-; exact I.
  - injection H as ->.
    destruct Hp as [Hp|(-> & ->)]; [|reflexivity].
    destruct e as [|p n t0|msg| | |key| | |id]; try contradiction;
      [|exact Hp].
    now apply (Hrep p n t0).
  - discriminate.
Qed.

Lemma evaluate_empty : evaluate [] = Raise StopIteration.
Proof. reflexivity. Qed.

(** X8.  Every exception evaluate raises is StopIteration (the text is
    empty), a TokenizerException that carries the text, its length and a
    position where no token starts, the SyntaxError for a missing right
    parenthesis or for a token that starts no factor, ZeroDivisionError or
    OverflowError; evaluate never raises KeyError, TypeError or
    ValueError: the dictionary of operators has every operator the parser
    puts in a tree, and int and float are given digits only.  (The limits
    of the interpreter, on the depth of recursion and on the number of
    digits of an int, are not part of the model.) *)
Theorem evaluate_exceptions text e :
  evaluate text = Raise e -> evaluate_error text e.
Proof. apply evaluate_Raise_error. Qed.

Lemma evaluate_exceptions_witness :
  evaluate_error (lit "(1") (SyntaxError (Expected_but_found RPAREN EOF)).
Proof.
  exact (evaluate_exceptions (lit "(1") _ eq_refl).
Defined.

(** X9.  evaluate raises StopIteration on the empty text, and on no
    other: parse takes the first token with a bare next, outside of eat,
    where the end of the generator is not turned into EOF. *)
Theorem empty_text_StopIteration text :
  evaluate text = Raise StopIteration <-> text = [].
Proof.
  split.
  - apply (evaluate_Raise_error text StopIteration).
  - intros ->. apply evaluate_empty.
Qed.

Lemma empty_text_StopIteration_witness :
  evaluate [] = Raise StopIteration.
Proof. exact (proj2 (empty_text_StopIteration []) eq_refl). Defined.

Lemma first_token_unrecognized text tok g :
  next lexer (tokenize text) = Return (tok, g) ->
  factor_token (name tok) = false ->
  evaluate text = Raise (SyntaxError (Unrecognized_token tok)).
Proof.
  intros H Hf. unfold evaluate, parse. rewrite H. cbn [bind].
  replace (enough_fuel text) with (S (S (S (3 * length text))))
    by (unfold enough_fuel; lia).
  cbn [parse_expr parse_term]. rewrite parse_factor_S.
  unfold factor_cases. cbn [current_token].
  destruct (name tok); try discriminate; reflexivity.
Qed.

Lemma space_not_digit c : is_space c = true -> is_digit c = false.
Proof.
  intros Hs. destruct (is_digit c) eqn:Hd; [|reflexivity].
  apply digit_class in Hd. destruct Hd as (Hd & _). congruence.
Qed.

Lemma leading_whitespace c rest :
  is_space c = true ->
  evaluate (c :: rest)
  = Raise (SyntaxError
             (Unrecognized_token
                (mkToken WHITESPACE (Some (c :: span is_space rest))))).
Proof.
  intros Hs.
  apply first_token_unrecognized
    with (g := mkGenerator (c :: rest)
                 (0 + length (c :: span is_space rest)));
    [|reflexivity].
  unfold tokenize. rewrite next_at, skipn_O, re_match_cons.
  now rewrite (space_not_digit c Hs), Hs.
Qed.

Lemma leading_punctuation c k rest :
  punctuation c = Some k -> factor_token k = false ->
  evaluate (c :: rest)
  = Raise (SyntaxError (Unrecognized_token (mkToken k (Some [c])))).
Proof.
  intros Hp Hf.
  apply first_token_unrecognized
    with (g := mkGenerator (c :: rest) (0 + length [c])); [|exact Hf].
  unfold tokenize. rewrite next_at, skipn_O.
  now rewrite (re_match_punctuation c k rest Hp).
Qed.

(** X10.  A text whose first token starts no factor is rejected with the
    SyntaxError "Unrecognized token" for this token: so is every text that
    starts with whitespace (the token is the whole run of whitespace), and
    every text that starts with a plus, star or division sign or a right
    parenthesis.  Whitespace is skipped after a factor and around a binary
    operator, not at the start of the text. *)
Theorem first_token_rejected :
  (forall text tok g,
     next lexer (tokenize text) = Return (tok, g) ->
     factor_token (name tok) = false ->
     evaluate text = Raise (SyntaxError (Unrecognized_token tok)))
  /\ (forall c rest,
        is_space c = true ->
        evaluate (c :: rest)
        = Raise (SyntaxError
                   (Unrecognized_token
                      (mkToken WHITESPACE (Some (c :: span is_space rest))))))
  /\ (forall c k rest,
        punctuation c = Some k -> factor_token k = false ->
        evaluate (c :: rest)
        = Raise (SyntaxError (Unrecognized_token (mkToken k (Some [c]))))).
Proof.
  split; [exact first_token_unrecognized|].
  split; [exact leading_whitespace | exact leading_punctuation].
Qed.

Lemma first_token_rejected_witness :
  evaluate (lit " 1")
  = Raise (SyntaxError
             (Unrecognized_token (mkToken WHITESPACE (Some (lit " "))))).
Proof.
  exact (proj1 (proj2 first_token_rejected) " "%char (lit "1") eq_refl).
Defined.

Lemma advance_trailing_whitespace e w :
  Grammar.whitespace w ->
  advance (e ++ w) (length e)
  = Return (mkParser (mkToken EOF None)
                     (mkGenerator (e ++ w) (length e + length w))).
Proof.
  intros Hw.
  assert (Hat : at_pos (e ++ w) (length e) (w ++ [])).
  { split; [rewrite length_app; lia|].
    now rewrite skipn_app, skipn_all, Nat.sub_diag, skipn_O, app_nil_r. }
  rewrite <- (advance_spaces _ _ _ _ Hw Hat).
  apply advance_end. split; [rewrite length_app; lia|].
  apply skipn_all2. rewrite length_app. lia.
Qed.

Lemma parse_trailing_whitespace e t w :
  Grammar.expr e t -> Grammar.whitespace w ->
  parse (e ++ w)
  = Return (t, mkParser (mkToken EOF None)
                        (mkGenerator (e ++ w) (length e + length w))).
Proof.
  intros He Hw.
  rewrite (parse_expression e t w He).
  - now rewrite (advance_trailing_whitespace e w Hw).
  - rewrite <- (app_nil_r w). now apply ends_number_whitespace.
  - intros self. rewrite (advance_trailing_whitespace e w Hw).
    intros [= <-]. split; reflexivity.
Qed.

Lemma expr_trailing_whitespace e t w :
  Grammar.expr e t -> Grammar.whitespace w -> Grammar.expr (e ++ w) t.
Proof.
  intros He Hw.
  now apply (parse_to_end (e ++ w) t _ (parse_trailing_whitespace e t w He Hw)).
Qed.

Lemma expr_parenthesized e t w1 w2 w3 :
  Grammar.expr e t ->
  Grammar.whitespace w1 -> Grammar.whitespace w2 -> Grammar.whitespace w3 ->
  Grammar.expr (("("%char :: w1 ++ e ++ w2 ++ [")"%char]) ++ w3) t.
Proof.
  intros He H1 H2 H3. apply expr_of_factor.
  apply Grammar.factor_WHITESPACE; [|exact H3].
  now apply Grammar.factor_LPAREN.
Qed.

Lemma transparent_text e t w1 w2 w3 :
  Grammar.expr e t ->
  Grammar.whitespace w1 -> Grammar.whitespace w2 -> Grammar.whitespace w3 ->
  parse_tree (e ++ w3) = Return t
  /\ evaluate (e ++ w3) = evaluate e
  /\ parse_tree (("("%char :: w1 ++ e ++ w2 ++ [")"%char]) ++ w3) = Return t
  /\ evaluate (("("%char :: w1 ++ e ++ w2 ++ [")"%char]) ++ w3) = evaluate e.
Proof.
  intros He H1 H2 H3.
  pose proof (expr_trailing_whitespace e t w3 He H3) as Ht.
  pose proof (expr_parenthesized e t w1 w2 w3 He H1 H2 H3) as Hp.
  split; [now apply parse_tree_grammar|].
  split; [now rewrite (evaluate_grammar _ _ Ht), (evaluate_grammar _ _ He)|].
  split; [now apply parse_tree_grammar|].
  now rewrite (evaluate_grammar _ _ Hp), (evaluate_grammar _ _ He).
Qed.

(** X11.  Whitespace after an expression, and parentheses around it, with
    whitespace inside and after them, change neither the tree parse
    returns nor what evaluate does: an expression in parentheses has no
    node of its own in the tree. *)
Theorem parentheses_and_whitespace_transparent e t w1 w2 w3 :
  Grammar.expr e t ->
  Grammar.whitespace w1 -> Grammar.whitespace w2 -> Grammar.whitespace w3 ->
  parse_tree (e ++ w3) = Return t
  /\ evaluate (e ++ w3) = evaluate e
  /\ parse_tree (("("%char :: w1 ++ e ++ w2 ++ [")"%char]) ++ w3) = Return t
  /\ evaluate (("("%char :: w1 ++ e ++ w2 ++ [")"%char]) ++ w3) = evaluate e.
Proof. apply transparent_text. Qed.

Lemma parentheses_and_whitespace_transparent_witness :
  evaluate (lit "( 1+2 ) ") = evaluate (lit "1+2").
Proof.
  assert (He : Grammar.expr (lit "1+2")
                 (BinOp (int_literal "1") (op_token PLUS "+")
                        (int_literal "2"))).
  { apply (expr_of_two (lit "1") _ "+"%char PLUS [] (lit "2"));
      try reflexivity; apply term_of_factor;
      now apply factor_int_literal. }
  exact (proj2 (proj2 (proj2
           (parentheses_and_whitespace_transparent
              (lit "1+2") _ (lit " ") (lit " ") (lit " ")
              He eq_refl eq_refl eq_refl)))).
Defined.

Lemma advance_whitespace_end txt q w :
  at_pos txt q w -> Grammar.whitespace w ->
  advance txt q
  = Return (mkParser (mkToken EOF None) (mkGenerator txt (q + length w))).
Proof.
  intros Hat Hw.
  assert (Hat' : at_pos txt q (w ++ [])) by now rewrite app_nil_r.
  rewrite <- (advance_spaces _ _ _ _ Hw Hat').
  apply advance_end. now apply at_pos_app in Hat'.
Qed.

(** parse_factor at a left parenthesis followed by an expression and the
    end of the text. *)
Lemma factor_unterminated w1 e t w2 fuel txt q :
  Grammar.whitespace w1 -> Grammar.expr e t -> Grammar.whitespace w2 ->
  at_pos txt q (w1 ++ e ++ w2) ->
  agrees (parse_factor fuel
            (mkParser (mkToken LPAREN (Some ["("%char]))
                      (mkGenerator txt q)))
         (Raise (SyntaxError (Expected_but_found RPAREN EOF))).
Proof.
  intros Hw1 He Hw2 Hat.
  destruct fuel as [|fuel]; [now left|].
  rewrite parse_factor_S. unfold factor_cases. cbn [current_token name].
  pose proof (at_pos_app _ _ _ _ Hat) as Hat2.
  pose proof (at_pos_app _ _ _ _ Hat2) as Hat3.
  set (q2 := q + length w1) in *.
  set (q3 := q2 + length e) in *.
  destruct (expr_starts _ _ He) as (c & e' & Ee & Hc).
  pose proof Hat2 as Hat2'. rewrite Ee, <- app_comm_cons in Hat2'.
  destruct (advance_starts_factor _ _ _ _ Hat2' Hc) as (s2 & Hs2).
  pose proof Hs2 as Hs1. unfold q2 in Hs1.
  rewrite (advance_spaces _ _ _ _ Hw1 Hat) in Hs1.
  match goal with
  | |- context [eat LPAREN ?s] =>
      destruct (eat_to_lookahead LPAREN fuel s txt q s2
                  eq_refl eq_refl (at_pos_le _ _ _ Hat) Hs1)
        as (s1 & Heat & Hws)
  end.
  rewrite Heat. cbn [bind].
  rewrite !bind_assoc. eapply agrees_bind; [exact Hws|]. cbn [bind].
  pose proof (advance_whitespace_end _ _ _ Hat3 Hw2) as Hend.
  assert (Hstop : stops true true txt q3).
  { intros self. rewrite Hend. intros [= <-]. split; reflexivity. }
  assert (Hen : ends_number w2 = true).
  { rewrite <- (app_nil_r w2). now apply ends_number_whitespace. }
  destruct grammar_reads as (_ & _ & _ & IH & _).
  pose proof (IH e t He fuel txt q2 w2 Hat2 Hen Hstop s2 Hs2) as Hexpr.
  fold q3 in Hexpr. rewrite Hend in Hexpr. cbn [bind] in Hexpr.
  rewrite !bind_assoc. eapply agrees_bind; [exact Hexpr|]. cbn [bind].
  rewrite !bind_assoc.
  eapply agrees_bind.
  { apply (eat_whitespace_advanced fuel txt q3);
      [exact (at_pos_le _ _ _ Hat3) | exact Hend]. }
  cbn [bind]. apply agrees_refl.
Qed.

Lemma first_factor_call text tok g :
  next lexer (tokenize text) = Return (tok, g) ->
  parse_calls text
    (call_parse_factor (S (3 * length text)) (mkParser tok g)).
Proof.
  intros H. exists tok, g. split; [exact H|].
  replace (enough_fuel text) with (S (S (S (3 * length text))))
    by (unfold enough_fuel; lia).
  eapply reaches_step; [apply expr_invokes_term|].
  eapply reaches_step; [apply term_invokes_factor|].
  apply reaches_refl.
Qed.

Lemma unterminated_call text fuel q w1 e t w2 :
  parse_calls text
    (call_parse_factor fuel
       (mkParser (mkToken LPAREN (Some ["("%char])) (mkGenerator text q))) ->
  Grammar.whitespace w1 -> Grammar.expr e t -> Grammar.whitespace w2 ->
  at_pos text q (w1 ++ e ++ w2) ->
  evaluate text = Raise (SyntaxError (Expected_but_found RPAREN EOF)).
Proof.
  intros Hcall Hw1 He Hw2 Hat.
  apply (parse_calls_Raise _ _ _ Hcall). cbn [run].
  apply agrees_terminates.
  - now apply factor_unterminated with (w1 := w1) (e := e) (t := t) (w2 := w2).
  - apply (parse_calls_terminates _ _ Hcall).
Qed.

Lemma unterminated_text w1 e t w2 :
  Grammar.whitespace w1 -> Grammar.expr e t -> Grammar.whitespace w2 ->
  evaluate ("("%char :: w1 ++ e ++ w2)
  = Raise (SyntaxError (Expected_but_found RPAREN EOF)).
Proof.
  intros Hw1 He Hw2.
  apply (unterminated_call _ (S (3 * length ("("%char :: w1 ++ e ++ w2))) 1
           w1 e t w2); trivial.
  - apply (first_factor_call _ (mkToken LPAREN (Some ["("%char]))
             (mkGenerator ("("%char :: w1 ++ e ++ w2) 1)).
    unfold tokenize. rewrite next_at, skipn_O.
    now rewrite (re_match_punctuation "("%char LPAREN _ eq_refl).
  - split; [simpl; lia | reflexivity].
Qed.

(** X12.  A left parenthesis that is not closed: whenever parse comes to
    a factor that starts with a left parenthesis followed by an expression
    and the end of the text, with optional whitespace around the
    expression, evaluate raises the SyntaxError of eat, "Expected token of
    type 'RPAREN' but found 'EOF'"; so it does on such a factor alone. *)
Theorem unterminated_parenthesis :
  (forall text fuel q w1 e t w2,
     parse_calls text
       (call_parse_factor fuel
          (mkParser (mkToken LPAREN (Some ["("%char]))
                    (mkGenerator text q))) ->
     Grammar.whitespace w1 -> Grammar.expr e t -> Grammar.whitespace w2 ->
     at_pos text q (w1 ++ e ++ w2) ->
     evaluate text = Raise (SyntaxError (Expected_but_found RPAREN EOF)))
  /\ (forall w1 e t w2,
        Grammar.whitespace w1 -> Grammar.expr e t -> Grammar.whitespace w2 ->
        evaluate ("("%char :: w1 ++ e ++ w2)
        = Raise (SyntaxError (Expected_but_found RPAREN EOF))).
Proof. split; [exact unterminated_call | exact unterminated_text]. Qed.

Lemma unterminated_parenthesis_witness :
  evaluate (lit "( 2 ")
  = Raise (SyntaxError (Expected_but_found RPAREN EOF)).
Proof.
  exact (proj2 unterminated_parenthesis (lit " ") (lit "2") _ (lit " ")
           eq_refl (expr_of_factor _ _ (factor_int_literal "2" eq_refl))
           eq_refl).
Defined.

(** * The type and sign of the result *)

Lemma digit_plain c : is_digit c = true -> plain c = true.
Proof.
  intros Hd. apply digit_class in Hd. destruct Hd as (_ & Hp & Hdot).
  unfold plain. rewrite Hdot.
  destruct (Ascii.eqb c "/") eqn:E; [|reflexivity].
  apply Ascii.eqb_eq in E. subst c. discriminate.
Qed.

Lemma space_plain c : is_space c = true -> plain c = true.
Proof.
  intros Hs. apply space_class in Hs. destruct Hs as (Hp & Hdot).
  unfold plain. rewrite Hdot.
  destruct (Ascii.eqb c "/") eqn:E; [|reflexivity].
  apply Ascii.eqb_eq in E. subst c. discriminate.
Qed.

Lemma forallb_weaken {A} (p q : A -> bool) l :
  (forall x, p x = true -> q x = true) ->
  forallb p l = true -> forallb q l = true.
Proof.
  intros H. induction l as [|x l IH]; simpl; [trivial|].
  intros Hp. apply andb_prop in Hp. destruct Hp as (Hx & Hl).
  now rewrite (H x Hx), (IH Hl).
Qed.

Lemma whitespace_plain w : Grammar.whitespace w -> forallb plain w = true.
Proof. apply forallb_weaken, space_plain. Qed.

Lemma py_float_Return x v :
  py_float x = Return v -> exists f, v = PyFloat f.
Proof.
  unfold py_float. destruct (skipn _ _) as [|c f]; [discriminate|].
  destruct (Ascii.eqb c "."%char) eqn:E.
  - apply Ascii.eqb_eq in E. subst c.
    destruct (_ && _); [|discriminate]. intros [= <-]. eauto.
  - destruct c as [[] [] [] [] [] [] [] []]; try discriminate.
Qed.

Lemma integer_arithmetic_BinOp l op r :
  integer_arithmetic (BinOp l op r) = true ->
  (name op = PLUS \/ name op = MINUS \/ name op = MUL)
  /\ integer_arithmetic l = true /\ integer_arithmetic r = true.
Proof.
  simpl. intros H. apply andb_prop in H. destruct H as (H & Hr).
  apply andb_prop in H. destruct H as (Hop & Hl).
  split; [|now split]. destruct (name op); try discriminate; auto.
Qed.

(** A tree of integer arithmetic comes from a text without division sign
    and dot. *)
Lemma integer_arithmetic_grammar :
  (forall x t, Grammar.factor x t ->
     integer_arithmetic t = true -> forallb plain x = true)
  /\ (forall x t, Grammar.term x t ->
     integer_arithmetic t = true -> forallb plain x = true)
  /\ (forall l x r, Grammar.term_rest l x r ->
     integer_arithmetic r = true ->
     forallb plain x = true /\ integer_arithmetic l = true)
  /\ (forall x t, Grammar.expr x t ->
     integer_arithmetic t = true -> forallb plain x = true)
  /\ (forall l x r, Grammar.expr_rest l x r ->
     integer_arithmetic r = true ->
     forallb plain x = true /\ integer_arithmetic l = true).
Proof.
  apply grammar_mind.
  - intros x t _ IH Hi. simpl in *. now apply IH.
  - intros d v Hd _ _. apply all_digits_forallb in Hd.
    revert Hd. apply forallb_weaken, digit_plain.
  - intros c f v _ _ Hv Hi. apply py_float_Return in Hv.
    destruct Hv as (x & ->). discriminate.
  - intros w1 e t w2 Hw1 _ IH Hw2 Hi. simpl.
    rewrite !forallb_app, (whitespace_plain _ Hw1), (IH Hi),
      (whitespace_plain _ Hw2). reflexivity.
  - intros x t w _ IH Hw Hi.
    now rewrite forallb_app, (IH Hi), (whitespace_plain _ Hw).
  - intros x t rest r _ IHx _ IHr Hi. destruct (IHr Hi) as (Hrest & Ht).
    now rewrite forallb_app, (IHx Ht), Hrest.
  - intros l Hi. now split.
  - intros l w1 c k w2 x t rest r Hw1 Hc Hw2 _ IHx _ IHr Hi.
    destruct (IHr Hi) as (Hrest & Hb).
    apply integer_arithmetic_BinOp in Hb. destruct Hb as (Hk & Hl & Ht).
    split; [|exact Hl]. cbn [name] in Hk.
    rewrite forallb_app. cbn [forallb]. rewrite !forallb_app.
    rewrite (whitespace_plain _ Hw1), (whitespace_plain _ Hw2), (IHx Ht),
      Hrest.
    unfold Grammar.multop in Hc.
    destruct (Ascii.eqb c "*") eqn:E.
    + apply Ascii.eqb_eq in E. now subst c.
    + destruct (Ascii.eqb c "/"); [|discriminate]. injection Hc as <-.
      destruct Hk as [Hk|[Hk|Hk]]; discriminate.
  - intros x t rest r _ IHx _ IHr Hi. destruct (IHr Hi) as (Hrest & Ht).
    now rewrite forallb_app, (IHx Ht), Hrest.
  - intros l Hi. now split.
  - intros l w1 c k w2 x t rest r Hw1 Hc Hw2 _ IHx _ IHr Hi.
    destruct (IHr Hi) as (Hrest & Hb).
    apply integer_arithmetic_BinOp in Hb. destruct Hb as (Hk & Hl & Ht).
    split; [|exact Hl].
    rewrite forallb_app. cbn [forallb]. rewrite !forallb_app.
    rewrite (whitespace_plain _ Hw1), (whitespace_plain _ Hw2), (IHx Ht),
      Hrest.
    unfold Grammar.addop in Hc.
    destruct (Ascii.eqb c "+") eqn:E.
    + apply Ascii.eqb_eq in E. now subst c.
    + destruct (Ascii.eqb c "-") eqn:E'; [|discriminate].
      apply Ascii.eqb_eq in E'. now subst c.
Qed.

Lemma float_operation k f x y v :
  operators k = Some f -> f x y = Return v ->
  k = DIV \/ (exists a, x = PyFloat a) \/ (exists b, y = PyFloat b) ->
  exists r, v = PyFloat r.
Proof.
  intros Hf Hv Hk.
  destruct k; try discriminate; injection Hf as <-;
    destruct x as [a|a], y as [b|b];
    try (destruct Hk as [Hk|[(c & Hk)|(c & Hk)]]; discriminate);
    cbn in Hv;
    repeat match type of Hv with
           | bind ?m _ = _ => destruct m; cbn [bind] in Hv
           end;
    try discriminate; injection Hv as <-; eauto.
Qed.

(** A tree with a division or a float literal has a float for value. *)
Lemma float_visit t :
  operators_known t = true -> integer_arithmetic t = false ->
  forall v, visit t = Return v -> exists r, v = PyFloat r.
Proof.
  induction t as [tok x|l IHl op r IHr|op e IHe]; simpl; intros Hk Hi v Hv.
  - injection Hv as <-. destruct x; [discriminate | eauto].
  - apply andb_prop in Hk. destruct Hk as (Hk & Hkr).
    apply andb_prop in Hk. destruct Hk as (Hop & Hkl).
    destruct (operators (name op)) as [f|] eqn:Ef; [|discriminate].
    destruct (visit l) as [x| |]; cbn [bind] in Hv; try discriminate.
    destruct (visit r) as [y| |]; cbn [bind] in Hv; try discriminate.
    apply (float_operation _ _ _ _ _ Ef Hv).
    destruct (integer_arithmetic l) eqn:Hl.
    + destruct (integer_arithmetic r) eqn:Hr.
      * left. rewrite !andb_true_r in Hi.
        destruct (name op); try discriminate; reflexivity.
      * right. right. now apply IHr.
    + right. left. now apply IHl.
  - destruct (visit e) as [x| |]; cbn [bind] in Hv; try discriminate.
    injection Hv as <-.
    destruct (IHe Hk Hi x eq_refl) as (r & ->). simpl. eauto.
Qed.

Lemma result_type e t v :
  Grammar.expr e t -> evaluate e = Return v ->
  (forallb plain e = true -> exists z, v = PyInt z)
  /\ (forallb plain e = false -> exists r, v = PyFloat r).
Proof.
  intros He Hv. rewrite (evaluate_grammar _ _ He) in Hv. split; intros Hp.
  - destruct grammar_integer_arithmetic as (_ & _ & _ & H & _).
    destruct (integer_arithmetic_visit t (H _ _ He Hp)) as (z & Hz).
    exists z. congruence.
  - destruct grammar_operators_known as (_ & _ & _ & Hk & _).
    apply (float_visit t (Hk _ _ He)); [|exact Hv].
    destruct (integer_arithmetic t) eqn:Hi; [|reflexivity].
    destruct integer_arithmetic_grammar as (_ & _ & _ & H & _).
    rewrite (H _ _ He Hi) in Hp. discriminate.
Qed.

(** X13.  The type of the result is read off the text: the value evaluate
    returns for an expression is an int when the text has neither a
    division sign nor a dot, and a float when it has one: a division gives
    a float also when it is exact, and a float operand makes the result of
    an operation a float. *)
Theorem result_is_int_or_float e t v :
  Grammar.expr e t -> evaluate e = Return v ->
  (forallb plain e = true -> exists z, v = PyInt z)
  /\ (forallb plain e = false -> exists r, v = PyFloat r).
Proof. apply result_type. Qed.

Lemma result_is_int_or_float_witness :
  exists r, PyFloat 1 = PyFloat r.
Proof.
  assert (He : Grammar.expr (lit "2/2")
                 (BinOp (int_literal "2") (op_token DIV "/")
                        (int_literal "2"))).
  { apply expr_of_term.
    apply (term_of_two (lit "2") _ "/"%char DIV [] (lit "2"));
      try reflexivity; now apply factor_int_literal. }
  exact (proj2 (result_is_int_or_float (lit "2/2") _ (PyFloat 1) He eq_refl)
           eq_refl).
Defined.

Lemma py_neg_involutive v : py_neg (py_neg v) = v.
Proof.
  destruct v as [a|a]; simpl.
  - now rewrite Z.opp_involutive.
  - f_equal. apply Prim2SF_inj. rewrite !opp_spec.
    destruct (Prim2SF a) as [s|s| |s m e]; simpl; now rewrite ?negb_involutive.
Qed.

Lemma minus_factor x t :
  Grammar.factor x t ->
  evaluate ("-"%char :: x) = (v <- evaluate x;; Return (py_neg v))
  /\ evaluate ("-"%char :: "-"%char :: x) = evaluate x.
Proof.
  intros Hx.
  pose proof (Grammar.factor_MINUS _ _ Hx) as H1.
  pose proof (Grammar.factor_MINUS _ _ H1) as H2.
  rewrite (evaluate_grammar _ _ (expr_of_factor _ _ Hx)).
  rewrite (evaluate_grammar _ _ (expr_of_factor _ _ H1)).
  rewrite (evaluate_grammar _ _ (expr_of_factor _ _ H2)).
  cbn [visit]. split; [reflexivity|].
  destruct (visit t) as [v| |]; cbn [bind]; trivial.
  now rewrite py_neg_involutive.
Qed.

(** X14.  A minus sign before a factor negates its value, and raises what
    the factor raises; two minus signs give the value of the factor back,
    for ints and for floats. *)
Theorem unary_minus_negates x t :
  Grammar.factor x t ->
  evaluate ("-"%char :: x) = (v <- evaluate x;; Return (py_neg v))
  /\ evaluate ("-"%char :: "-"%char :: x) = evaluate x.
Proof. apply minus_factor. Qed.

Lemma unary_minus_negates_witness :
  evaluate (lit "--(1/4)") = evaluate (lit "(1/4)").
Proof.
  refine (proj2 (unary_minus_negates (lit "(1/4)")
                   (BinOp (int_literal "1") (op_token DIV "/")
                          (int_literal "4")) _)).
  apply (Grammar.factor_LPAREN [] (lit "1/4") _ []); try reflexivity.
  apply expr_of_term.
  apply (term_of_two (lit "1") _ "/"%char DIV [] (lit "4"));
    try reflexivity; now apply factor_int_literal.
Defined.

(** * An operator without a right operand *)

(** The loops of parse_term and parse_expr once more: an iteration that
    goes well, an iteration whose operand fails. *)
Section Iteration.

Variables mo ao : bool.
Variable opclass : ascii -> option TokenName.
Variable matchop : Parser -> bool.
Variable operand : nat -> Parser -> outcome (AbstractSyntaxTree * Parser).
Variable loop :
  nat -> AbstractSyntaxTree -> Parser ->
  outcome (AbstractSyntaxTree * Parser).
Variable top : nat -> Parser -> outcome (AbstractSyntaxTree * Parser).

Hypothesis loop_O : forall l self, loop 0 l self = OutOfFuel.
Hypothesis loop_S : forall fuel l self,
  loop (S fuel) l self =
  if matchop self then
    '(node, self) <- parse_binop fuel l (operand fuel) self;;
    loop fuel node self
  else Return (l, self).
Hypothesis top_O : forall self, top 0 self = OutOfFuel.
Hypothesis top_S : forall fuel self,
  top (S fuel) self =
  ('(node, self) <- operand fuel self;;
   self <- eat_whitespace fuel self;;
   loop fuel node self).
Hypothesis matchop_op : forall c k g,
  opclass c = Some k -> matchop (mkParser (mkToken k (Some [c])) g) = true.
Hypothesis op_punctuation : forall c k,
  opclass c = Some k -> punctuation c = Some k.

Lemma iteration_reads l w1 c k w2 x t rest txt p
    (o : outcome (AbstractSyntaxTree * Parser)) :
  Grammar.whitespace w1 -> opclass c = Some k -> Grammar.whitespace w2 ->
  (exists c0 x', x = c0 :: x' /\ starts_factor c0 = true) ->
  reads mo ao operand x t ->
  at_pos txt p (w1 ++ c :: w2 ++ x ++ rest) ->
  ends_number rest = true ->
  stops mo ao txt (p + length w1 + 1 + length w2 + length x) ->
  (forall fuel,
     agrees (self <- advance txt (p + length w1 + 1 + length w2 + length x);;
             loop fuel (BinOp l (mkToken k (Some [c])) t) self) o) ->
  forall fuel, agrees (self <- advance txt p;; loop fuel l self) o.
Proof.
  intros Hw1 Hc Hw2 (c0 & x' & Ex & Hc0) IHx Hat Hen Hs Hcont fuel.
  pose proof (op_punctuation _ _ Hc) as Hp.
  rewrite (advance_punctuation _ _ _ _ _ _ Hat Hw1 Hp). cbn [bind].
  destruct fuel as [|fuel]; [left; apply loop_O|].
  rewrite loop_S, (matchop_op _ _ _ Hc).
  unfold parse_binop. cbn [current_token name tokens].
  pose proof (at_pos_app _ _ _ _ Hat) as Hat1.
  pose proof (at_pos_cons _ _ _ _ Hat1) as Hat2.
  pose proof (at_pos_app _ _ _ _ Hat2) as Hat3.
  set (q1 := p + length w1) in *.
  set (q2 := q1 + 1) in *.
  set (q3 := q2 + length w2) in *.
  pose proof Hat3 as Hat3'. rewrite Ex, <- app_comm_cons in Hat3'.
  destruct (advance_starts_factor _ _ _ _ Hat3' Hc0) as (s2 & Hs2).
  pose proof Hs2 as Hs1. unfold q3 in Hs1.
  rewrite (advance_spaces _ _ _ _ Hw2 Hat2) in Hs1.
  match goal with
  | |- context [eat k ?s] =>
      destruct (eat_to_lookahead k fuel s txt q2 s2
                  eq_refl eq_refl (at_pos_le _ _ _ Hat2) Hs1)
        as (s1 & Heat & Hws)
  end.
  rewrite Heat. cbn [bind].
  rewrite !bind_assoc. eapply agrees_bind; [exact Hws|]. cbn [bind].
  pose proof (IHx fuel txt q3 rest Hat3 Hen Hs s2 Hs2) as Hop.
  rewrite !bind_assoc. eapply agrees_bind; [exact Hop|].
  rewrite bind_assoc. cbn [bind].
  exact (Hcont fuel).
Qed.

Lemma iteration_fails l w1 c k rest txt p e :
  Grammar.whitespace w1 -> opclass c = Some k ->
  at_pos txt p (w1 ++ c :: rest) ->
  (exists s, advance txt (p + length w1 + 1) = Return s) ->
  (forall fuel self,
     advance txt (p + length w1 + 1) = Return self ->
     agrees (operand fuel self) (Raise e)) ->
  forall fuel, agrees (self <- advance txt p;; loop fuel l self) (Raise e).
Proof.
  intros Hw1 Hc Hat (s2 & Hs2) Hfail fuel.
  pose proof (op_punctuation _ _ Hc) as Hp.
  rewrite (advance_punctuation _ _ _ _ _ _ Hat Hw1 Hp). cbn [bind].
  destruct fuel as [|fuel]; [left; apply loop_O|].
  rewrite loop_S, (matchop_op _ _ _ Hc).
  unfold parse_binop. cbn [current_token name tokens].
  pose proof (at_pos_app _ _ _ _ Hat) as Hat1.
  pose proof (at_pos_cons _ _ _ _ Hat1) as Hat2.
  match goal with
  | |- context [eat k ?s] =>
      destruct (eat_to_lookahead k fuel s txt (p + length w1 + 1) s2
                  eq_refl eq_refl (at_pos_le _ _ _ Hat2) Hs2)
        as (s1 & Heat & Hws)
  end.
  rewrite Heat. cbn [bind].
  rewrite !bind_assoc. eapply agrees_bind; [exact Hws|]. cbn [bind].
  rewrite !bind_assoc.
  eapply agrees_bind; [exact (Hfail fuel s2 Hs2)|]. cbn [bind].
  apply agrees_refl.
Qed.

Lemma top_reads_on x t rest txt p
    (o : outcome (AbstractSyntaxTree * Parser)) :
  reads mo ao operand x t ->
  at_pos txt p (x ++ rest) -> ends_number rest = true ->
  stops mo ao txt (p + length x) ->
  (forall fuel,
     agrees (self <- advance txt (p + length x);; loop fuel t self) o) ->
  forall fuel self,
    advance txt p = Return self -> agrees (top fuel self) o.
Proof.
  intros IHx Hat Hen Hs Hcont fuel self Hself.
  pose proof (at_pos_app _ _ _ _ Hat) as Hat1.
  destruct fuel as [|fuel]; [left; apply top_O|].
  rewrite top_S.
  pose proof (IHx fuel txt p rest Hat Hen Hs self Hself) as Hop.
  eapply agrees_bind; [exact Hop|].
  rewrite bind_assoc. cbn [bind].
  eapply agrees_trans; [|exact (Hcont fuel)].
  apply agrees_after_advance. intros s1 Hs1.
  apply (whitespace_skipped fuel s1 txt (p + length x));
    [exact (at_pos_le _ _ _ Hat1) | exact Hs1 | apply agrees_refl].
Qed.

Lemma top_fails txt p e :
  (forall fuel self,
     advance txt p = Return self -> agrees (operand fuel self) (Raise e)) ->
  forall fuel self,
    advance txt p = Return self -> agrees (top fuel self) (Raise e).
Proof.
  intros Hfail fuel self Hself.
  destruct fuel as [|fuel]; [left; apply top_O|].
  rewrite top_S.
  eapply agrees_bind; [exact (Hfail fuel self Hself)|]. cbn [bind].
  apply agrees_refl.
Qed.

(** What follows a repetition, when an operator of the class follows it,
    starts with an operator of the class. *)
Lemma repetition_then_operator y w c k rest :
  repetition opclass y -> Grammar.whitespace w -> opclass c = Some k ->
  exists w' c' k' z,
    y ++ w ++ c :: rest = w' ++ c' :: z
    /\ Grammar.whitespace w' /\ opclass c' = Some k'.
Proof.
  intros [->|(w' & c' & k' & y' & -> & Hw' & Hc')] Hw Hc.
  - now exists w, c, k, rest.
  - exists w', c', k', (y' ++ w ++ c :: rest).
    rewrite <- app_assoc, <- app_comm_cons. now split.
Qed.

End Iteration.

Lemma factor_fails txt q tok :
  no_operand txt q tok ->
  forall fuel self,
    advance txt q = Return self ->
    agrees (parse_factor fuel self)
           (Raise (SyntaxError (Unrecognized_token tok))).
Proof.
  intros ((g & Hg) & Hf) fuel self Hself.
  rewrite Hg in Hself. injection Hself as <-.
  destruct fuel as [|fuel]; [now left|]. right.
  rewrite parse_factor_S. unfold factor_cases. cbn [current_token].
  destruct (name tok); try discriminate; reflexivity.
Qed.

Lemma term_fails txt q tok :
  no_operand txt q tok ->
  forall fuel self,
    advance txt q = Return self ->
    agrees (parse_term fuel self)
           (Raise (SyntaxError (Unrecognized_token tok))).
Proof.
  intros H.
  apply top_fails with (operand := parse_factor) (loop := parse_term_loop);
    [reflexivity | reflexivity | now apply factor_fails].
Qed.

Lemma stops_nothing txt q : stops false false txt q.
Proof. intros self _. split; discriminate. Qed.

Lemma iteration_text (w1 : str) c1 w2 x rest1 tail :
  (w1 ++ c1 :: w2 ++ x ++ rest1) ++ tail
  = w1 ++ c1 :: w2 ++ x ++ rest1 ++ tail.
Proof. now rewrite <- !app_assoc, <- app_comm_cons, <- !app_assoc. Qed.

Lemma iteration_length (w1 : str) c1 w2 x rest1 :
  length (w1 ++ c1 :: w2 ++ x ++ rest1)
  = length w1 + 1 + length w2 + length x + length rest1.
Proof. rewrite length_app. simpl. rewrite !length_app. lia. Qed.

Lemma at_pos_operand txt q w1 c1 w2 x rest :
  at_pos txt q (w1 ++ c1 :: w2 ++ x ++ rest) ->
  at_pos txt (q + length w1 + 1 + length w2 + length x) rest.
Proof.
  intros H. apply at_pos_app in H. apply at_pos_cons in H.
  apply at_pos_app in H. now apply at_pos_app in H.
Qed.

Lemma multop_opclass c k :
  Grammar.multop c = Some k -> punctuation c = Some k.
Proof. intros H. now apply multop_punctuation in H. Qed.

Lemma addop_opclass c k :
  Grammar.addop c = Some k -> punctuation c = Some k.
Proof. intros H. now apply addop_punctuation in H. Qed.

(** The loop of parse_term, when a multiplicative operator without operand
    follows the repetition. *)
Lemma term_loop_dangling l y r :
  Grammar.term_rest l y r ->
  forall txt q w c k rest tok,
    Grammar.whitespace w -> Grammar.multop c = Some k ->
    at_pos txt q (y ++ w ++ c :: rest) ->
    no_operand txt (q + length y + length w + 1) tok ->
    forall fuel,
      agrees (self <- advance txt q;; parse_term_loop fuel l self)
             (Raise (SyntaxError (Unrecognized_token tok))).
Proof.
  induction 1 as [l|l w1 c1 k1 w2 x t rest1 r Hw1 Hc1 Hw2 Hx Hr IH];
    intros txt q w c k rest tok Hw Hc Hat Hno.
  - simpl in Hat, Hno. rewrite Nat.add_0_r in Hno.
    apply iteration_fails with (opclass := Grammar.multop)
      (matchop := match_multop) (operand := parse_factor)
      (w1 := w) (c := c) (k := k) (rest := rest); trivial.
    + apply match_multop_op.
    + apply multop_opclass.
    + destruct Hno as ((g & Hg) & _). eauto.
    + now apply factor_fails.
  - rewrite iteration_text in Hat. rewrite iteration_length in Hno.
    destruct (repetition_then_operator Grammar.multop rest1 w c k rest
                (term_rest_repetition _ _ _ Hr) Hw Hc)
      as (w' & c' & k' & z & Ez & Hw' & Hc').
    apply iteration_reads with (mo := false) (ao := false)
      (opclass := Grammar.multop) (matchop := match_multop)
      (operand := parse_factor) (w1 := w1) (c := c1) (k := k1) (w2 := w2)
      (x := x) (t := t) (rest := rest1 ++ w ++ c :: rest); trivial.
    + apply match_multop_op.
    + apply multop_opclass.
    + eapply factor_starts, Hx.
    + apply factor_parses_reads. now apply grammar_reads.
    + rewrite Ez. apply (ends_number_operator w' c' k' z Hw').
      now apply multop_opclass.
    + apply stops_nothing.
    + apply (IH txt _ w c k rest tok Hw Hc (at_pos_operand _ _ _ _ _ _ _ Hat)).
      now rewrite <- !Nat.add_assoc in *.
Qed.

Lemma term_dangling x t :
  Grammar.term x t ->
  forall txt p w c k rest tok,
    Grammar.whitespace w -> Grammar.multop c = Some k ->
    at_pos txt p (x ++ w ++ c :: rest) ->
    no_operand txt (p + length x + length w + 1) tok ->
    forall fuel self,
      advance txt p = Return self ->
      agrees (parse_term fuel self)
             (Raise (SyntaxError (Unrecognized_token tok))).
Proof.
  intros [f t0 y r Hf Hy] txt p w c k rest tok Hw Hc Hat Hno.
  rewrite <- app_assoc in Hat. rewrite length_app in Hno.
  destruct (repetition_then_operator Grammar.multop y w c k rest
              (term_rest_repetition _ _ _ Hy) Hw Hc)
    as (w' & c' & k' & z & Ez & Hw' & Hc').
  apply top_reads_on with (mo := false) (ao := false)
    (operand := parse_factor) (loop := parse_term_loop)
    (x := f) (t := t0) (rest := y ++ w ++ c :: rest); trivial.
  - apply factor_parses_reads. now apply grammar_reads.
  - rewrite Ez. apply (ends_number_operator w' c' k' z Hw').
    now apply multop_opclass.
  - apply stops_nothing.
  - apply (term_loop_dangling _ _ _ Hy txt _ w c k rest tok Hw Hc
             (at_pos_app _ _ _ _ Hat)).
    now rewrite <- !Nat.add_assoc in *.
Qed.

Lemma stops_at_addop txt q w c k z :
  at_pos txt q (w ++ c :: z) -> Grammar.whitespace w ->
  Grammar.addop c = Some k -> stops true false txt q.
Proof.
  intros Hat Hw Hc.
  destruct (addop_not_multop _ _ Hc) as (H1 & H2).
  exact (stops_at_punctuation txt q w c k z Hat Hw (addop_opclass _ _ Hc)
           true false H1 H2).
Qed.

(** The loop of parse_expr, when an additive operator without operand
    follows the repetition. *)
Lemma expr_loop_dangling l y r :
  Grammar.expr_rest l y r ->
  forall txt q w c k rest tok,
    Grammar.whitespace w -> Grammar.addop c = Some k ->
    at_pos txt q (y ++ w ++ c :: rest) ->
    no_operand txt (q + length y + length w + 1) tok ->
    forall fuel,
      agrees (self <- advance txt q;; parse_expr_loop fuel l self)
             (Raise (SyntaxError (Unrecognized_token tok))).
Proof.
  induction 1 as [l|l w1 c1 k1 w2 x t rest1 r Hw1 Hc1 Hw2 Hx Hr IH];
    intros txt q w c k rest tok Hw Hc Hat Hno.
  - simpl in Hat, Hno. rewrite Nat.add_0_r in Hno.
    apply iteration_fails with (opclass := Grammar.addop)
      (matchop := match_addop) (operand := parse_term)
      (w1 := w) (c := c) (k := k) (rest := rest); trivial.
    + apply match_addop_op.
    + apply addop_opclass.
    + destruct Hno as ((g & Hg) & _). eauto.
    + now apply term_fails.
  - rewrite iteration_text in Hat. rewrite iteration_length in Hno.
    destruct (repetition_then_operator Grammar.addop rest1 w c k rest
                (expr_rest_repetition _ _ _ Hr) Hw Hc)
      as (w' & c' & k' & z & Ez & Hw' & Hc').
    pose proof (at_pos_operand _ _ _ _ _ _ _ Hat) as Hat'.
    apply iteration_reads with (mo := true) (ao := false)
      (opclass := Grammar.addop) (matchop := match_addop)
      (operand := parse_term) (w1 := w1) (c := c1) (k := k1) (w2 := w2)
      (x := x) (t := t) (rest := rest1 ++ w ++ c :: rest); trivial.
    + apply match_addop_op.
    + apply addop_opclass.
    + eapply term_starts, Hx.
    + now apply grammar_reads.
    + rewrite Ez. apply (ends_number_operator w' c' k' z Hw').
      now apply addop_opclass.
    + rewrite Ez in Hat'. now apply (stops_at_addop _ _ w' c' k' z).
    + apply (IH txt _ w c k rest tok Hw Hc Hat').
      now rewrite <- !Nat.add_assoc in *.
Qed.

(** The loop of parse_expr, when a multiplicative operator without operand
    follows the last term of the repetition. *)
Lemma expr_loop_last_term l y r :
  Grammar.expr_rest l y r ->
  forall txt q w c k rest tok,
    y <> [] ->
    Grammar.whitespace w -> Grammar.multop c = Some k ->
    at_pos txt q (y ++ w ++ c :: rest) ->
    no_operand txt (q + length y + length w + 1) tok ->
    forall fuel,
      agrees (self <- advance txt q;; parse_expr_loop fuel l self)
             (Raise (SyntaxError (Unrecognized_token tok))).
Proof.
  induction 1 as [l|l w1 c1 k1 w2 x t rest1 r Hw1 Hc1 Hw2 Hx Hr IH];
    intros txt q w c k rest tok Hne Hw Hc Hat Hno; [contradiction|].
  rewrite iteration_text in Hat. rewrite iteration_length in Hno.
  pose proof (at_pos_operand _ _ _ _ _ _ _ Hat) as Hat'.
  destruct (term_starts _ _ Hx) as (c0 & x' & Ex & Hc0).
  destruct (expr_rest_repetition _ _ _ Hr)
    as [->|(w' & c' & k' & z & -> & Hw' & Hc')].
  - (* the operand is the last term *)
    cbn [app length] in *. rewrite Nat.add_0_r in Hno.
    pose proof (at_pos_app _ _ _ _ Hat) as Hat1.
    pose proof (at_pos_cons _ _ _ _ Hat1) as Hat2.
    pose proof (at_pos_app _ _ _ _ Hat2) as Hat3.
    pose proof (advance_spaces _ _ _ _ Hw2 Hat2) as Hsp.
    apply iteration_fails with (opclass := Grammar.addop)
      (matchop := match_addop) (operand := parse_term)
      (w1 := w1) (c := c1) (k := k1) (rest := w2 ++ x ++ w ++ c :: rest);
      trivial.
    + apply match_addop_op.
    + apply addop_opclass.
    + rewrite <- Hsp. rewrite Ex, <- app_comm_cons in Hat3.
      apply (advance_starts_factor _ _ _ _ Hat3 Hc0).
    + intros fuel self Hself. rewrite <- Hsp in Hself.
      apply (term_dangling x t Hx txt _ w c k rest tok Hw Hc Hat3);
        [|exact Hself].
      now rewrite <- !Nat.add_assoc in *.
  - (* another term follows *)
    rewrite <- app_assoc, <- app_comm_cons in Hat'.
    apply iteration_reads with (mo := true) (ao := false)
      (opclass := Grammar.addop) (matchop := match_addop)
      (operand := parse_term) (w1 := w1) (c := c1) (k := k1) (w2 := w2)
      (x := x) (t := t)
      (rest := (w' ++ c' :: z) ++ w ++ c :: rest); trivial.
    + apply match_addop_op.
    + apply addop_opclass.
    + now exists c0, x'.
    + now apply grammar_reads.
    + rewrite <- app_assoc, <- app_comm_cons.
      apply (ends_number_operator w' c' k' _ Hw').
      now apply addop_opclass.
    + now apply (stops_at_addop _ _ w' c' k' _ Hat').
    + assert (Hne' : w' ++ c' :: z <> []) by (now destruct w').
      pose proof (at_pos_operand _ _ _ _ _ _ _ Hat) as Hat''.
      apply (IH txt _ w c k rest tok Hne' Hw Hc Hat'').
      now rewrite <- !Nat.add_assoc in *.
Qed.

Lemma expr_dangling e t :
  Grammar.expr e t ->
  forall txt p w c k rest tok,
    Grammar.whitespace w ->
    Grammar.addop c = Some k \/ Grammar.multop c = Some k ->
    at_pos txt p (e ++ w ++ c :: rest) ->
    no_operand txt (p + length e + length w + 1) tok ->
    forall fuel self,
      advance txt p = Return self ->
      agrees (parse_expr fuel self)
             (Raise (SyntaxError (Unrecognized_token tok))).
Proof.
  intros [x t0 y r Hx Hy] txt p w c k rest tok Hw Hc Hat Hno.
  rewrite <- app_assoc in Hat. rewrite length_app in Hno.
  pose proof (at_pos_app _ _ _ _ Hat) as Hat'.
  destruct Hc as [Hc|Hc].
  - destruct (repetition_then_operator Grammar.addop y w c k rest
                (expr_rest_repetition _ _ _ Hy) Hw Hc)
      as (w' & c' & k' & z & Ez & Hw' & Hc').
    apply top_reads_on with (mo := true) (ao := false)
      (operand := parse_term) (loop := parse_expr_loop)
      (x := x) (t := t0) (rest := y ++ w ++ c :: rest); trivial.
    + now apply grammar_reads.
    + rewrite Ez. apply (ends_number_operator w' c' k' z Hw').
      now apply addop_opclass.
    + rewrite Ez in Hat'. now apply (stops_at_addop _ _ w' c' k' z).
    + apply (expr_loop_dangling _ _ _ Hy txt _ w c k rest tok Hw Hc Hat').
      now rewrite <- !Nat.add_assoc in *.
  - destruct (expr_rest_repetition _ _ _ Hy)
      as [->|(w' & c' & k' & z & Ey & Hw' & Hc')].
    + cbn [app length] in *. rewrite Nat.add_0_r in Hno.
      apply top_fails with (operand := parse_term) (loop := parse_expr_loop);
        [reflexivity | reflexivity |].
      now apply (term_dangling x t0 Hx txt p w c k rest tok).
    + apply top_reads_on with (mo := true) (ao := false)
        (operand := parse_term) (loop := parse_expr_loop)
        (x := x) (t := t0) (rest := y ++ w ++ c :: rest); trivial.
      * now apply grammar_reads.
      * rewrite Ey, <- app_assoc, <- app_comm_cons.
        apply (ends_number_operator w' c' k' _ Hw').
        now apply addop_opclass.
      * rewrite Ey, <- app_assoc, <- app_comm_cons in Hat'.
        now apply (stops_at_addop _ _ w' c' k' _ Hat').
      * assert (Hne : y <> []) by (rewrite Ey; now destruct w').
        apply (expr_loop_last_term _ _ _ Hy txt _ w c k rest tok Hne Hw Hc
                 Hat').
        now rewrite <- !Nat.add_assoc in *.
Qed.

Lemma parse_dangling e t w c k rest tok :
  Grammar.expr e t -> Grammar.whitespace w ->
  Grammar.addop c = Some k \/ Grammar.multop c = Some k ->
  no_operand (e ++ w ++ c :: rest) (length e + length w + 1) tok ->
  parse (e ++ w ++ c :: rest)
  = Raise (SyntaxError (Unrecognized_token tok)).
Proof.
  intros He Hw Hc Hno.
  apply agrees_terminates; [|apply parse_total].
  set (txt := e ++ w ++ c :: rest) in *.
  destruct (expr_starts _ _ He) as (c0 & e' & Ee & Hc0).
  assert (Hat : at_pos txt 0 (e ++ w ++ c :: rest))
    by (split; [lia | apply skipn_O]).
  assert (Hat' : at_pos txt 0 (c0 :: e' ++ w ++ c :: rest))
    by (split; [lia | now rewrite skipn_O; unfold txt; rewrite Ee]).
  destruct (starts_factor_token c0 (e' ++ w ++ c :: rest) Hc0)
    as (Hsp & k0 & v & Hm).
  pose proof (advance_token _ _ _ _ _ _ Hat' Hsp Hm) as Ha.
  unfold parse, tokenize. rewrite next_at.
  destruct Hat' as (_ & ->). rewrite Hm. cbn [bind].
  exact (expr_dangling e t He txt 0 w c k rest tok Hw Hc Hat Hno
           (enough_fuel txt) _ Ha).
Qed.

Lemma evaluate_dangling e t w c k rest tok :
  Grammar.expr e t -> Grammar.whitespace w ->
  Grammar.addop c = Some k \/ Grammar.multop c = Some k ->
  no_operand (e ++ w ++ c :: rest) (length e + length w + 1) tok ->
  evaluate (e ++ w ++ c :: rest)
  = Raise (SyntaxError (Unrecognized_token tok)).
Proof.
  intros He Hw Hc Hno. unfold evaluate.
  now rewrite (parse_dangling e t w c k rest tok He Hw Hc Hno).
Qed.

Lemma no_operand_end e w c w2 :
  Grammar.whitespace w2 ->
  no_operand (e ++ w ++ c :: w2) (length e + length w + 1)
    (mkToken EOF None).
Proof.
  intros Hw2. split; [|reflexivity].
  eexists. apply advance_whitespace_end with (w := w2); [|exact Hw2].
  assert (Hat : at_pos (e ++ w ++ c :: w2) 0 (e ++ w ++ c :: w2))
    by (split; [lia | apply skipn_O]).
  apply at_pos_app in Hat. apply at_pos_app in Hat.
  now apply at_pos_cons in Hat.
Qed.

(** X16.  A binary operator without a right operand: on an expression
    followed, after optional whitespace, by a binary operator after which
    the next token that is no whitespace starts no factor, evaluate raises
    the SyntaxError "Unrecognized token" for this token; it is the token
    EOF when only whitespace, or nothing, follows the operator. *)
Theorem operator_without_operand e t w c k :
  Grammar.expr e t -> Grammar.whitespace w ->
  Grammar.addop c = Some k \/ Grammar.multop c = Some k ->
  (forall rest tok,
     no_operand (e ++ w ++ c :: rest) (length e + length w + 1) tok ->
     evaluate (e ++ w ++ c :: rest)
     = Raise (SyntaxError (Unrecognized_token tok)))
  /\ (forall w2,
        Grammar.whitespace w2 ->
        evaluate (e ++ w ++ c :: w2)
        = Raise (SyntaxError (Unrecognized_token (mkToken EOF None)))).
Proof.
  intros He Hw Hc. split.
  - intros rest tok. now apply evaluate_dangling with (t := t) (k := k).
  - intros w2 Hw2. apply evaluate_dangling with (t := t) (k := k); trivial.
    now apply no_operand_end.
Qed.

Lemma operator_without_operand_witness :
  evaluate (lit "2*3 * ")
  = Raise (SyntaxError (Unrecognized_token (mkToken EOF None))).
Proof.
  refine (proj2 (operator_without_operand (lit "2*3")
                   (BinOp (int_literal "2") (op_token MUL "*")
                          (int_literal "3"))
                   (lit " ") "*"%char MUL _ eq_refl (or_intror eq_refl))
            (lit " ") eq_refl).
  apply expr_of_term.
  apply (term_of_two (lit "2") _ "*"%char MUL [] (lit "3"));
    try reflexivity; now apply factor_int_literal.
Defined.

(** * Whitespace can be removed *)

Lemma strip_app a b : strip (a ++ b) = strip a ++ strip b.
Proof. apply filter_app. Qed.

Lemma strip_cons c x : is_space c = false -> strip (c :: x) = c :: strip x.
Proof. intros H. unfold strip. simpl. now rewrite H. Qed.

Lemma strip_whitespace w : Grammar.whitespace w -> strip w = [].
Proof.
  unfold Grammar.whitespace, strip.
  induction w as [|c w IH]; simpl; [trivial|].
  intros H. apply andb_prop in H. destruct H as (Hc & Hw).
  rewrite Hc. simpl. now apply IH.
Qed.

Lemma strip_digits d : forallb is_digit d = true -> strip d = d.
Proof.
  induction d as [|c d IH]; cbn [forallb]; [trivial|].
  intros H. apply andb_prop in H. destruct H as (Hc & Hd).
  apply digit_class in Hc. destruct Hc as (Hc & _).
  rewrite (strip_cons _ _ Hc). now rewrite (IH Hd).
Qed.

Lemma strip_operator w1 c k w2 x rest :
  Grammar.whitespace w1 -> punctuation c = Some k ->
  Grammar.whitespace w2 ->
  strip (w1 ++ c :: w2 ++ x ++ rest) = [] ++ c :: [] ++ strip x ++ strip rest.
Proof.
  intros Hw1 Hc Hw2. apply punctuation_class in Hc.
  destruct Hc as (Hc & _).
  rewrite strip_app, (strip_whitespace _ Hw1), (strip_cons _ _ Hc).
  now rewrite !strip_app, (strip_whitespace _ Hw2).
Qed.

Lemma grammar_strip :
  (forall x t, Grammar.factor x t -> Grammar.factor (strip x) t)
  /\ (forall x t, Grammar.term x t -> Grammar.term (strip x) t)
  /\ (forall l x r, Grammar.term_rest l x r ->
        Grammar.term_rest l (strip x) r)
  /\ (forall x t, Grammar.expr x t -> Grammar.expr (strip x) t)
  /\ (forall l x r, Grammar.expr_rest l x r ->
        Grammar.expr_rest l (strip x) r).
Proof.
  apply grammar_mind.
  - intros x t _ IH. rewrite strip_cons by reflexivity.
    now apply Grammar.factor_MINUS.
  - intros d v Hd Hv. rewrite (strip_digits d (all_digits_forallb d Hd)).
    now apply Grammar.factor_INTEGER.
  - intros c f v Hc Hf Hv.
    pose proof (digit_class c Hc) as (Hsc & _).
    rewrite (strip_cons _ _ Hsc), (strip_cons "."%char) by reflexivity.
    rewrite (strip_digits f (all_digits_forallb f Hf)).
    now apply Grammar.factor_FLOAT.
  - intros w1 e t w2 Hw1 _ IH Hw2.
    rewrite (strip_cons "("%char) by reflexivity.
    rewrite !strip_app, (strip_whitespace _ Hw1), (strip_whitespace _ Hw2).
    rewrite (strip_cons ")"%char) by reflexivity.
    now apply (Grammar.factor_LPAREN [] (strip e) t []).
  - intros x t w _ IH Hw.
    now rewrite strip_app, (strip_whitespace _ Hw), app_nil_r.
  - intros x t rest r _ IHx _ IHr. rewrite strip_app.
    now apply Grammar.term_factor with (t := t).
  - intros l. apply Grammar.term_rest_nil.
  - intros l w1 c k w2 x t rest r Hw1 Hc Hw2 _ IHx _ IHr.
    rewrite (strip_operator w1 c k w2 x rest Hw1 (multop_opclass _ _ Hc) Hw2).
    now apply (Grammar.term_rest_multop l [] c k [] (strip x) t).
  - intros x t rest r _ IHx _ IHr. rewrite strip_app.
    now apply Grammar.expr_term with (t := t).
  - intros l. apply Grammar.expr_rest_nil.
  - intros l w1 c k w2 x t rest r Hw1 Hc Hw2 _ IHx _ IHr.
    rewrite (strip_operator w1 c k w2 x rest Hw1 (addop_opclass _ _ Hc) Hw2).
    now apply (Grammar.expr_rest_addop l [] c k [] (strip x) t).
Qed.

Lemma strip_expression e t :
  Grammar.expr e t ->
  Grammar.expr (strip e) t
  /\ parse_tree (strip e) = Return t
  /\ evaluate (strip e) = evaluate e.
Proof.
  intros He. destruct grammar_strip as (_ & _ & _ & H & _).
  pose proof (H _ _ He) as Hs.
  split; [exact Hs|]. split; [now apply parse_tree_grammar|].
  now rewrite (evaluate_grammar _ _ Hs), (evaluate_grammar _ _ He).
Qed.

(** X17.  Whitespace is never needed: an expression with all its
    whitespace removed is an expression with the same tree, and evaluate
    does on it what it does on the expression.  (Whitespace added can
    break an expression: after a unary minus, or at the start.) *)
Theorem whitespace_can_be_removed e t :
  Grammar.expr e t ->
  Grammar.expr (strip e) t
  /\ parse_tree (strip e) = Return t
  /\ evaluate (strip e) = evaluate e.
Proof. apply strip_expression. Qed.

Lemma whitespace_can_be_removed_witness :
  evaluate (lit "2*3") = evaluate (lit "2 * 3").
Proof.
  refine (proj2 (proj2 (whitespace_can_be_removed (lit "2 * 3")
                   (BinOp (int_literal "2") (op_token MUL "*")
                          (int_literal "3")) _))).
  apply expr_of_term.
  apply (term_of_two (lit "2 ") _ "*"%char MUL (lit " ") (lit "3"));
    try reflexivity; [|now apply factor_int_literal].
  apply (Grammar.factor_WHITESPACE (lit "2") _ (lit " "));
    [now apply factor_int_literal | reflexivity].
Defined.

(** * The decorator add_logger *)

Lemma dict_get_del {object : Type} key k (globs : namespace object) :
  dict_get key (dict_del k globs)
  = if String.eqb key k then None else dict_get key globs.
Proof.
  induction globs as [|[k' v] globs IH]; simpl.
  - now destruct (String.eqb key k).
  - destruct (String.eqb k k') eqn:E.
    + apply String.eqb_eq in E. subst k'. rewrite IH.
      now destruct (String.eqb key k).
    + simpl. rewrite IH.
      destruct (String.eqb key k') eqn:E'; [|reflexivity].
      apply String.eqb_eq in E'. subst k'.
      now rewrite String.eqb_sym, E.
Qed.

Lemma dict_get_set {object : Type} key k (v : object) globs :
  dict_get key (dict_set k v globs)
  = if String.eqb key k then Some v else dict_get key globs.
Proof.
  unfold dict_set. simpl. rewrite dict_get_del.
  now destruct (String.eqb key k).
Qed.

Lemma add_logger_restores_logger {object A R E : Type}
    (child_logger : string -> string -> object) (module qualname : string)
    (f : A -> namespace object -> completion R E * namespace object)
    args globs :
  dict_get "logger"
    (snd (add_logger child_logger module qualname f args globs))
  = dict_get "logger" globs.
Proof.
  unfold add_logger.
  destruct (f args _) as [result globs'].
  destruct (dict_get "logger" globs) as [o|] eqn:Eo.
  - cbn [fst snd]. now rewrite dict_get_set.
  - destruct (dict_get "logger" globs') as [o'|] eqn:Eo'; cbn [fst snd].
    + now rewrite dict_get_del.
    + exact Eo'.
Qed.

Lemma add_logger_other_names {object A R E : Type}
    (child_logger : string -> string -> object) (module qualname : string)
    (f : A -> namespace object -> completion R E * namespace object)
    args globs key :
  key <> "logger"%string ->
  dict_get key (snd (add_logger child_logger module qualname f args globs))
  = dict_get key
      (snd (f args (dict_set "logger" (child_logger module qualname)
                      globs))).
Proof.
  intros Hk. apply String.eqb_neq in Hk. unfold add_logger.
  destruct (f args _) as [result globs'].
  destruct (dict_get "logger" globs) as [o|].
  - cbn [fst snd]. now rewrite dict_get_set, Hk.
  - destruct (dict_get "logger" globs') as [o'|]; cbn [fst snd];
      [|reflexivity].
    now rewrite dict_get_del, Hk.
Qed.

Lemma add_logger_result {object A R E : Type}
    (child_logger : string -> string -> object) (module qualname : string)
    (f : A -> namespace object -> completion R E * namespace object)
    args globs :
  fst (add_logger child_logger module qualname f args globs)
  = match dict_get "logger" globs,
          dict_get "logger"
            (snd (f args (dict_set "logger" (child_logger module qualname)
                            globs)))
    with
    | None, None => Raises_KeyError "logger"
    | _, _ =>
        fst (f args (dict_set "logger" (child_logger module qualname)
                       globs))
    end.
Proof.
  unfold add_logger.
  destruct (f args _) as [result globs'].
  destruct (dict_get "logger" globs) as [o|]; [reflexivity|]. cbn [fst snd].
  now destruct (dict_get "logger" globs').
Qed.

(** X15.  The decorator add_logger of utils.py, for every logging library
    (every function from the module and the qualified name to the logger
    object).  The decorated function is called with the global name logger
    bound to the object logging.getLogger(module).getChild(qualname) and
    every other name as it was.  When the call is over, by a return or by
    an exception, logger is bound as before the call, or unbound if it
    was, whatever the function did to it, and the other names are as the
    function left them.  The result or exception is that of the function,
    except that a function that unbinds logger, when it was unbound before
    the call, makes the decorator raise KeyError. *)
Theorem add_logger_restores {object A R E : Type}
    (child_logger : string -> string -> object) (module qualname : string)
    (f : A -> namespace object -> completion R E * namespace object)
    (args : A) (globs : namespace object) :
  let called_with :=
    dict_set "logger" (child_logger module qualname) globs in
  let inner := f args called_with in
  let outer := add_logger child_logger module qualname f args globs in
  (forall key,
     dict_get key called_with
     = if String.eqb key "logger"
       then Some (child_logger module qualname)
       else dict_get key globs)
  /\ dict_get "logger" (snd outer) = dict_get "logger" globs
  /\ (forall key, key <> "logger"%string ->
        dict_get key (snd outer) = dict_get key (snd inner))
  /\ fst outer
     = match dict_get "logger" globs, dict_get "logger" (snd inner) with
       | None, None => Raises_KeyError "logger"
       | _, _ => fst inner
       end.
Proof.
  cbv zeta. split; [intros key; apply dict_get_set|].
  split; [apply add_logger_restores_logger|].
  split; [apply add_logger_other_names | apply add_logger_result].
Qed.

(** A function that unbinds logger, decorated in a module where logger is
    bound (objects are numbered here, and the library gives the logger 1):
    the binding is there again after the call. *)
Lemma add_logger_restores_witness :
  dict_get "logger"
    (snd (add_logger (fun _ _ => 1) "calc" "Parser.eat"
            (fun (_ : unit) globs =>
               (@Returns nat unit 0, dict_del "logger" globs))
            tt [("logger"%string, 0)]))
  = Some 0.
Proof.
  exact (proj1 (proj2
           (add_logger_restores (fun _ _ => 1) "calc" "Parser.eat"
              (fun (_ : unit) globs =>
                 (@Returns nat unit 0, dict_del "logger" globs))
              tt [("logger"%string, 0)]))).
Defined.
